(** * Zentech-KnowledgeGraph: the Neo4j connection and the triple parser

    A shallow embedding of [src/graph_db.py], [src/Modules/DBUtils.py],
    [src/pdf_processor.py] and [src/Modules/pdfProcessor.py], with the
    provider wrappers of [src/Modules/llmWrapper.py] and [src/app.py] and
    the chat of [src/Modules/appUi.py].

    Python [str] values are lists of Unicode code points.  The graph store is
    a small executable model of the Cypher statements the connection sends. *)

From Stdlib Require Import List NArith Lia Bool String Ascii Arith PeanoNat.
From Stdlib Require Import DecimalString.
Import ListNotations.

(** ** Python strings *)

Module Py.

Definition char := N.
Definition str := list char.

(** A literal of the source, written as a Rocq string of 7-bit characters. *)
Definition lit (s : string) : str := map N_of_ascii (list_ascii_of_string s).

Definition nl : char := 10%N.
Definition tab : char := 9%N.

Fixpoint str_eqb (a b : str) : bool :=
  match a, b with
  | [], [] => true
  | x :: a', y :: b' => N.eqb x y && str_eqb a' b'
  | _, _ => false
  end.

(** Truth value of a string: [if s:] holds for every non-empty string. *)
Definition truthy (s : str) : bool :=
  match s with
  | [] => false
  | _ :: _ => true
  end.

(** [c.isspace()], the characters that [str.strip()] removes. *)
Definition isspace (c : char) : bool :=
  ((9 <=? c) && (c <=? 13) || (28 <=? c) && (c <=? 32)
   || (c =? 133) || (c =? 160) || (c =? 5760)
   || (8192 <=? c) && (c <=? 8202)
   || (c =? 8232) || (c =? 8233) || (c =? 8239) || (c =? 8287)
   || (c =? 12288))%N.

Fixpoint lstrip_by (p : char -> bool) (s : str) : str :=
  match s with
  | [] => []
  | c :: r => if p c then lstrip_by p r else s
  end.

Definition rstrip_by (p : char -> bool) (s : str) : str :=
  rev (lstrip_by p (rev s)).

Definition strip_by (p : char -> bool) (s : str) : str :=
  rstrip_by p (lstrip_by p s).

(** [s.strip()] *)
Definition strip (s : str) : str := strip_by isspace s.

Definition mem (c : char) (chars : str) : bool := existsb (N.eqb c) chars.

(** [s.strip(chars)]: [chars] is a set of characters, removed from both ends. *)
Definition strip_chars (s chars : str) : str :=
  strip_by (fun c => mem c chars) s.

Fixpoint startswith (s pre : str) : bool :=
  match pre, s with
  | [], _ => true
  | p :: pre', c :: s' => N.eqb c p && startswith s' pre'
  | _ :: _, [] => false
  end.

(** [sub in s] *)
Fixpoint contains (s sub : str) : bool :=
  startswith s sub
  || match s with
     | [] => false
     | _ :: r => contains r sub
     end.

(** [s.split(sep)] for a non-empty [sep], scanning left to right; [skip]
    counts the characters of a separator that was just matched. *)
Fixpoint split_from (sep : str) (skip : nat) (s : str) : str * list str :=
  match s with
  | [] => ([], [])
  | c :: r =>
      match skip with
      | S k => split_from sep k r
      | O =>
          if startswith s sep
          then ([], let (a, l) := split_from sep (List.length sep - 1) r in a :: l)
          else let (a, l) := split_from sep 0 r in (c :: a, l)
      end
  end.

Definition split (s sep : str) : list str :=
  let (a, l) := split_from sep 0 s in a :: l.

(** [s.replace(old, new)] for a non-empty [old]. *)
Fixpoint replace_from (old new : str) (skip : nat) (s : str) : str :=
  match s with
  | [] => []
  | c :: r =>
      match skip with
      | S k => replace_from old new k r
      | O =>
          if startswith s old
          then new ++ replace_from old new (List.length old - 1) r
          else c :: replace_from old new 0 r
      end
  end.

Definition replace (s old new : str) : str := replace_from old new 0 s.

Definition is_ascii_lower (c : char) : bool := ((97 <=? c) && (c <=? 122))%N.
Definition is_ascii_upper (c : char) : bool := ((65 <=? c) && (c <=? 90))%N.
Definition is_ascii_digit (c : char) : bool := ((48 <=? c) && (c <=? 57))%N.

Definition ascii_upper (c : char) : char :=
  if is_ascii_lower c then (c - 32)%N else c.

Section Case.
(** The upper-case mapping of the characters above U+007F is a table of the
    Unicode database; one character may map to several. *)
Variable upper_ext : char -> str.

Definition upper_char (c : char) : str :=
  if (c <? 128)%N then [ascii_upper c] else upper_ext c.

(** [s.upper()] maps every character on its own. *)
Definition upper (s : str) : str := flat_map upper_char s.
End Case.

(** [re.sub(r"[^a-zA-Z0-9_]", "", s)] *)
Definition in_word_class (c : char) : bool :=
  is_ascii_lower c || is_ascii_upper c || is_ascii_digit c || N.eqb c 95.

Definition re_sub_non_word (s : str) : str := filter in_word_class s.

(** Values that a result row carries: [None] or a string. *)
Inductive value :=
| VNone
| VStr (s : str).

Definition value_eqb (a b : value) : bool :=
  match a, b with
  | VNone, VNone => true
  | VStr x, VStr y => str_eqb x y
  | _, _ => false
  end.

(** [not v] is false exactly for a non-empty string. *)
Definition value_truthy (v : value) : bool :=
  match v with
  | VNone => false
  | VStr s => truthy s
  end.

(** [f"{v}"] *)
Definition format (v : value) : str :=
  match v with
  | VNone => lit "None"
  | VStr s => s
  end.

(** A [dict] with string keys, in insertion order. *)
Definition dict (V : Type) := list (str * V).

Fixpoint dict_lookup {V} (d : dict V) (k : str) : option V :=
  match d with
  | [] => None
  | (k', v) :: r => if str_eqb k' k then Some v else dict_lookup r k
  end.

(** [d.get(k)] and [d.get(k, default)] *)
Definition get (d : dict value) (k : str) : value :=
  match dict_lookup d k with
  | Some v => v
  | None => VNone
  end.

Definition get_default (d : dict value) (k : str) (default : value) : value :=
  match dict_lookup d k with
  | Some v => v
  | None => default
  end.

(** [d[k].append(v)] on a [defaultdict(list)]: a new key goes last. *)
Fixpoint append_at {V} (d : dict (list V)) (k : str) (v : V) : dict (list V) :=
  match d with
  | [] => [(k, [v])]
  | (k', vs) :: r =>
      if str_eqb k' k then (k', vs ++ [v]) :: r else (k', vs) :: append_at r k v
  end.

(** Exceptions, with the text that [str(e)] gives. *)
Inductive exn :=
| ValueError (msg : str)
| IndexError (msg : str)
| OtherError (msg : str).

Definition exn_str (e : exn) : str :=
  match e with
  | ValueError m | IndexError m | OtherError m => m
  end.

(** The outcome of a call that may raise. *)
Inductive result (A : Type) :=
| Ok (a : A)
| Raise (e : exn).
Arguments Ok {A} a.
Arguments Raise {A} e.

(** [xs[i]] *)
Definition index {A} (xs : list A) (i : nat) : result A :=
  match nth_error xs i with
  | Some x => Ok x
  | None => Raise (IndexError (lit "list index out of range"))
  end.

End Py.

(** ** The graph store

    Nodes carry labels and a [name] property; relationships are directed and
    typed.  The statements below are the ones the connection sends: their
    text is fixed in the source, only the parameters vary. *)

Module Neo4j.
Import Py.

Record node := {
  node_id : nat;
  labels : list str;
  node_name : value
}.

Record relationship := {
  rel_start : nat;
  rel_type : str;
  rel_end : nat
}.

Record graph := {
  nodes : list node;
  relationships : list relationship
}.

Definition empty_graph : graph := {| nodes := []; relationships := [] |}.

Definition Entity : str := lit "Entity".

Definition has_label (l : str) (n : node) : bool :=
  existsb (str_eqb l) (labels n).

(** The pattern [(e:Entity {name: x})]. *)
Definition is_entity_named (x : str) (n : node) : bool :=
  has_label Entity n && value_eqb (node_name n) (VStr x).

Definition fresh_id (g : graph) : nat := S (list_max (map node_id (nodes g))).

(** [MERGE (e:Entity {name: x})]: [e] is bound to every node that matches
    the pattern; when none does, one is created. *)
Definition merge_entity (x : str) (g : graph) : list nat * graph :=
  match filter (is_entity_named x) (nodes g) with
  | [] =>
      let i := fresh_id g in
      ([i],
       {| nodes := nodes g
                   ++ [{| node_id := i; labels := [Entity];
                          node_name := VStr x |}];
          relationships := relationships g |})
  | found => (map node_id found, g)
  end.

Definition rel_eqb (a b : relationship) : bool :=
  Nat.eqb (rel_start a) (rel_start b)
  && str_eqb (rel_type a) (rel_type b)
  && Nat.eqb (rel_end a) (rel_end b).

(** [MERGE (e1)-[:t]->(e2)] with both ends bound. *)
Definition merge_relationship (t : str) (g : graph) (ends : nat * nat) : graph :=
  let r := {| rel_start := fst ends; rel_type := t; rel_end := snd ends |} in
  if existsb (rel_eqb r) (relationships g) then g
  else {| nodes := nodes g; relationships := relationships g ++ [r] |}.

(** One row of [UNWIND $pairs as pair] through the three [MERGE] clauses. *)
Definition merge_pair (t : str) (g : graph) (pair : str * str) : graph :=
  let (b1, g1) := merge_entity (fst pair) g in
  let (rows, g2) :=
    fold_left
      (fun acc i1 =>
         let (b2, g') := merge_entity (snd pair) (snd acc) in
         (fst acc ++ map (fun i2 => (i1, i2)) b2, g'))
      b1 ([], g1) in
  fold_left (merge_relationship t) rows g2.

(** The write statement of [add_triples] for one relation type. *)
Definition merge_pairs (t : str) (pairs : list (str * str)) (g : graph) : graph :=
  fold_left (merge_pair t) pairs g.

(** Keeps the first occurrence of every string. *)
Fixpoint distinct (l : list str) : list str :=
  match l with
  | [] => []
  | x :: r => x :: filter (fun y => negb (str_eqb x y)) (distinct r)
  end.

(** [CALL db.labels()] and [CALL db.relationshipTypes()]. *)
Definition db_labels (g : graph) : list str :=
  distinct (flat_map labels (nodes g)).

Definition db_relationship_types (g : graph) : list str :=
  distinct (map rel_type (relationships g)).

(** A result row, [dict(record)]. *)
Definition row := dict value.

Section Match.
(** Cypher's [toLower()]. *)
Variable toLower : str -> str.

(** [WHERE toLower(n.name) CONTAINS toLower(entityName)]; a node without
    a name never satisfies it. *)
Definition name_contains (n : node) (entityName : str) : bool :=
  match node_name n with
  | VStr s => contains (toLower s) (toLower entityName)
  | VNone => false
  end.

Definition named (g : graph) (i : nat) : list node :=
  filter (fun m => Nat.eqb (node_id m) i) (nodes g).

(** [(n)-[r]-(m)]: the relationships at [n] in either direction, a loop
    once. *)
Definition neighbours (g : graph) (n : node) : list (str * node) :=
  flat_map
    (fun r =>
       (if Nat.eqb (rel_start r) (node_id n)
        then map (fun m => (rel_type r, m)) (named g (rel_end r))
        else [])
       ++ (if Nat.eqb (rel_end r) (node_id n)
              && negb (Nat.eqb (rel_start r) (rel_end r))
           then map (fun m => (rel_type r, m)) (named g (rel_start r))
           else []))
    (relationships g).

Definition result_row (n : node) (rm : str * node) : row :=
  [(lit "node", node_name n);
   (lit "relationship", VStr (fst rm));
   (lit "target", node_name (snd rm))].

Definition match_rows (g : graph) (entities : list str) : list row :=
  flat_map
    (fun entityName =>
       flat_map
         (fun n =>
            if has_label Entity n && name_contains n entityName
            then map (result_row n) (neighbours g n)
            else [])
         (nodes g))
    entities.

(** The read statement of [search_graph], with its [LIMIT 25].  The store
    fixes the order of the rows; the order taken here is by entity name,
    then node, then relationship. *)
Definition match_neighbours (g : graph) (entities : list str) : list row :=
  firstn 25 (match_rows g entities).
End Match.

(** What a session was asked to run. *)
Inductive statement :=
| MergePairs (rel_type : str) (pairs : list (str * str))
| CallLabels
| CallRelationshipTypes
| MatchNeighbours (entities : list str).

Inductive access := Write | Read.

(** The database behind the driver: the graph and the journal of the
    transactions run so far, oldest first. *)
Record db := {
  graph_of : graph;
  journal : list (access * statement)
}.

Definition logged (a : access) (s : statement) (d : db) : db :=
  {| graph_of := graph_of d; journal := journal d ++ [(a, s)] |}.

Definition writes (d : db) : list statement :=
  map snd (filter (fun e => match fst e with Write => true | Read => false end)
             (journal d)).

Definition reads (d : db) : list statement :=
  map snd (filter (fun e => match fst e with Read => true | Write => false end)
             (journal d)).

End Neo4j.

(** ** class Neo4jConnection

    The methods that [src/graph_db.py] and [src/Modules/DBUtils.py] share
    line for line. *)

Module Neo4jConnection.
Import Py Neo4j.

(** [_execute_write] / [execute_write]: one session, one write transaction. *)
Definition execute_write (s : statement) (d : db) : db :=
  let g := graph_of d in
  {| graph_of := match s with
                 | MergePairs t pairs => merge_pairs t pairs g
                 | _ => g
                 end;
     journal := journal d ++ [(Write, s)] |}.

Definition triple := (str * str * str)%type.

Record schema := {
  node_labels : list str;
  relationship_types : list str
}.

(** [get_schema]: two read transactions. *)
Definition get_schema (d : db) : schema * db :=
  let labels := db_labels (graph_of d) in
  let d1 := logged Read CallLabels d in
  let rel_types := db_relationship_types (graph_of d1) in
  let d2 := logged Read CallRelationshipTypes d1 in
  ({| node_labels := labels; relationship_types := rel_types |}, d2).

(** The two prompts are f-strings; a prompt is given by the values that fill
    its holes. *)
Inductive prompt :=
| CypherPrompt (s : schema) (question : str)
| EntityPrompt (query_text : str).

(** [model.generate(prompt)]: a string, or an exception of the provider. *)
Definition model := prompt -> result str.

(** What the method shows through [st] / [st_object]. *)
Record node_data := {
  nd_id : value;
  nd_label : str;
  nd_name : value
}.

Record edge_data := {
  ed_id : str;
  ed_source : value;
  ed_target : value;
  ed_label : value;
  ed_source_name : value;
  ed_destination_name : value
}.

Record elements := {
  el_nodes : list node_data;
  el_edges : list edge_data
}.

Inductive ui :=
| StError (msg : str)
| StWarning (msg : str)
| StLinkAnalysis (e : elements) (node_style_labels : list str)
    (edge_style_labels : list value).

Definition write_ops : list str :=
  [lit "CREATE"; lit "SET"; lit "DELETE"; lit "MERGE"].

(** U+274C followed by the text of the message. *)
Definition disallowed_msg : str :=
  10060%N :: lit " Disallowed write operation in query.".

Definition fence : str := lit "```".

Section Methods.
Variable upper_ext : char -> str.

(** [re.sub(r"[^a-zA-Z0-9_]", "", rel.replace(" ", "_")).upper()] *)
Definition sanitized_rel (rel : str) : str :=
  upper upper_ext (re_sub_non_word (replace rel (lit " ") (lit "_"))).

(** The first loop of [add_triples]. *)
Definition grouped_triples (triples : list triple) : dict (list (str * str)) :=
  fold_left
    (fun grouped (t : triple) =>
       let '(e1, rel, e2) := t in
       if truthy (sanitized_rel rel)
       then append_at grouped (sanitized_rel rel) (e1, e2)
       else grouped)
    triples [].

(** The second loop: one write per item of the dictionary. *)
Definition add_triples (triples : list triple) (d : db) : db :=
  fold_left
    (fun d' (item : str * list (str * str)) =>
       execute_write (MergePairs (fst item) (snd item)) d')
    (grouped_triples triples) d.

(** Lines 109-112 (117-119): the query taken from the model's answer. *)
Definition extract_query (answer : str) : result str :=
  let cypher_query := strip answer in
  if contains cypher_query fence
  then match index (split cypher_query fence) 1 with
       | Ok segment =>
           Ok (strip (strip_chars segment (lit "cypher" ++ [nl])))
       | Raise e => Raise e
       end
  else Ok cypher_query.

(** Lines 114-120 (123-129): the check for write operations. *)
Definition check_read_only (cypher_query : str) : result str :=
  if existsb (fun op => contains (upper upper_ext cypher_query) op) write_ops
  then Raise (ValueError disallowed_msg)
  else Ok cypher_query.

(** The body of the [try]. *)
Definition generate_cypher_try (s : schema) (question : str) (m : model)
  : result str :=
  match m (CypherPrompt s question) with
  | Raise e => Raise e
  | Ok answer =>
      match extract_query answer with
      | Raise e => Raise e
      | Ok cypher_query => check_read_only cypher_query
      end
  end.

Definition generate_cypher (question : str) (m : model) (d : db)
  : option str * list ui * db :=
  let (s, d') := get_schema d in
  match generate_cypher_try s question m with
  | Ok cypher_query => (Some cypher_query, [], d')
  | Raise e =>
      (None, [StError (lit "Error generating Cypher query: " ++ exn_str e)], d')
  end.
End Methods.

(** *** The loop of [visualize_subgraph]

    The sets are kept as lists without repetition; [node_name_map] is
    written and never read, and is left out. *)

Record vis := {
  vnodes : list node_data;
  vedges : list edge_data;
  node_ids : list value;
  edge_ids : list str;
  vnode_labels : list str;
  edge_labels : list value
}.

Definition vis_init : vis :=
  {| vnodes := []; vedges := []; node_ids := []; edge_ids := [];
     vnode_labels := []; edge_labels := [] |}.

Definition set_add {A} (eqb : A -> A -> bool) (x : A) (s : list A) : list A :=
  if existsb (eqb x) s then s else s ++ [x].

Definition RELATED_TO : str := lit "RELATED_TO".

(** [for n in [src, tgt]: if n not in node_ids: ...] *)
Definition visit_node (st : vis) (n : value) : vis :=
  if existsb (value_eqb n) (node_ids st) then st
  else {| vnodes := vnodes st
                    ++ [{| nd_id := n; nd_label := Entity; nd_name := n |}];
          vedges := vedges st;
          node_ids := set_add value_eqb n (node_ids st);
          edge_ids := edge_ids st;
          vnode_labels := set_add str_eqb Entity (vnode_labels st);
          edge_labels := edge_labels st |}.

(** [f"{src}-{rel}-{tgt}"] *)
Definition edge_id_of (src rel tgt : value) : str :=
  format src ++ lit "-" ++ format rel ++ lit "-" ++ format tgt.

Definition row_src (r : row) : value := get r (lit "node").
Definition row_rel (r : row) : value :=
  get_default r (lit "relationship") (VStr RELATED_TO).
Definition row_tgt (r : row) : value := get r (lit "target").

(** [if not src or not tgt: continue] *)
Definition skipped (r : row) : bool :=
  negb (value_truthy (row_src r)) || negb (value_truthy (row_tgt r)).

Definition visit_row (st : vis) (r : row) : vis :=
  let src := row_src r in
  let rel := row_rel r in
  let tgt := row_tgt r in
  if skipped r then st
  else
    let st1 := fold_left visit_node [src; tgt] st in
    let edge_id := edge_id_of src rel tgt in
    if existsb (str_eqb edge_id) (edge_ids st1) then st1
    else {| vnodes := vnodes st1;
            vedges := vedges st1
                      ++ [{| ed_id := edge_id; ed_source := src;
                             ed_target := tgt; ed_label := rel;
                             ed_source_name := src;
                             ed_destination_name := tgt |}];
            node_ids := node_ids st1;
            edge_ids := set_add str_eqb edge_id (edge_ids st1);
            vnode_labels := vnode_labels st1;
            edge_labels := set_add value_eqb rel (edge_labels st1) |}.

Definition build (raw_data : list row) : vis := fold_left visit_row raw_data vis_init.

(** From [raw_data] on: the warning, or the call of [st_link_analysis]. The
    styles are one per label; their colours are not modelled. *)
Definition visualize (raw_data : list row) : list ui :=
  match raw_data with
  | [] => [StWarning (lit "No visual data to display for this query.")]
  | _ :: _ =>
      let st := build raw_data in
      [StLinkAnalysis {| el_nodes := vnodes st; el_edges := vedges st |}
         (vnode_labels st) (edge_labels st)]
  end.

End Neo4jConnection.

(** ** [search_graph] and [visualize_subgraph] of [src/graph_db.py] *)

Module GraphDb.
Import Py Neo4j Neo4jConnection.

(** What the method reads of a spaCy document. *)
Record span := {
  span_text : str;
  span_start : nat;
  span_end : nat
}.

Record token := {
  token_text : str;
  token_pos_ : str;
  token_i : nat
}.

Record doc := {
  ents : list span;
  tokens : list token
}.

Section Search.
Variable nlp : str -> doc.
Variable toLower : str -> str.

(** Lines 127-132: the entity texts, then the proper nouns outside every
    entity.  The set is kept in insertion order. *)
Definition entities_of (dc : doc) : list str :=
  let entities :=
    fold_left (fun s ent => set_add str_eqb (strip (span_text ent)) s)
      (ents dc) [] in
  fold_left
    (fun s tok =>
       if str_eqb (token_pos_ tok) (lit "PROPN")
          && negb (existsb
                     (fun ent =>
                        Nat.leb (span_start ent) (token_i tok)
                        && Nat.ltb (token_i tok) (span_end ent))
                     (ents dc))
       then set_add str_eqb (strip (token_text tok)) s
       else s)
    (tokens dc) entities.

Definition search_graph (query_text : str) (d : db) : list row * db :=
  let entities := entities_of (nlp query_text) in
  match entities with
  | [] => ([], d)
  | _ :: _ =>
      (match_neighbours toLower (graph_of d) entities,
       logged Read (MatchNeighbours entities) d)
  end.

Definition visualize_subgraph (query_text : str) (d : db) : list ui * db :=
  let (raw_data, d') := search_graph query_text d in
  (visualize raw_data, d').
End Search.

End GraphDb.

(** ** [search_graph] and [visualize_subgraph] of [src/Modules/DBUtils.py] *)

Module DBUtils.
Import Py Neo4j Neo4jConnection.

Section Search.
Variable toLower : str -> str.

(** [[e.strip() for e in entity_string.split(",") if e.strip()]] *)
Definition entities_of (entity_string : str) : list str :=
  map strip
    (filter (fun e => truthy (strip e)) (split entity_string (lit ","))).

(** An exception of the model is not caught here. *)
Definition search_graph (query_text : str) (m : model) (d : db)
  : result (list row) * db :=
  match m (EntityPrompt query_text) with
  | Raise e => (Raise e, d)
  | Ok entity_string =>
      let entities := entities_of entity_string in
      match entities with
      | [] => (Ok [], d)
      | _ :: _ =>
          (Ok (match_neighbours toLower (graph_of d) entities),
           logged Read (MatchNeighbours entities) d)
      end
  end.

Definition visualize_subgraph (query_text : str) (m : model) (d : db)
  : result (list ui) * db :=
  match search_graph query_text m d with
  | (Raise e, d') => (Raise e, d')
  | (Ok raw_data, d') => (Ok (visualize raw_data), d')
  end.
End Search.

End DBUtils.

(** ** [process_pdf_and_store], from [response.text] on

    The parsing is identical in [src/pdf_processor.py] and
    [src/Modules/pdfProcessor.py].  The texts shown differ: in the second
    file two literals are continued with a backslash, so that the
    indentation of the next line is part of the text. *)

Module PdfProcessor.
Import Py Neo4j Neo4jConnection.

(** The set of characters of the second [strip]: the single and the double
    quote. *)
Definition quote_chars : str := [39%N; 34%N].

(** [parts[k].strip().strip(quote_chars)] *)
Definition field (part : str) : str := strip_chars (strip part) quote_chars.

(** The body of the loop over the lines: the triple it appends, if any. *)
Definition line_triple (line : str) : option triple :=
  match split line (lit "|") with
  | [p0; p1; p2] =>
      let e1 := field p0 in
      let rel := field p1 in
      let e2 := field p2 in
      if truthy e1 && truthy rel && truthy e2 then Some (e1, rel, e2) else None
  | _ => None
  end.

Definition triples_of_text (text : str) : list triple :=
  fold_left
    (fun triples line =>
       match line_triple line with
       | Some t => triples ++ [t]
       | None => triples
       end)
    (split (strip text) [nl]) [].

(** The two files. *)
Inductive file :=
| pdf_processor_py
| pdfProcessor_py.

(** What this part shows: a toast, or a call on [st] that the connection
    knows too. *)
Inductive event :=
| StToast (text : str)
| St (u : ui).

Definition spaces (n : nat) : str := repeat 32%N n.

(** [str(n)] for a length. *)
Definition str_of_nat (n : nat) : str :=
  lit (NilEmpty.string_of_uint (Nat.to_uint n)).

(** The text of the warning (line 49, lines 47-48). *)
Definition no_data (f : file) : str :=
  match f with
  | pdf_processor_py =>
      lit "Could not extract any structured data from the document."
  | pdfProcessor_py =>
      lit "Could not extract any " ++ spaces 23
      ++ lit "structured data from the document."
  end.

(** The text of the third toast (line 52, lines 53-54), an f-string with
    [len(triples)]. *)
Definition storing (f : file) (n : nat) : str :=
  match f with
  | pdf_processor_py =>
      lit "Step 3: Storing " ++ str_of_nat n
      ++ lit " relationships in the knowledge graph."
  | pdfProcessor_py =>
      lit "Step 3: Storing " ++ str_of_nat n ++ spaces 18
      ++ lit "relationships in the knowledge graph."
  end.

Section Store.
Variable upper_ext : char -> str.

(** From [if not triples] on. *)
Definition store_triples (f : file) (text : str) (d : db) : list event * db :=
  match triples_of_text text with
  | [] => ([St (StWarning (no_data f))], d)
  | triples =>
      ([StToast (storing f (List.length triples))],
       add_triples upper_ext triples d)
  end.
End Store.

End PdfProcessor.

(** ** Notions the statements use *)

Module Props.
Import Py Neo4j Neo4jConnection.

(** The sanitizer as the specification words it, one character at a time:
    white space becomes an underscore, a character of the word class is
    upper-cased, any other is dropped. *)
Definition sanitize_whitespace_char (c : char) : str :=
  if isspace c then [95%N]
  else if in_word_class c then [ascii_upper c]
  else [].

Definition sanitize_whitespace (label : str) : str :=
  flat_map sanitize_whitespace_char label.

(** The same with the space character U+0020 in the place of white space. *)
Definition sanitize_space_char (c : char) : str :=
  if N.eqb c 32 then [95%N]
  else if in_word_class c then [ascii_upper c]
  else [].

Definition sanitize_space (label : str) : str :=
  flat_map sanitize_space_char label.

(** The alphabet of a sanitized relation type. *)
Definition is_type_char (c : char) : bool :=
  is_ascii_upper c || is_ascii_digit c || N.eqb c 95.

(** [c] is the upper-case letter [o] or its lower-case form. *)
Definition same_letter (c o : char) : Prop := c = o \/ c = (o + 32)%N.

(** [op] occurs in [s] when case is ignored. *)
Definition occurs_ignoring_case (op s : str) : Prop :=
  exists before w after,
    s = before ++ w ++ after /\ Forall2 same_letter w op.

(** The nodes that carry the label [Entity] and the name [x]. *)
Definition entities_named (x : str) (g : graph) : list node :=
  filter (is_entity_named x) (nodes g).

(** The relationships of type [t] from an entity named [x] to one named [y]. *)
Definition edges_between (t x y : str) (g : graph) : list relationship :=
  filter
    (fun r =>
       str_eqb (rel_type r) t
       && existsb (fun n => Nat.eqb (node_id n) (rel_start r)) (entities_named x g)
       && existsb (fun n => Nat.eqb (node_id n) (rel_end r)) (entities_named y g))
    (relationships g).

(** The uniqueness invariants of the data model: node identities are
    distinct, no name is carried by two entities, no relationship is
    stored twice. *)
Definition wf_graph (g : graph) : Prop :=
  NoDup (map node_id (nodes g))
  /\ (forall x, List.length (entities_named x g) <= 1)
  /\ NoDup (relationships g).

Definition empty_db : db := {| graph_of := empty_graph; journal := [] |}.

(** The upper-case table that leaves every character above U+007F alone;
    it plays no part on 7-bit text. *)
Definition no_ext : char -> str := fun c => [c].

(** The triples of the grouping example. *)
Definition founded_triples : list triple :=
  [(lit "A", lit "founded", lit "B");
   (lit "A", lit "Founded", lit "B");
   (lit "C", lit "founded", lit "D")].

(** A row with its three columns. *)
Definition row3 (src rel tgt : str) : row :=
  [(lit "node", VStr src); (lit "relationship", VStr rel);
   (lit "target", VStr tgt)].

(** The rows of the visualization example. *)
Definition founded_rows : list row :=
  [row3 (lit "A") (lit "FOUNDED") (lit "B");
   row3 (lit "A") (lit "FOUNDED") (lit "B");
   row3 (lit "B") (lit "LOCATED_IN") (lit "C")].

(** The row has a name under the key: a string that is not empty.  Under a
    key that is absent, that holds [None] or that holds the empty string it
    has none. *)
Definition has_name (r : row) (k : str) : Prop :=
  exists s, dict_lookup r k = Some (VStr s) /\ s <> [].

(** Rows that lack a name: no source column, a source that is [None], and a
    target that is the empty string. *)
Definition sourceless_row : row :=
  [(lit "relationship", VStr (lit "X")); (lit "target", VStr (lit "B"))].
Definition none_source_row : row :=
  [(lit "node", VNone); (lit "relationship", VStr (lit "X"));
   (lit "target", VStr (lit "B"))].
Definition empty_target_row : row := row3 (lit "A") (lit "X") (lit "").

(** A model's answer with a fenced query. *)
Definition fenced_answer : str :=
  lit "```cypher" ++ [nl] ++ lit "MATCH (n) RETURN n.name" ++ [nl] ++ lit "```".

(** The edge that a row contributes when its key is new. *)
Definition edge_of_row (r : row) : edge_data :=
  {| ed_id := edge_id_of (row_src r) (row_rel r) (row_tgt r);
     ed_source := row_src r;
     ed_target := row_tgt r;
     ed_label := row_rel r;
     ed_source_name := row_src r;
     ed_destination_name := row_tgt r |}.

(** What the loop of [visualize_subgraph] keeps true: the two sets hold the
    identifiers of the two lists, and no identifier is there twice. *)
Definition vis_ok (st : vis) : Prop :=
  map nd_id (vnodes st) = node_ids st
  /\ map ed_id (vedges st) = edge_ids st
  /\ NoDup (node_ids st)
  /\ NoDup (edge_ids st).

(** The state after the two nodes of a row. *)
Definition with_ends (st : vis) (r : row) : vis :=
  fold_left visit_node [row_src r; row_tgt r] st.

(** One step of the first loop of [add_triples]. *)
Definition group_step (upper_ext : char -> str)
    (grouped : dict (list (str * str))) (t : triple) : dict (list (str * str)) :=
  let '(e1, rel, e2) := t in
  if truthy (sanitized_rel upper_ext rel)
  then append_at grouped (sanitized_rel upper_ext rel) (e1, e2)
  else grouped.

(** [toLower] on 7-bit text. *)
Definition to_lower_ascii (s : str) : str :=
  map (fun c => if is_ascii_upper c then (c + 32)%N else c) s.

(** A database in which the entity [Hub] has thirty neighbours. *)
Definition hub_db : db :=
  execute_write
    (MergePairs (lit "KNOWS")
       (map (fun i => (lit "Hub", lit "N" ++ [N.of_nat (65 + i)])) (seq 0 30)))
    empty_db.

(** A model that names [Hub] whatever the prompt. *)
Definition hub_model : model := fun _ => Ok (lit "Hub").

(** A document without entities and without tokens. *)
Definition no_doc : GraphDb.doc := {| GraphDb.ents := []; GraphDb.tokens := [] |}.

(** A graph written by other hands, with two entities of one name. *)
Definition twin_db : db :=
  {| graph_of :=
       {| nodes := [{| node_id := 1; labels := [Entity]; node_name := VStr (lit "A") |};
                    {| node_id := 2; labels := [Entity]; node_name := VStr (lit "A") |}];
          relationships := [] |};
     journal := [] |}.

(** One of the two quote characters. *)
Definition is_quote (c : char) : bool := mem c PdfProcessor.quote_chars.

(** The triple a line yields, as a list of at most one element. *)
Definition line_triples (line : str) : list triple :=
  match PdfProcessor.line_triple line with
  | Some t => [t]
  | None => []
  end.

End Props.

(** ** More of Python's [str] *)

Module PyMore.
Import Py.

(** [sep.join(parts)] *)
Fixpoint join (sep : str) (parts : list str) : str :=
  match parts with
  | [] => []
  | [p] => p
  | p :: rest => p ++ sep ++ join sep rest
  end.

Definition ascii_lower (c : char) : char :=
  if is_ascii_upper c then (c + 32)%N else c.

Definition is_7bit (s : str) : bool := forallb (fun c => N.ltb c 128) s.

Section Case.
(** [s.lower()] on a string with a character above U+007F: the lower-case
    mapping of the Unicode database, which looks at the context of a
    character. *)
Variable lower_ext : str -> str.

(** [s.lower()] *)
Definition lower (s : str) : str :=
  if is_7bit s then map ascii_lower s else lower_ext s.
End Case.

End PyMore.

(** ** [clear_database] and [check_if_graph_exists]

    The two statements are outside the vocabulary of the journal; the
    methods are given by what they do to the graph and what they return. *)

Module Maintenance.
Import Py Neo4j.

(** [MATCH (n) DETACH DELETE n], of [src/graph_db.py] only. *)
Definition clear_database (g : graph) : graph :=
  {| nodes := []; relationships := [] |}.

(** [MATCH (n) RETURN n LIMIT 1], then [len(result) > 0]. *)
Definition check_if_graph_exists (g : graph) : bool :=
  Nat.ltb 0 (List.length (firstn 1 (nodes g))).

End Maintenance.

(** ** class ModelWrapper of [src/Modules/llmWrapper.py] *)

Module LlmWrapper.
Import Py PyMore.

Record ModelWrapper := { provider : str }.

Section Providers.
Variable lower_ext : str -> str.
(** The three calls of the providers' clients, up to the text they hand
    back: [generate_content(prompt).text], [choices[0].message.content] and
    [content[0].text]. *)
Variable gemini : str -> result str.
Variable openai : str -> result str.
Variable anthropic : str -> result str.

(** [__init__] *)
Definition init (provider : str) : ModelWrapper :=
  {| provider := lower lower_ext provider |}.

Definition stripped (r : result str) : result str :=
  match r with
  | Ok s => Ok (strip s)
  | Raise e => Raise e
  end.

Definition generate (self : ModelWrapper) (prompt : str) : result str :=
  if contains (provider self) (lit "gemini") then gemini prompt
  else if contains (provider self) (lit "gpt") then stripped (openai prompt)
  else if contains (provider self) (lit "claude") then stripped (anthropic prompt)
  else Raise (ValueError (lit "Unsupported provider: " ++ provider self)).
End Providers.

End LlmWrapper.

(** ** class ModelWrapper and the query settings of [src/app.py] *)

Module App.
Import Py PyMore.

Record ModelWrapper := { provider : str }.

(** The options of the select box [Choose query model:]. *)
Definition model_options : list str :=
  [lit "Google Gemini 2.5 Pro"; lit "OpenAI GPT-4.1";
   lit "Anthropic Claude Sonnet 4.5"].

Section Providers.
Variable lower_ext : str -> str.
Variable gemini : str -> result str.
Variable openai : str -> result str.
Variable anthropic : str -> result str.

Definition init (provider : str) : ModelWrapper :=
  {| provider := lower lower_ext provider |}.

Definition stripped (r : result str) : result str :=
  match r with
  | Ok s => Ok (strip s)
  | Raise e => Raise e
  end.

Definition generate (self : ModelWrapper) (prompt : str) : result str :=
  if contains (provider self) (lit "gemini") then gemini prompt
  else if contains (provider self) (lit "openai") then stripped (openai prompt)
  else if contains (provider self) (lit "claude") then stripped (anthropic prompt)
  else Raise (ValueError (lit "Unsupported provider: " ++ provider self)).
End Providers.

End App.

(** ** [render_chat_interface] of [src/Modules/appUi.py]

    One run of the script.  What the function puts on the page is kept as
    the list of its calls on [st], in order; a [with] block is the call that
    opens it followed by the calls of its body.  The input widget itself is
    not in the list: its value is an argument. *)

Module AppUi.
Import Py PyMore Neo4j Neo4jConnection.

(** An entry of [st.session_state.messages]. *)
Record message := {
  role : str;
  content : str
}.

(** The three keys of the session state that the function reads; [None]
    stands for a key that is not there. *)
Record session_state := {
  messages : list message;
  user_input : option str;
  graph_built : option bool
}.

(** The calls on [st]. *)
Inductive shown :=
| Ui (u : ui)
| StChatMessage (name : str)
| StMarkdown (text : str)
| StSpinner (text : str)
| StToast (text : str)
| StSubheader (text : str).

(** The prompts the wrapper is given here: those of the connection, and the
    prompt of the final answer, an f-string with the retrieved data and the
    question. *)
Inductive chat_prompt :=
| Structured (p : prompt)
| SystemPrompt (context_str question : str).

Definition chat_model := chat_prompt -> result str.

Definition graph_is_empty : str :=
  lit "Graph is empty. Please upload and process PDFs first.".
Definition no_valid_query : str := lit "Could not generate a valid query.".
Definition no_matching_data : str := lit "No matching data found.".

(** The texts of the three toasts; each starts with a pictograph: U+1F504,
    U+1F50D, and U+270D with U+FE0F. *)
Definition generating_query : str := 128260%N :: lit " Generating Cypher query...".
Definition querying_graph : str := 128269%N :: lit " Querying the graph...".
Definition generating_answer : str :=
  9997%N :: 65039%N :: lit " Generating final answer...".

(** Lines 96-98: the messages of the history, each in its chat message. *)
Definition display_messages (ms : list message) : list shown :=
  flat_map (fun msg => [StChatMessage (role msg); StMarkdown (content msg)]) ms.

Section Chat.
Variable upper_ext : char -> str.
Variable toLower : str -> str.
(** [db_connection.execute_read(cypher_query)] on a query that the model
    wrote: the rows the store answers with, or its exception. *)
Variable execute_read : str -> db -> result (list row) * db.
(** [str(item)] for a row. *)
Variable str_of_row : row -> str.

(** Lines 101-106: what was typed, else the question that was clicked, which
    is then taken out of the session state. *)
Definition pick_input (chat_input : option str) (st : session_state)
  : option str * session_state :=
  let clicked :=
    match user_input st with
    | Some q =>
        if truthy q
        then (Some q,
              {| messages := messages st; user_input := None;
                 graph_built := graph_built st |})
        else (None, st)
    | None => (None, st)
    end in
  match chat_input with
  | Some prompt => if truthy prompt then (Some prompt, st) else clicked
  | None => clicked
  end.

(** Lines 126-167, the body of the [try]: the text of the response and what
    was shown, or the exception with what had been shown before it. *)
Definition answer_try (question : str) (m : chat_model) (d : db)
  : result str * list shown * db :=
  let '(cypher_query, shown1, d1) :=
    generate_cypher upper_ext question (fun p => m (Structured p)) d in
  let step1 := StToast generating_query :: map Ui shown1 in
  let invalid :=
    (Ok no_valid_query, step1 ++ [Ui (StError no_valid_query)], d1) in
  match cypher_query with
  | None => invalid
  | Some q =>
      if truthy q
      then
        let step2 := step1 ++ [StToast querying_graph] in
        match execute_read q d1 with
        | (Raise e, d2) => (Raise e, step2, d2)
        | (Ok [], d2) =>
            (Ok no_matching_data,
             step2 ++ [Ui (StWarning no_matching_data)], d2)
        | (Ok context_data, d2) =>
            let step3 := step2 ++ [StToast generating_answer] in
            let context_str := join [nl] (map str_of_row context_data) in
            match m (SystemPrompt context_str question) with
            | Raise e => (Raise e, step3, d2)
            | Ok response_text =>
                let sofar :=
                  step3 ++ [StMarkdown response_text;
                            StSubheader (lit "Relevant Graph Snippet")] in
                match DBUtils.visualize_subgraph toLower question
                        (fun p => m (Structured p)) d2 with
                | (Raise e, d3) => (Raise e, sofar, d3)
                | (Ok drawn, d3) => (Ok response_text, sofar ++ map Ui drawn, d3)
                end
            end
        end
      else invalid
  end.

(** Lines 125-171: the [try] with its [except]. *)
Definition answer (question : str) (m : chat_model) (d : db)
  : str * list shown * db :=
  match answer_try question m d with
  | (Ok response_text, sh, d') => (response_text, sh, d')
  | (Raise e, sh, d') =>
      let response_text := lit "Error: " ++ exn_str e in
      (response_text, sh ++ [Ui (StError response_text)], d')
  end.

Definition append_message (r c : str) (st : session_state) : session_state :=
  {| messages := messages st ++ [{| role := r; content := c |}];
     user_input := user_input st;
     graph_built := graph_built st |}.

(** Lines 109-175: the body of [if user_input]. *)
Definition respond (model_choice question : str) (m : chat_model)
    (st : session_state) (d : db) : session_state * list shown * db :=
  let st2 := append_message (lit "user") question st in
  let asked :=
    [StChatMessage (lit "user"); StMarkdown question;
     StChatMessage (lit "assistant")] in
  match graph_built st2 with
  | Some true =>
      let '(response_text, sh, d') := answer question m d in
      (append_message (lit "assistant") response_text st2,
       asked
       ++ StSpinner (lit "Querying graph with " ++ model_choice ++ lit "...")
          :: sh,
       d')
  | _ =>
      (append_message (lit "assistant") graph_is_empty st2,
       asked ++ [Ui (StWarning graph_is_empty)], d)
  end.

Definition render_chat_interface (model_choice : str)
    (chat_input : option str) (m : chat_model) (st : session_state) (d : db)
  : session_state * list shown * db :=
  let history := display_messages (messages st) in
  match pick_input chat_input st with
  | (None, st1) => (st1, history, d)
  | (Some question, st1) =>
      let '(st', sh, d') := respond model_choice question m st1 d in
      (st', history ++ sh, d')
  end.
End Chat.

End AppUi.

(** ** Further notions the statements use *)

Module Facts.
Import Py PyMore Neo4j Neo4jConnection Props.

(** The pairs of the triples whose label sanitizes to [t], in the order of
    the input. *)
Definition pairs_of_type (upper_ext : char -> str) (t : str)
    (triples : list triple) : list (str * str) :=
  map (fun x : triple => (fst (fst x), snd x))
    (filter (fun x : triple =>
               str_eqb (sanitized_rel upper_ext (snd (fst x))) t)
       triples).

(** What the dictionary of the first loop of [add_triples] holds under the
    key [t] once it has seen the triples [seen]. *)
Definition group_of (upper_ext : char -> str) (t : str) (seen : list triple)
  : option (list (str * str)) :=
  match pairs_of_type upper_ext t seen with
  | [] => None
  | pairs => if truthy t then Some pairs else None
  end.

(** [t] is the non-empty sanitized type of one of the triples. *)
Definition written_type (upper_ext : char -> str) (triples : list triple)
    (t : str) : Prop :=
  t <> []
  /\ exists e1 rel e2,
       In (e1, rel, e2) triples /\ sanitized_rel upper_ext rel = t.

(** A triple that [add_triples] keeps: its sanitized type is not empty. *)
Definition kept (upper_ext : char -> str) (x : triple) : bool :=
  truthy (sanitized_rel upper_ext (snd (fst x))).

(** [g'] is [g] with nodes and relationships added at the end; the new nodes
    are entities with a string for a name, the new relationships have a type
    in [P]. *)
Definition grows (P : str -> Prop) (g g' : graph) : Prop :=
  exists ns rs,
    nodes g' = nodes g ++ ns
    /\ relationships g' = relationships g ++ rs
    /\ Forall (fun n => labels n = [Entity] /\ exists x, node_name n = VStr x) ns
    /\ Forall (fun r => P (rel_type r)) rs.

(** The fact of a pair is in the graph: one entity of each name, and the
    relationship of type [t] between them. *)
Definition holds (t : str) (g : graph) (pair : str * str) : Prop :=
  exists i1 i2,
    map node_id (entities_named (fst pair) g) = [i1]
    /\ map node_id (entities_named (snd pair) g) = [i2]
    /\ In {| rel_start := i1; rel_type := t; rel_end := i2 |} (relationships g).

(** The statements a database has run beyond those of an earlier one. *)
Definition new_writes (before after : db) : list statement :=
  skipn (List.length (writes before)) (writes after).

(** A field that the parser gives back as it stands: not empty, free of the
    pipe and of the line break, with no white space and no quote at either
    end. *)
Definition edge_char (c : char) : bool := isspace c || is_quote c.

Definition clean_field (s : str) : Prop :=
  s <> []
  /\ ~ In 124%N s
  /\ ~ In nl s
  /\ (forall c r, s = c :: r -> edge_char c = false)
  /\ (forall init c, s = init ++ [c] -> edge_char c = false).

Definition clean_triple (t : triple) : Prop :=
  clean_field (fst (fst t)) /\ clean_field (snd (fst t)) /\ clean_field (snd t).

(** The line [subject|relation|object] of a triple. *)
Definition line_of (t : triple) : str :=
  fst (fst t) ++ lit "|" ++ snd (fst t) ++ lit "|" ++ snd t.

(** What the loop of [visualize_subgraph] keeps true beyond [vis_ok]: every
    edge joins two nodes of the model and has its label among the edge
    labels, which hold nothing else and nothing twice; [Entity] is the one
    node label, there as soon as a node is; node identifiers are non-empty
    strings. *)
Definition vis_sound (st : vis) : Prop :=
  (forall e, In e (vedges st) ->
             In (ed_source e) (node_ids st) /\ In (ed_target e) (node_ids st)
             /\ In (ed_label e) (edge_labels st))
  /\ NoDup (edge_labels st)
  /\ (forall l, In l (edge_labels st) -> exists e, In e (vedges st) /\ ed_label e = l)
  /\ vnode_labels st = match vnodes st with [] => [] | _ :: _ => [Entity] end
  /\ Forall (fun v => value_truthy v = true) (node_ids st).

(** The elements of the renderings among what a method showed. *)
Definition renderings (shown : list ui) : list elements :=
  flat_map (fun u => match u with
                     | StLinkAnalysis e _ _ => [e]
                     | _ => []
                     end) shown.

(** A row as the read statement of [search_graph] returns it: the three
    columns, with the name of an entity of the graph that contains one of
    the candidate names once both went through [toLower], the type of a
    relationship at that entity, and the name of the node at its other
    end. *)
Definition anchored (toLower : str -> str) (g : graph) (es : list str)
    (r : row) : Prop :=
  exists n t m x rel y,
    r = [(lit "node", VStr n); (lit "relationship", VStr t); (lit "target", m)]
    /\ (exists e, In e es /\ contains (toLower n) (toLower e) = true)
    /\ In x (nodes g) /\ has_label Entity x = true /\ node_name x = VStr n
    /\ In rel (relationships g) /\ rel_type rel = t
    /\ In y (nodes g) /\ node_name y = m
    /\ ((rel_start rel = node_id x /\ rel_end rel = node_id y)
        \/ (rel_end rel = node_id x /\ rel_start rel = node_id y)).

(** A name without a quote at either end, and not empty. *)
Definition bare_name (e : str) : Prop :=
  e <> []
  /\ (forall c r, e = c :: r -> is_quote c = false)
  /\ (forall init c, e = init ++ [c] -> is_quote c = false).

(** A statement that ingestion may issue: the upsert of a type made of
    [A-Z], [0-9] and the underscore, for pairs of bare names. *)
Definition clean_upsert (s : statement) : Prop :=
  match s with
  | MergePairs t pairs =>
      t <> []
      /\ Forall (fun c => is_type_char c = true) t
      /\ Forall (fun p => bare_name (fst p) /\ bare_name (snd p)) pairs
  | _ => False
  end.

(** A name that comes back from a comma-separated list as it went in: not
    empty, without a comma, without white space at either end. *)
Definition clean_name (e : str) : Prop :=
  e <> [] /\ ~ In 44%N e /\ strip e = e.

(** A token that [search_graph] of [src/graph_db.py] adds on its own
    account: a proper noun outside every entity. *)
Definition lone_proper_noun (dc : GraphDb.doc) (tok : GraphDb.token) : bool :=
  str_eqb (GraphDb.token_pos_ tok) (lit "PROPN")
  && negb (existsb
             (fun ent =>
                Nat.leb (GraphDb.span_start ent) (GraphDb.token_i tok)
                && Nat.ltb (GraphDb.token_i tok) (GraphDb.span_end ent))
             (GraphDb.ents dc)).

End Facts.

(** ** Notions for the statements on the chat *)

Module ChatFacts.
Import Py Neo4j Neo4jConnection Props AppUi.

(** [d'] has the graph of [d] and no write transaction more. *)
Definition read_only (d d' : db) : Prop :=
  graph_of d' = graph_of d /\ writes d' = writes d.

(** The queries that [generate_cypher] lets through to the store. *)
Definition let_through (q : str) : Prop :=
  truthy q = true
  /\ strip q = q
  /\ contains q fence = false
  /\ forall op, In op write_ops -> ~ occurs_ignoring_case op q.

(** The text was shown: as an error, as a warning or as markdown. *)
Definition displayed (text : str) (sh : list shown) : Prop :=
  In (Ui (StError text)) sh \/ In (Ui (StWarning text)) sh
  \/ In (StMarkdown text) sh.

(** A store that takes offence at the word [DELETE]. *)
Definition touchy (q : str) (d : db) : result (list row) * db :=
  if contains q (lit "DELETE")
  then (Raise (OtherError (lit "refused")), d)
  else (Ok [], d).

End ChatFacts.

Import Py Neo4j Neo4jConnection Props.
Import PyMore Facts.

(** ** Strings *)

Lemma str_eqb_eq (a b : str) : str_eqb a b = true <-> a = b.
Proof.
  revert b; induction a as [|x a IH]; intros [|y b]; simpl;
    try (split; [discriminate | congruence]); try tauto.
  rewrite andb_true_iff, N.eqb_eq, IH. split.
  - intros [-> ->]; reflexivity.
  - intros E; injection E; auto.
Qed.

Lemma str_eqb_refl (a : str) : str_eqb a a = true.
Proof. apply str_eqb_eq; reflexivity. Qed.

Lemma str_eqb_neq (a b : str) : str_eqb a b = false <-> a <> b.
Proof.
  rewrite <- not_true_iff_false, str_eqb_eq; tauto.
Qed.

Lemma value_eqb_eq (a b : value) : value_eqb a b = true <-> a = b.
Proof.
  destruct a, b; simpl; try (split; [discriminate | congruence]); try tauto.
  rewrite str_eqb_eq; split; congruence.
Qed.

Lemma startswith_nil (s : str) : startswith s [] = true.
Proof. destruct s; reflexivity. Qed.

Lemma startswith_app (p s : str) : startswith (p ++ s) p = true.
Proof.
  induction p as [|c p IH]; simpl.
  - apply startswith_nil.
  - rewrite N.eqb_refl; exact IH.
Qed.

Lemma contains_here (s sub : str) : startswith s sub = true -> contains s sub = true.
Proof. destruct s; simpl; intros ->; reflexivity. Qed.

Lemma contains_app (a sub b : str) : contains (a ++ sub ++ b) sub = true.
Proof.
  induction a as [|c a IH]; simpl.
  - apply contains_here, startswith_app.
  - rewrite IH; apply orb_true_r.
Qed.

Lemma upper_app (ue : char -> str) (a b : str) :
  upper ue (a ++ b) = upper ue a ++ upper ue b.
Proof. unfold upper; apply flat_map_app. Qed.

Lemma replace_one_char (s : str) (a b : char) :
  replace s [a] [b] = map (fun c => if N.eqb c a then b else c) s.
Proof.
  unfold replace; induction s as [|c s IH]; simpl; [reflexivity|].
  rewrite startswith_nil, andb_true_r.
  destruct (N.eqb c a); simpl; rewrite IH; reflexivity.
Qed.

Lemma word_class_below_128 (c : char) : in_word_class c = true -> (c <? 128)%N = true.
Proof.
  unfold in_word_class, is_ascii_lower, is_ascii_upper, is_ascii_digit.
  rewrite !orb_true_iff, !andb_true_iff, !N.leb_le, N.eqb_eq, N.ltb_lt. lia.
Qed.

Lemma word_class_upper (c : char) :
  in_word_class c = true -> is_type_char (ascii_upper c) = true.
Proof.
  unfold in_word_class, is_type_char, ascii_upper, is_ascii_lower,
    is_ascii_upper, is_ascii_digit.
  destruct ((97 <=? c) && (c <=? 122))%N eqn:L.
  - intros _. apply andb_true_iff in L; rewrite !N.leb_le in L.
    apply orb_true_iff; left; apply orb_true_iff; left.
    apply andb_true_iff; rewrite !N.leb_le; lia.
  - simpl. tauto.
Qed.

(** ** The relation sanitizer and the grouping of triples *)

Lemma upper_of_words (ue : char -> str) (s : str) :
  upper ue (filter in_word_class s)
  = flat_map (fun c => if in_word_class c then [ascii_upper c] else []) s.
Proof.
  induction s as [|c s IH]; simpl; [reflexivity|].
  destruct (in_word_class c) eqn:W; simpl; [|exact IH].
  unfold upper_char. rewrite (word_class_below_128 _ W); simpl.
  f_equal; exact IH.
Qed.

Lemma sanitized_rel_by_char (ue : char -> str) (rel : str) :
  sanitized_rel ue rel = sanitize_space rel.
Proof.
  unfold sanitized_rel, sanitize_space.
  change (lit " ") with [32%N]; change (lit "_") with [95%N].
  rewrite replace_one_char. unfold re_sub_non_word. rewrite upper_of_words.
  induction rel as [|c rel IH]; simpl; [reflexivity|].
  rewrite IH. f_equal. unfold sanitize_space_char.
  destruct (N.eqb c 32) eqn:E; [reflexivity|].
  destruct (in_word_class c); reflexivity.
Qed.

Lemma sanitize_space_alphabet (rel : str) :
  Forall (fun c => is_type_char c = true) (sanitize_space rel).
Proof.
  unfold sanitize_space. induction rel as [|c rel IH]; simpl; [constructor|].
  apply Forall_app; split; [|exact IH].
  unfold sanitize_space_char. destruct (N.eqb c 32); [repeat constructor|].
  destruct (in_word_class c) eqn:W; [|constructor].
  repeat constructor. apply word_class_upper, W.
Qed.

Lemma fold_left_skip {A B} (f : A -> B -> A) (l1 l2 : list B) (b : B) (a : A) :
  (forall x, f x b = x) ->
  fold_left f (l1 ++ b :: l2) a = fold_left f (l1 ++ l2) a.
Proof.
  intros H. rewrite !fold_left_app. simpl. rewrite H. reflexivity.
Qed.

Lemma grouped_triples_drops (ue : char -> str) (before after : list triple)
    (e1 rel e2 : str) :
  sanitized_rel ue rel = [] ->
  grouped_triples ue (before ++ (e1, rel, e2) :: after)
  = grouped_triples ue (before ++ after).
Proof.
  intros E. unfold grouped_triples. apply fold_left_skip.
  intros x. rewrite E. reflexivity.
Qed.

(** C3 (as amended): the sanitized relation type is the label with each space
    character U+0020 replaced by an underscore, every other character outside
    [A-Za-z0-9_] dropped (tabs and line breaks included), and the rest
    upper-cased; it is made of the characters [A-Z0-9_] only; and a triple
    whose label sanitizes to the empty string takes no part in what
    [add_triples] does. *)
Theorem sanitized_rel_spaces_to_underscores (upper_ext : char -> str) (rel : str) :
  sanitized_rel upper_ext rel = sanitize_space rel
  /\ Forall (fun c => is_type_char c = true) (sanitized_rel upper_ext rel)
  /\ (sanitized_rel upper_ext rel = [] ->
      forall (e1 e2 : str) (before after : list triple) (d : db),
        add_triples upper_ext (before ++ (e1, rel, e2) :: after) d
        = add_triples upper_ext (before ++ after) d).
Proof.
  split; [apply sanitized_rel_by_char|]. split.
  - rewrite sanitized_rel_by_char. apply sanitize_space_alphabet.
  - intros E e1 e2 before after d. unfold add_triples.
    rewrite (grouped_triples_drops upper_ext before after e1 rel e2 E). reflexivity.
Qed.

(** The label of three dots is dropped: adding it between two other triples
    changes nothing. *)
Lemma sanitized_rel_spaces_to_underscores_witness :
  sanitized_rel no_ext (lit "...") = []
  /\ add_triples no_ext
       ([(lit "A", lit "is a", lit "B")] ++ (lit "C", lit "...", lit "D") :: [])
       empty_db
     = add_triples no_ext ([(lit "A", lit "is a", lit "B")] ++ []) empty_db.
Proof.
  split; [reflexivity|].
  apply (proj2 (proj2 (sanitized_rel_spaces_to_underscores no_ext (lit "..."))));
    reflexivity.
Defined.

(** C3 (as stated) fails on a tab: the code drops it, where replacing white
    space by underscores would keep an underscore. *)
Lemma sanitized_rel_drops_tab :
  (forall upper_ext : char -> str,
      sanitized_rel upper_ext (lit "is" ++ [tab] ++ lit "a") = lit "ISA")
  /\ sanitize_whitespace (lit "is" ++ [tab] ++ lit "a") = lit "IS_A"
  /\ lit "ISA" <> lit "IS_A".
Proof.
  split; [intros; reflexivity|]. split; [reflexivity|]. discriminate.
Qed.

(** ** One write per relation type *)

Lemma existsb_str_eqb (k : str) (l : list str) :
  existsb (str_eqb k) l = true <-> In k l.
Proof.
  rewrite existsb_exists. split.
  - intros (x & I & E). apply str_eqb_eq in E. subst; exact I.
  - intros I. exists k. split; [exact I | apply str_eqb_refl].
Qed.

Lemma append_at_keys {V} (d : dict (list V)) (k : str) (v : V) :
  map fst (append_at d k v) = set_add str_eqb k (map fst d).
Proof.
  unfold set_add. induction d as [|[k' vs] d IH]; simpl; [reflexivity|].
  destruct (str_eqb k' k) eqn:E.
  - apply str_eqb_eq in E; subst k'. rewrite str_eqb_refl. reflexivity.
  - assert (str_eqb k k' = false) as ->.
    { apply str_eqb_neq. apply str_eqb_neq in E. congruence. }
    simpl. rewrite IH. destruct (existsb (str_eqb k) (map fst d)); reflexivity.
Qed.

Section SetAdd.
Context {A : Type} (eqb : A -> A -> bool).
Hypothesis eqb_eq : forall a b, eqb a b = true <-> a = b.

Lemma existsb_eqb (x : A) (s : list A) : existsb (eqb x) s = true <-> In x s.
Proof.
  rewrite existsb_exists. split.
  - intros (y & I & E). apply eqb_eq in E. subst; exact I.
  - intros I. exists x. split; [exact I | apply eqb_eq; reflexivity].
Qed.

Lemma set_add_NoDup (x : A) (s : list A) : NoDup s -> NoDup (set_add eqb x s).
Proof.
  intros N. unfold set_add. destruct (existsb (eqb x) s) eqn:E; [exact N|].
  apply NoDup_app; [exact N | repeat constructor; intros [] | ].
  intros y I [<-|[]].
  apply existsb_eqb in I. congruence.
Qed.

Lemma set_add_In (x y : A) (s : list A) :
  In y (set_add eqb x s) <-> In y s \/ y = x.
Proof.
  unfold set_add. destruct (existsb (eqb x) s) eqn:E.
  - apply existsb_eqb in E. split; [tauto|]. intros [I| ->]; assumption.
  - rewrite in_app_iff. simpl. intuition congruence.
Qed.
End SetAdd.

Lemma set_add_str_NoDup (k : str) (l : list str) :
  NoDup l -> NoDup (set_add str_eqb k l).
Proof. apply set_add_NoDup, str_eqb_eq. Qed.

Lemma set_add_str_In (k x : str) (l : list str) :
  In x (set_add str_eqb k l) <-> In x l \/ x = k.
Proof. apply set_add_In, str_eqb_eq. Qed.

Section Grouping.
Variable upper_ext : char -> str.

Lemma grouping_keys_NoDup (triples : list triple) (acc : dict (list (str * str))) :
  NoDup (map fst acc) -> NoDup (map fst (fold_left (group_step upper_ext) triples acc)).
Proof.
  revert acc; induction triples as [|[[e1 rel] e2] triples IH]; intros acc N;
    simpl; [exact N|].
  apply IH. destruct (truthy (sanitized_rel upper_ext rel)); [|exact N].
  rewrite append_at_keys. apply set_add_str_NoDup, N.
Qed.

Lemma grouping_keys_In (triples : list triple) (acc : dict (list (str * str)))
    (t : str) :
  In t (map fst (fold_left (group_step upper_ext) triples acc))
  <-> In t (map fst acc)
      \/ (t <> [] /\ exists e1 rel e2,
             In (e1, rel, e2) triples /\ sanitized_rel upper_ext rel = t).
Proof.
  revert acc; induction triples as [|[[e1 rel] e2] triples IH]; intros acc; simpl.
  - split; [tauto|]. intros [I|(_ & _ & _ & _ & [] & _)]; exact I.
  - rewrite IH. destruct (sanitized_rel upper_ext rel) as [|c s] eqn:E; simpl.
    + split.
      * intros [I|(Nt & a & r & b & I & Er)]; [tauto|].
        right. split; [exact Nt|]. exists a, r, b. tauto.
      * intros [I|(Nt & a & r & b & [Eq|I] & Er)]; [tauto| |].
        -- injection Eq as -> -> ->. congruence.
        -- right. split; [exact Nt|]. exists a, r, b. tauto.
    + rewrite append_at_keys, set_add_str_In. split.
      * intros [[I| ->]|(Nt & a & r & b & I & Er)]; [tauto| |].
        -- right. split; [discriminate|]. exists e1, rel, e2. tauto.
        -- right. split; [exact Nt|]. exists a, r, b. tauto.
      * intros [I|(Nt & a & r & b & [Eq|I] & Er)]; [tauto| |].
        -- injection Eq as -> -> ->. left; right. congruence.
        -- right. split; [exact Nt|]. exists a, r, b. tauto.
Qed.

Lemma grouped_triples_fold (triples : list triple) :
  grouped_triples upper_ext triples = fold_left (group_step upper_ext) triples [].
Proof. reflexivity. Qed.

Lemma add_triples_journal (triples : list triple) (d : db) :
  journal (add_triples upper_ext triples d)
  = journal d
    ++ map (fun it => (Write, MergePairs (fst it) (snd it)))
         (grouped_triples upper_ext triples).
Proof.
  unfold add_triples. generalize (grouped_triples upper_ext triples) as groups.
  intros groups; revert d; induction groups as [|it groups IH]; intros d; simpl.
  - rewrite app_nil_r; reflexivity.
  - rewrite IH. simpl. rewrite <- app_assoc. reflexivity.
Qed.

Lemma writes_app (j : list (access * statement)) (g : graph)
    (l : list (str * list (str * str))) :
  writes {| graph_of := g;
            journal := j ++ map (fun it => (Write, MergePairs (fst it) (snd it))) l |}
  = writes {| graph_of := g; journal := j |}
    ++ map (fun it => MergePairs (fst it) (snd it)) l.
Proof.
  unfold writes; simpl. rewrite filter_app, map_app. f_equal.
  induction l as [|it l IH]; simpl; [reflexivity|]. f_equal; exact IH.
Qed.

Lemma reads_app (j : list (access * statement)) (g : graph)
    (l : list (str * list (str * str))) :
  reads {| graph_of := g;
           journal := j ++ map (fun it => (Write, MergePairs (fst it) (snd it))) l |}
  = reads {| graph_of := g; journal := j |}.
Proof.
  unfold reads; simpl. rewrite filter_app, map_app.
  replace (filter _ (map _ l)) with (@nil (access * statement)).
  - apply app_nil_r.
  - induction l as [|it l IH]; simpl; [reflexivity | exact IH].
Qed.

Lemma writes_journal (d1 d2 : db) : journal d1 = journal d2 -> writes d1 = writes d2.
Proof. unfold writes; intros ->; reflexivity. Qed.

Lemma reads_journal (d1 d2 : db) : journal d1 = journal d2 -> reads d1 = reads d2.
Proof. unfold reads; intros ->; reflexivity. Qed.

(** C4 (as amended): [add_triples] issues one write per item of the grouping,
    and nothing else; the relation types of the grouping are pairwise
    distinct and are exactly the non-empty sanitized relation types of the
    input.  For the three triples of the example this is one write, of type
    [FOUNDED], with the three pairs. *)
Theorem add_triples_one_write_per_relation_type (triples : list triple) (d : db) :
  let groups := grouped_triples upper_ext triples in
  writes (add_triples upper_ext triples d)
  = writes d ++ map (fun it => MergePairs (fst it) (snd it)) groups
  /\ reads (add_triples upper_ext triples d) = reads d
  /\ NoDup (map fst groups)
  /\ (forall t,
        In t (map fst groups)
        <-> t <> [] /\ exists e1 rel e2,
              In (e1, rel, e2) triples /\ sanitized_rel upper_ext rel = t)
  /\ writes (add_triples upper_ext founded_triples d)
     = writes d
       ++ [MergePairs (lit "FOUNDED")
             [(lit "A", lit "B"); (lit "A", lit "B"); (lit "C", lit "D")]].
Proof.
  cbv zeta. repeat split.
  - rewrite (writes_journal _ {| graph_of := graph_of d; journal := _ |}
               (add_triples_journal triples d)).
    rewrite writes_app. destruct d; reflexivity.
  - rewrite (reads_journal _ {| graph_of := graph_of d; journal := _ |}
               (add_triples_journal triples d)).
    rewrite reads_app. destruct d; reflexivity.
  - rewrite grouped_triples_fold. apply grouping_keys_NoDup. constructor.
  - rewrite grouped_triples_fold, grouping_keys_In in H. simpl in H.
    destruct H as [[]|[H _]]. exact H.
  - rewrite grouped_triples_fold, grouping_keys_In in H. simpl in H.
    destruct H as [[]|[_ H]]. exact H.
  - intros H. rewrite grouped_triples_fold, grouping_keys_In. right; exact H.
  - rewrite (writes_journal _ {| graph_of := graph_of d; journal := _ |}
               (add_triples_journal founded_triples d)).
    rewrite writes_app. destruct d; reflexivity.
Qed.

End Grouping.

(** C4 (as stated) fails on its own example: the two spellings of the label
    sanitize to one type, and the three triples go out in one write. *)
Lemma founded_triples_issue_one_write :
  (forall upper_ext : char -> str,
      writes (add_triples upper_ext founded_triples empty_db)
      = [MergePairs (lit "FOUNDED")
           [(lit "A", lit "B"); (lit "A", lit "B"); (lit "C", lit "D")]])
  /\ List.length
       [MergePairs (lit "FOUNDED")
          [(lit "A", lit "B"); (lit "A", lit "B"); (lit "C", lit "D")]] <> 2.
Proof.
  split; [intros; reflexivity | discriminate].
Qed.

(** ** The check for write operations *)

Lemma upper_char_same_letter (ue : char -> str) (c o : char) :
  is_ascii_upper o = true -> same_letter c o -> upper_char ue c = [o].
Proof.
  unfold is_ascii_upper, same_letter, upper_char, ascii_upper, is_ascii_lower.
  rewrite andb_true_iff, !N.leb_le. intros [L U] [-> | ->].
  - assert ((o <? 128)%N = true) as -> by (apply N.ltb_lt; lia).
    assert ((97 <=? o)%N = false) as -> by (apply N.leb_gt; lia).
    reflexivity.
  - assert ((o + 32 <? 128)%N = true) as -> by (apply N.ltb_lt; lia).
    assert ((97 <=? o + 32)%N = true) as -> by (apply N.leb_le; lia).
    assert ((o + 32 <=? 122)%N = true) as -> by (apply N.leb_le; lia).
    simpl. f_equal. lia.
Qed.

Lemma upper_same_letter (ue : char -> str) (w op : str) :
  Forall (fun o => is_ascii_upper o = true) op ->
  Forall2 same_letter w op -> upper ue w = op.
Proof.
  intros U M; induction M as [|c o w op S M IH]; simpl; [reflexivity|].
  inversion U as [|? ? Uo Uop]; subst.
  rewrite (upper_char_same_letter ue c o Uo S). simpl. f_equal. apply IH, Uop.
Qed.

Lemma write_ops_upper_case :
  Forall (Forall (fun o => is_ascii_upper o = true)) write_ops.
Proof. repeat constructor. Qed.

Lemma occurs_upper (ue : char -> str) (op s : str) :
  In op write_ops -> occurs_ignoring_case op s ->
  contains (upper ue s) op = true.
Proof.
  intros I (before & w & after & -> & M).
  rewrite !upper_app.
  rewrite (upper_same_letter ue w op); [apply contains_app | | exact M].
  exact (proj1 (Forall_forall _ _) write_ops_upper_case op I).
Qed.






(** C5 fails on a query that ends in one of the letters of [cypher]: the
    second [strip] takes a set of characters, and removes the final [e] of
    the enclosed query with the line break. *)
Theorem generate_cypher_clips_fenced_query
    (upper_ext : char -> str) (question : str) (d : db) :
  extract_query fenced_answer = Ok (lit "MATCH (n) RETURN n.nam")
  /\ generate_cypher upper_ext question (fun _ => Ok fenced_answer) d
     = (Some (lit "MATCH (n) RETURN n.nam"), [], snd (get_schema d)).
Proof.
  split; [reflexivity|].
  unfold generate_cypher. destruct (get_schema d) as [s d']. reflexivity.
Qed.

(** ** The loop of [visualize_subgraph] *)

Lemma visit_node_ids (st : vis) (n : value) :
  node_ids (visit_node st n) = set_add value_eqb n (node_ids st).
Proof.
  unfold visit_node, set_add.
  destruct (existsb (value_eqb n) (node_ids st)); reflexivity.
Qed.

Lemma visit_node_edges (st : vis) (n : value) :
  vedges (visit_node st n) = vedges st
  /\ edge_ids (visit_node st n) = edge_ids st.
Proof.
  unfold visit_node.
  destruct (existsb (value_eqb n) (node_ids st)); split; reflexivity.
Qed.

Lemma visit_node_ok (st : vis) (n : value) : vis_ok st -> vis_ok (visit_node st n).
Proof.
  intros (Hn & He & Nn & Ne).
  destruct (visit_node_edges st n) as [Ev Ei].
  unfold vis_ok. rewrite Ev, Ei, visit_node_ids.
  repeat split; try assumption.
  - unfold visit_node, set_add.
    destruct (existsb (value_eqb n) (node_ids st)); simpl; [exact Hn|].
    rewrite map_app, Hn. reflexivity.
  - apply set_add_NoDup; [apply value_eqb_eq | exact Nn].
Qed.

Lemma visit_node_labelled (st : vis) (n : value) :
  Forall (fun x => nd_label x = Entity /\ nd_name x = nd_id x) (vnodes st) ->
  Forall (fun x => nd_label x = Entity /\ nd_name x = nd_id x)
    (vnodes (visit_node st n)).
Proof.
  intros F. unfold visit_node.
  destruct (existsb (value_eqb n) (node_ids st)); simpl; [exact F|].
  apply Forall_app; split; [exact F | repeat constructor].
Qed.

Lemma with_ends_ok (st : vis) (r : row) : vis_ok st -> vis_ok (with_ends st r).
Proof. intros H. unfold with_ends; simpl. apply visit_node_ok, visit_node_ok, H. Qed.

Lemma with_ends_ids (st : vis) (r : row) (v : value) :
  In v (node_ids (with_ends st r))
  <-> In v (node_ids st) \/ v = row_src r \/ v = row_tgt r.
Proof.
  unfold with_ends; simpl.
  rewrite !visit_node_ids, !(set_add_In value_eqb value_eqb_eq). tauto.
Qed.

Lemma with_ends_edges (st : vis) (r : row) :
  vedges (with_ends st r) = vedges st /\ edge_ids (with_ends st r) = edge_ids st.
Proof.
  unfold with_ends; simpl.
  destruct (visit_node_edges (visit_node st (row_src r)) (row_tgt r)) as [-> ->].
  apply visit_node_edges.
Qed.

Lemma visit_row_unfold (st : vis) (r : row) :
  visit_row st r
  = if skipped r then st
    else
      let st1 := with_ends st r in
      if existsb (str_eqb (ed_id (edge_of_row r))) (edge_ids st1) then st1
      else {| vnodes := vnodes st1;
              vedges := vedges st1 ++ [edge_of_row r];
              node_ids := node_ids st1;
              edge_ids := set_add str_eqb (ed_id (edge_of_row r)) (edge_ids st1);
              vnode_labels := vnode_labels st1;
              edge_labels := set_add value_eqb (row_rel r) (edge_labels st1) |}.
Proof. reflexivity. Qed.

Lemma visit_row_skips (st : vis) (r : row) : skipped r = true -> visit_row st r = st.
Proof. intros S. rewrite visit_row_unfold, S. reflexivity. Qed.

Lemma visit_row_ok (st : vis) (r : row) : vis_ok st -> vis_ok (visit_row st r).
Proof.
  intros H. rewrite visit_row_unfold. destruct (skipped r); [exact H|].
  pose proof (with_ends_ok st r H) as (Hn & He & Nn & Ne). cbv zeta.
  destruct (existsb _ (edge_ids (with_ends st r))) eqn:E;
    [repeat split; assumption|].
  unfold vis_ok; cbn [vnodes vedges node_ids edge_ids].
  repeat split; try assumption.
  - unfold set_add. rewrite E, map_app, He. reflexivity.
  - apply set_add_str_NoDup, Ne.
Qed.

Lemma visit_row_node_ids (st : vis) (r : row) (v : value) :
  In v (node_ids (visit_row st r))
  <-> In v (node_ids st)
      \/ (skipped r = false /\ (v = row_src r \/ v = row_tgt r)).
Proof.
  rewrite visit_row_unfold. destruct (skipped r).
  - split; [tauto | intros [I|[D _]]; [exact I | discriminate]].
  - cbv zeta. destruct (existsb _ (edge_ids (with_ends st r))); simpl;
      rewrite with_ends_ids; tauto.
Qed.

Lemma visit_row_edge_ids (st : vis) (r : row) (k : str) :
  In k (edge_ids (visit_row st r))
  <-> In k (edge_ids st) \/ (skipped r = false /\ k = ed_id (edge_of_row r)).
Proof.
  rewrite visit_row_unfold. destruct (skipped r).
  - split; [tauto | intros [I|[D _]]; [exact I | discriminate]].
  - cbv zeta. destruct (with_ends_edges st r) as [_ Ei].
    destruct (existsb _ (edge_ids (with_ends st r))) eqn:E; simpl.
    + apply existsb_str_eqb in E. rewrite Ei in *.
      split; [tauto | intros [I|[_ ->]]; assumption].
    + rewrite set_add_str_In, Ei. tauto.
Qed.

Lemma visit_row_edges (st : vis) (r : row) (e : edge_data) :
  In e (vedges (visit_row st r))
  -> In e (vedges st) \/ (skipped r = false /\ e = edge_of_row r).
Proof.
  rewrite visit_row_unfold. destruct (skipped r); [tauto|].
  cbv zeta. destruct (with_ends_edges st r) as [Ev _].
  destruct (existsb _ (edge_ids (with_ends st r))); simpl; rewrite Ev.
  - tauto.
  - rewrite in_app_iff; simpl. intros [I|[<-|[]]]; auto.
Qed.

Lemma visit_row_labelled (st : vis) (r : row) :
  Forall (fun x => nd_label x = Entity /\ nd_name x = nd_id x) (vnodes st) ->
  Forall (fun x => nd_label x = Entity /\ nd_name x = nd_id x)
    (vnodes (visit_row st r)).
Proof.
  intros F. rewrite visit_row_unfold. destruct (skipped r); [exact F|].
  assert (Forall (fun x => nd_label x = Entity /\ nd_name x = nd_id x)
            (vnodes (with_ends st r))) as F1.
  { unfold with_ends; simpl. apply visit_node_labelled, visit_node_labelled, F. }
  cbv zeta. destruct (existsb _ (edge_ids (with_ends st r))); exact F1.
Qed.

Section Loop.
Variable rows : list row.

Lemma loop_ok (st : vis) : vis_ok st -> vis_ok (fold_left visit_row rows st).
Proof.
  revert st; induction rows as [|r l IH]; intros st H; simpl; [exact H|].
  apply IH, visit_row_ok, H.
Qed.

Lemma loop_node_ids (st : vis) (v : value) :
  In v (node_ids (fold_left visit_row rows st))
  <-> In v (node_ids st)
      \/ exists r, In r rows /\ skipped r = false
                   /\ (v = row_src r \/ v = row_tgt r).
Proof.
  revert st; induction rows as [|r l IH]; intros st; simpl.
  - split; [tauto | intros [I|(_ & [] & _)]; exact I].
  - rewrite IH, visit_row_node_ids. split.
    + intros [[I|K]|(x & I & K)]; [tauto | | ].
      * right; exists r; tauto.
      * right; exists x; tauto.
    + intros [I|(x & [<-|I] & K)]; [tauto | tauto | ].
      right; exists x; tauto.
Qed.

Lemma loop_edge_ids (st : vis) (k : str) :
  In k (edge_ids (fold_left visit_row rows st))
  <-> In k (edge_ids st)
      \/ exists r, In r rows /\ skipped r = false /\ k = ed_id (edge_of_row r).
Proof.
  revert st; induction rows as [|r l IH]; intros st; simpl.
  - split; [tauto | intros [I|(_ & [] & _)]; exact I].
  - rewrite IH, visit_row_edge_ids. split.
    + intros [[I|K]|(x & I & K)]; [tauto | | ].
      * right; exists r; tauto.
      * right; exists x; tauto.
    + intros [I|(x & [<-|I] & K)]; [tauto | tauto | ].
      right; exists x; tauto.
Qed.

Lemma loop_edges (st : vis) (e : edge_data) :
  In e (vedges (fold_left visit_row rows st))
  -> In e (vedges st)
     \/ exists r, In r rows /\ skipped r = false /\ e = edge_of_row r.
Proof.
  revert st; induction rows as [|r l IH]; intros st; simpl; [tauto|].
  intros I. destruct (IH _ I) as [I'|(x & Ix & K)].
  - destruct (visit_row_edges _ _ _ I') as [I''|K]; [tauto|].
    right; exists r; tauto.
  - right; exists x; tauto.
Qed.

Lemma loop_labelled (st : vis) :
  Forall (fun x => nd_label x = Entity /\ nd_name x = nd_id x) (vnodes st) ->
  Forall (fun x => nd_label x = Entity /\ nd_name x = nd_id x)
    (vnodes (fold_left visit_row rows st)).
Proof.
  revert st; induction rows as [|r l IH]; intros st F; simpl; [exact F|].
  apply IH, visit_row_labelled, F.
Qed.

Lemma loop_skips (st : vis) :
  fold_left visit_row (filter (fun r => negb (skipped r)) rows) st
  = fold_left visit_row rows st.
Proof.
  revert st; induction rows as [|r l IH]; intros st; simpl; [reflexivity|].
  destruct (skipped r) eqn:S; simpl.
  - rewrite (visit_row_skips st r S). apply IH.
  - apply IH.
Qed.

End Loop.

Lemma vis_init_ok : vis_ok vis_init.
Proof. repeat split; constructor. Qed.

Lemma skipped_names (r : row) :
  skipped r = false <-> has_name r (lit "node") /\ has_name r (lit "target").
Proof.
  assert (forall v : option value,
             value_truthy (match v with Some x => x | None => VNone end) = true
             <-> exists s, v = Some (VStr s) /\ s <> []) as T.
  { intros [[|[|c t]]|]; simpl; split;
      try discriminate;
      try (intros (x & E & N); congruence).
    intros _. exists (c :: t). split; [reflexivity | discriminate]. }
  unfold skipped, has_name, row_src, row_tgt, get.
  rewrite orb_false_iff, !negb_false_iff, !T. reflexivity.
Qed.

(** C6: in the model built from any rows, no node identifier occurs twice and
    the node identifiers are the source and target names of the rows that
    are not skipped; every node is an [Entity] named by its identifier; no
    edge key occurs twice, the keys are those of the rows that are not
    skipped, and every edge is the edge of such a row.  A row is skipped
    exactly when it lacks a source or a target name, that is when the column
    is absent, holds [None] or holds the empty string; such a row, wherever
    it stands among the rows, changes nothing in the model, and alone it
    gives no node and no edge.  The three rows of the example give the nodes
    [A], [B], [C] and two edges. *)
Theorem build_deduplicates_nodes_and_edges (raw_data : list row) :
  let st := build raw_data in
  NoDup (map nd_id (vnodes st))
  /\ (forall v,
        In v (map nd_id (vnodes st))
        <-> exists r, In r raw_data /\ skipped r = false
                      /\ (v = row_src r \/ v = row_tgt r))
  /\ Forall (fun x => nd_label x = Entity /\ nd_name x = nd_id x) (vnodes st)
  /\ NoDup (map ed_id (vedges st))
  /\ (forall k,
        In k (map ed_id (vedges st))
        <-> exists r, In r raw_data /\ skipped r = false
                      /\ k = edge_id_of (row_src r) (row_rel r) (row_tgt r))
  /\ (forall e,
        In e (vedges st)
        -> exists r, In r raw_data /\ skipped r = false /\ e = edge_of_row r)
  /\ build (filter (fun r => negb (skipped r)) raw_data) = st
  /\ map nd_id (vnodes (build founded_rows))
     = [VStr (lit "A"); VStr (lit "B"); VStr (lit "C")]
  /\ map ed_id (vedges (build founded_rows))
     = [lit "A-FOUNDED-B"; lit "B-LOCATED_IN-C"]
  /\ (forall r,
        skipped r = false
        <-> has_name r (lit "node") /\ has_name r (lit "target"))
  /\ (forall before r after,
        ~ (has_name r (lit "node") /\ has_name r (lit "target")) ->
        build (before ++ r :: after) = build (before ++ after))
  /\ Forall (fun r => build [r] = vis_init)
       [sourceless_row; none_source_row; empty_target_row].
Proof.
  cbv zeta. unfold build.
  destruct (loop_ok raw_data vis_init vis_init_ok) as (Hn & He & Nn & Ne).
  rewrite Hn, He.
  split; [exact Nn|]. split.
  { intros v. rewrite loop_node_ids. simpl. tauto. }
  split; [apply loop_labelled; constructor|].
  split; [exact Ne|]. split.
  { intros k. rewrite loop_edge_ids. simpl. tauto. }
  split.
  { intros e I. destruct (loop_edges raw_data vis_init e I) as [[]|H]. exact H. }
  split; [apply loop_skips|].
  split; [reflexivity|]. split; [reflexivity|].
  split; [exact skipped_names|]. split.
  { intros before r after N. rewrite !fold_left_app. cbn [fold_left].
    rewrite visit_row_skips; [reflexivity|].
    destruct (skipped r) eqn:S; [reflexivity|].
    exfalso. apply N, skipped_names, S. }
  repeat constructor.
Qed.

(** C10: a row that has a source and a target name and no [relationship]
    column is not skipped: its relationship is [RELATED_TO], both names
    become nodes, and unless its key is already there the row appends an
    edge with that label; alone, it gives exactly this edge.  A row is
    skipped only when its source or its target name is missing: any other
    row has its two names among the nodes and its key among the edges. *)
Theorem row_without_relationship_defaults (r : row) (st : vis) :
  dict_lookup r (lit "relationship") = None ->
  value_truthy (row_src r) = true ->
  value_truthy (row_tgt r) = true ->
  let key := edge_id_of (row_src r) (VStr RELATED_TO) (row_tgt r) in
  let edge :=
    {| ed_id := key; ed_source := row_src r; ed_target := row_tgt r;
       ed_label := VStr RELATED_TO; ed_source_name := row_src r;
       ed_destination_name := row_tgt r |} in
  row_rel r = VStr RELATED_TO
  /\ skipped r = false
  /\ In (row_src r) (node_ids (visit_row st r))
  /\ In (row_tgt r) (node_ids (visit_row st r))
  /\ In key (edge_ids (visit_row st r))
  /\ (existsb (str_eqb key) (edge_ids st) = false ->
      vedges (visit_row st r) = vedges st ++ [edge])
  /\ vedges (build [r]) = [edge]
  /\ (forall (r' : row) (st' : vis),
        (visit_row st' r' = st' /\ skipped r' = true
         /\ (value_truthy (row_src r') = false
             \/ value_truthy (row_tgt r') = false))
        \/ (skipped r' = false
            /\ In (row_src r') (node_ids (visit_row st' r'))
            /\ In (row_tgt r') (node_ids (visit_row st' r'))
            /\ In (edge_id_of (row_src r') (row_rel r') (row_tgt r'))
                 (edge_ids (visit_row st' r')))).
Proof.
  intros L Ts Tt. cbv zeta.
  assert (row_rel r = VStr RELATED_TO) as R.
  { unfold row_rel, get_default. rewrite L. reflexivity. }
  assert (skipped r = false) as S.
  { unfold skipped. rewrite Ts, Tt. reflexivity. }
  assert (edge_of_row r
          = {| ed_id := edge_id_of (row_src r) (VStr RELATED_TO) (row_tgt r);
               ed_source := row_src r; ed_target := row_tgt r;
               ed_label := VStr RELATED_TO; ed_source_name := row_src r;
               ed_destination_name := row_tgt r |}) as E.
  { unfold edge_of_row. rewrite R. reflexivity. }
  assert (forall s, existsb (str_eqb (ed_id (edge_of_row r))) (edge_ids s) = false ->
                    vedges (visit_row s r) = vedges s ++ [edge_of_row r]) as New.
  { intros s X. rewrite visit_row_unfold, S. cbv zeta.
    destruct (with_ends_edges s r) as [Ev Ei]. rewrite Ei, X. simpl.
    rewrite Ev. reflexivity. }
  split; [exact R|]. split; [exact S|].
  split; [apply visit_row_node_ids; tauto|].
  split; [apply visit_row_node_ids; tauto|].
  split.
  { apply visit_row_edge_ids. right. split; [exact S|]. rewrite E. reflexivity. }
  split.
  { intros X. rewrite <- E. apply New. rewrite E. exact X. }
  split.
  { rewrite <- E. unfold build; simpl fold_left. rewrite New; reflexivity. }
  intros r' st'. destruct (skipped r') eqn:S'.
  - left. split; [apply visit_row_skips, S'|]. split; [reflexivity|].
    unfold skipped in S'. apply orb_true_iff in S'.
    rewrite !negb_true_iff in S'. exact S'.
  - right. split; [reflexivity|].
    split; [apply visit_row_node_ids; tauto|].
    split; [apply visit_row_node_ids; tauto|].
    apply visit_row_edge_ids. right. split; [exact S' | reflexivity].
Qed.

(** A row with the columns [node] and [target] only. *)
Lemma row_without_relationship_defaults_witness :
  vedges (build [[(lit "node", VStr (lit "A")); (lit "target", VStr (lit "B"))]])
  = [{| ed_id := lit "A-RELATED_TO-B";
        ed_source := VStr (lit "A"); ed_target := VStr (lit "B");
        ed_label := VStr (lit "RELATED_TO");
        ed_source_name := VStr (lit "A");
        ed_destination_name := VStr (lit "B") |}].
Proof.
  exact (proj1 (proj2 (proj2 (proj2 (proj2 (proj2 (proj2
    (row_without_relationship_defaults
       [(lit "node", VStr (lit "A")); (lit "target", VStr (lit "B"))]
       vis_init eq_refl eq_refl eq_refl)))))))).
Defined.

(** ** [search_graph] *)

Lemma match_neighbours_length (toLower : str -> str) (g : graph) (es : list str) :
  List.length (match_neighbours toLower g es)
  = Nat.min 25 (List.length (match_rows toLower g es)).
Proof. unfold match_neighbours. apply length_firstn. Qed.

Lemma graph_db_rows (nlp : str -> GraphDb.doc) (toLower : str -> str)
    (query_text : str) (d : db) :
  List.length (fst (GraphDb.search_graph nlp toLower query_text d))
  = match GraphDb.entities_of (nlp query_text) with
    | [] => 0
    | es =>
        Nat.min 25 (List.length (match_rows toLower (graph_of d) es))
    end.
Proof.
  unfold GraphDb.search_graph.
  destruct (GraphDb.entities_of (nlp query_text)); simpl; [reflexivity|].
  apply match_neighbours_length.
Qed.

(** C7: [search_graph] returns at most 25 rows, in both files and whatever
    the graph holds: as many as match, up to 25.  In [DBUtils.py] the rows
    are returned unless the model itself raised.  For the hub with thirty
    neighbours, thirty rows match and 25 are returned. *)
Theorem search_graph_returns_at_most_25_rows
    (nlp : str -> GraphDb.doc) (toLower : str -> str) (query_text : str)
    (m : model) (d : db) :
  List.length (fst (GraphDb.search_graph nlp toLower query_text d)) <= 25
  /\ List.length (fst (GraphDb.search_graph nlp toLower query_text d))
     = match GraphDb.entities_of (nlp query_text) with
       | [] => 0
       | es => Nat.min 25 (List.length (match_rows toLower (graph_of d) es))
       end
  /\ match m (EntityPrompt query_text),
           fst (DBUtils.search_graph toLower query_text m d) with
     | Ok entity_string, Ok rows =>
         List.length rows <= 25
         /\ List.length rows
            = match DBUtils.entities_of entity_string with
              | [] => 0
              | es =>
                  Nat.min 25 (List.length (match_rows toLower (graph_of d) es))
              end
     | Raise e, Raise e' => e = e'
     | _, _ => False
     end
  /\ List.length (match_rows to_lower_ascii (graph_of hub_db) [lit "Hub"]) = 30
  /\ List.length
       (fst (GraphDb.search_graph
               (fun _ => {| GraphDb.ents :=
                              [{| GraphDb.span_text := lit "Hub";
                                  GraphDb.span_start := 0;
                                  GraphDb.span_end := 1 |}];
                            GraphDb.tokens := [] |})
               to_lower_ascii (lit "Hub") hub_db)) = 25
  /\ option_map (@List.length row)
       (match fst (DBUtils.search_graph to_lower_ascii (lit "Hub") hub_model hub_db)
        with Ok rows => Some rows | Raise _ => None end) = Some 25.
Proof.
  split.
  { rewrite graph_db_rows.
    destruct (GraphDb.entities_of (nlp query_text)); [lia | apply Nat.le_min_l]. }
  split; [apply graph_db_rows|].
  split.
  { unfold DBUtils.search_graph.
    destruct (m (EntityPrompt query_text)) as [entity_string|e]; [|reflexivity].
    destruct (DBUtils.entities_of entity_string) as [|x es]; simpl.
    - split; [lia | reflexivity].
    - rewrite match_neighbours_length. split; [apply Nat.le_min_l | reflexivity]. }
  split; [vm_compute; reflexivity|].
  split; vm_compute; reflexivity.
Qed.

(** C8: when no entity name comes out of the question, [search_graph]
    returns the empty list and leaves the database as it was, the journal of
    its transactions included: no read is issued.  With at least one name,
    one read is. *)
Theorem search_graph_without_entities_reads_nothing
    (nlp : str -> GraphDb.doc) (toLower : str -> str) (query_text : str)
    (m : model) (d : db) :
  (GraphDb.entities_of (nlp query_text) = [] ->
   GraphDb.search_graph nlp toLower query_text d = ([], d)
   /\ reads (snd (GraphDb.search_graph nlp toLower query_text d)) = reads d)
  /\ (forall entity_string,
        m (EntityPrompt query_text) = Ok entity_string ->
        DBUtils.entities_of entity_string = [] ->
        DBUtils.search_graph toLower query_text m d = (Ok [], d)
        /\ reads (snd (DBUtils.search_graph toLower query_text m d)) = reads d)
  /\ (GraphDb.entities_of (nlp query_text) <> [] ->
      reads (snd (GraphDb.search_graph nlp toLower query_text d))
      = reads d ++ [MatchNeighbours (GraphDb.entities_of (nlp query_text))])
  /\ (forall entity_string,
        m (EntityPrompt query_text) = Ok entity_string ->
        DBUtils.entities_of entity_string <> [] ->
        reads (snd (DBUtils.search_graph toLower query_text m d))
        = reads d ++ [MatchNeighbours (DBUtils.entities_of entity_string)]).
Proof.
  assert (forall s, reads (logged Read s d) = reads d ++ [s]) as R.
  { intros s. unfold reads, logged; simpl. rewrite filter_app, map_app. reflexivity. }
  split; [|split; [|split]].
  - intros E. unfold GraphDb.search_graph. rewrite E. split; reflexivity.
  - intros entity_string G E. unfold DBUtils.search_graph. rewrite G, E.
    split; reflexivity.
  - intros N. unfold GraphDb.search_graph.
    destruct (GraphDb.entities_of (nlp query_text)); [congruence|]. apply R.
  - intros entity_string G N. unfold DBUtils.search_graph. rewrite G.
    destruct (DBUtils.entities_of entity_string); [congruence|]. apply R.
Qed.

(** A question without an entity: an empty spaCy document, and a model that
    answers with commas and blanks. *)
Lemma search_graph_without_entities_reads_nothing_witness :
  GraphDb.search_graph (fun _ => no_doc) to_lower_ascii (lit "what is new?") hub_db
  = ([], hub_db)
  /\ DBUtils.search_graph to_lower_ascii (lit "what is new?")
       (fun _ => Ok (lit " , ,")) hub_db
     = (Ok [], hub_db).
Proof.
  pose proof (search_graph_without_entities_reads_nothing
                (fun _ => no_doc) to_lower_ascii (lit "what is new?")
                (fun _ => Ok (lit " , ,")) hub_db) as (A & B & _).
  split.
  - exact (proj1 (A eq_refl)).
  - exact (proj1 (B (lit " , ,") eq_refl eq_refl)).
Defined.

(** ** The lines of triples *)

Lemma lstrip_by_head (p : char -> bool) (s : str) (c : char) (r : str) :
  lstrip_by p s = c :: r -> p c = false.
Proof.
  induction s as [|x s IH]; simpl; [discriminate|].
  destruct (p x) eqn:P; [exact IH|]. intros E; injection E as -> _; exact P.
Qed.

Lemma lstrip_by_suffix (p : char -> bool) (s : str) :
  exists pre, s = pre ++ lstrip_by p s.
Proof.
  induction s as [|x s [pre IH]]; simpl; [exists []; reflexivity|].
  destruct (p x).
  - exists (x :: pre). simpl. f_equal. exact IH.
  - exists []. reflexivity.
Qed.

Lemma rstrip_by_last (p : char -> bool) (s init : str) (c : char) :
  rstrip_by p s = init ++ [c] -> p c = false.
Proof.
  unfold rstrip_by. intros E.
  apply (f_equal (@rev char)) in E. rewrite rev_involutive, rev_app_distr in E.
  simpl in E. exact (lstrip_by_head p _ c _ E).
Qed.

Lemma rstrip_by_prefix (p : char -> bool) (s : str) :
  exists suf, s = rstrip_by p s ++ suf.
Proof.
  unfold rstrip_by. destruct (lstrip_by_suffix p (rev s)) as [pre E].
  exists (rev pre). rewrite <- rev_app_distr, <- E, rev_involutive. reflexivity.
Qed.

Lemma strip_by_ends (p : char -> bool) (s : str) :
  (forall c r, strip_by p s = c :: r -> p c = false)
  /\ (forall init c, strip_by p s = init ++ [c] -> p c = false).
Proof.
  unfold strip_by. split.
  - intros c r E. destruct (rstrip_by_prefix p (lstrip_by p s)) as [suf P].
    rewrite E in P. simpl in P. exact (lstrip_by_head p s c _ P).
  - intros init c E. exact (rstrip_by_last p _ init c E).
Qed.

Lemma split_from_absent (c : char) (s : str) :
  ~ In c s -> split_from [c] 0 s = (s, []).
Proof.
  induction s as [|x s IH]; intros N; [reflexivity|].
  cbn [split_from startswith].
  assert (N.eqb x c = false) as ->.
  { apply N.eqb_neq. intros ->. apply N. left; reflexivity. }
  simpl. rewrite IH; [reflexivity|]. intros I; apply N; right; exact I.
Qed.

Lemma split_absent (c : char) (s : str) : ~ In c s -> split s [c] = [s].
Proof. intros N. unfold split. rewrite (split_from_absent c s N). reflexivity. Qed.

Lemma truthy_nonempty (s : str) : truthy s = true <-> s <> [].
Proof. destruct s; simpl; split; congruence. Qed.

Lemma line_triple_some (line : str) (t : triple) :
  PdfProcessor.line_triple line = Some t
  <-> exists p0 p1 p2,
        split line (lit "|") = [p0; p1; p2]
        /\ t = (PdfProcessor.field p0, PdfProcessor.field p1, PdfProcessor.field p2)
        /\ PdfProcessor.field p0 <> []
        /\ PdfProcessor.field p1 <> []
        /\ PdfProcessor.field p2 <> [].
Proof.
  unfold PdfProcessor.line_triple. split.
  - destruct (split line (lit "|")) as [|p0 [|p1 [|p2 [|p3 l]]]]; try discriminate.
    destruct (truthy (PdfProcessor.field p0)) eqn:T0; [|discriminate].
    destruct (truthy (PdfProcessor.field p1)) eqn:T1; [|discriminate].
    destruct (truthy (PdfProcessor.field p2)) eqn:T2; [|discriminate].
    simpl. intros E; injection E as <-.
    exists p0, p1, p2. rewrite <- !truthy_nonempty. tauto.
  - intros (p0 & p1 & p2 & -> & -> & N0 & N1 & N2).
    rewrite <- truthy_nonempty in N0, N1, N2. rewrite N0, N1, N2. reflexivity.
Qed.

Lemma triples_of_text_flat_map (lines : list str) (acc : list triple) :
  fold_left
    (fun triples line =>
       match PdfProcessor.line_triple line with
       | Some t => triples ++ [t]
       | None => triples
       end)
    lines acc
  = acc ++ flat_map line_triples lines.
Proof.
  revert acc; induction lines as [|l lines IH]; intros acc; simpl.
  - rewrite app_nil_r; reflexivity.
  - rewrite IH. unfold line_triples at 2.
    destruct (PdfProcessor.line_triple l); simpl; [|reflexivity].
    rewrite <- app_assoc. reflexivity.
Qed.

(** C9 (as amended): the parser turns the text into the triples of its
    lines, in order.  A line yields a triple exactly when it splits at the pipes into three
    fields none of which is empty once white space and quotes are stripped,
    and the triple is made of the three stripped fields; a stripped field
    neither starts nor ends with a quote character.  A line that does not
    split into exactly three fields and a blank line yield nothing.  The
    quoted line of the example gives [John Doe], [IS_A], [Director]. *)
Theorem triples_of_text_strips_quotes :
  PdfProcessor.triples_of_text (lit "'John Doe'|IS_A|Director")
  = [(lit "John Doe", lit "IS_A", lit "Director")]
  /\ (forall text,
        PdfProcessor.triples_of_text text
        = flat_map line_triples (split (strip text) [nl]))
  /\ (forall line t,
        PdfProcessor.line_triple line = Some t
        <-> exists p0 p1 p2,
              split line (lit "|") = [p0; p1; p2]
              /\ t = (PdfProcessor.field p0, PdfProcessor.field p1,
                      PdfProcessor.field p2)
              /\ PdfProcessor.field p0 <> []
              /\ PdfProcessor.field p1 <> []
              /\ PdfProcessor.field p2 <> [])
  /\ (forall part,
        (forall c r, PdfProcessor.field part = c :: r -> is_quote c = false)
        /\ (forall init c,
              PdfProcessor.field part = init ++ [c] -> is_quote c = false))
  /\ (forall line,
        List.length (split line (lit "|")) <> 3 ->
        PdfProcessor.line_triple line = None)
  /\ (forall line,
        Forall (fun c => isspace c = true) line ->
        PdfProcessor.line_triple line = None).
Proof.
  split; [reflexivity|].
  split; [intros text; apply (triples_of_text_flat_map _ [])|].
  split; [apply line_triple_some|].
  split.
  { intros part. unfold PdfProcessor.field, strip_chars.
    apply (strip_by_ends (fun c => mem c PdfProcessor.quote_chars)). }
  split.
  { intros line N. unfold PdfProcessor.line_triple.
    destruct (split line (lit "|")) as [|p0 [|p1 [|p2 [|p3 l]]]];
      try reflexivity.
    exfalso; apply N; reflexivity. }
  intros line W. unfold PdfProcessor.line_triple.
  change (lit "|") with [124%N]. rewrite split_absent; [reflexivity|].
  intros I. pose proof (proj1 (Forall_forall _ _) W _ I) as S. discriminate S.
Qed.

(** A line of two fields, and a line of blanks. *)
Lemma triples_of_text_strips_quotes_witness :
  PdfProcessor.line_triple (lit "John Doe|Director") = None
  /\ PdfProcessor.line_triple (lit "   ") = None.
Proof.
  pose proof triples_of_text_strips_quotes as (_ & _ & _ & _ & A & B).
  split.
  - apply A. vm_compute. discriminate.
  - apply B. repeat constructor.
Defined.

(** C9 (as stated) fails for a line of three fields one of which is empty
    once stripped: the line is discarded, though it is neither blank nor
    split into another number of fields.  So with an empty middle field, and
    with a middle field made of two quotes. *)
Lemma triples_of_text_drops_empty_field :
  split (lit "A||B") (lit "|") = [lit "A"; lit ""; lit "B"]
  /\ PdfProcessor.line_triple (lit "A||B") = None
  /\ PdfProcessor.triples_of_text (lit "A||B") = []
  /\ split (lit "Acme|''|Paris") (lit "|") = [lit "Acme"; lit "''"; lit "Paris"]
  /\ PdfProcessor.line_triple (lit "Acme|''|Paris") = None
  /\ PdfProcessor.triples_of_text (lit "Acme|''|Paris") = [].
Proof. repeat split; reflexivity. Qed.

(** ** The upsert of [add_triples] *)

Lemma rel_eqb_eq (a b : relationship) : rel_eqb a b = true <-> a = b.
Proof.
  destruct a as [s1 t1 e1], b as [s2 t2 e2]. unfold rel_eqb; simpl.
  rewrite !andb_true_iff, !Nat.eqb_eq, str_eqb_eq. split.
  - intros [[-> ->] ->]; reflexivity.
  - intros E; injection E; auto.
Qed.

Lemma fresh_id_above (g : graph) (n : node) :
  In n (nodes g) -> node_id n < fresh_id g.
Proof.
  intros I. unfold fresh_id.
  pose proof (proj1 (list_max_le (map node_id (nodes g)) _) (le_n _)) as F.
  rewrite Forall_forall in F. specialize (F (node_id n) (in_map _ _ _ I)). lia.
Qed.

Lemma new_entity_named (i : nat) (x y : str) :
  is_entity_named y {| node_id := i; labels := [Entity]; node_name := VStr x |}
  = str_eqb x y.
Proof.
  unfold is_entity_named, has_label.
  cbn [labels node_name existsb value_eqb].
  rewrite str_eqb_refl. reflexivity.
Qed.

(** What one [MERGE] of an entity does to a graph that keeps the
    invariants: one node is bound, it is the one entity of that name
    afterwards, and nothing else changes. *)
Lemma merge_entity_spec (x : str) (g : graph) :
  wf_graph g ->
  exists i g',
    merge_entity x g = ([i], g')
    /\ wf_graph g'
    /\ map node_id (entities_named x g') = [i]
    /\ relationships g' = relationships g
    /\ (forall y j, map node_id (entities_named y g) = [j] ->
                    map node_id (entities_named y g') = [j])
    /\ (entities_named x g <> [] -> g' = g).
Proof.
  intros (Nid & Uniq & Nrel). unfold merge_entity.
  fold (entities_named x g).
  destruct (entities_named x g) as [|n [|n' l]] eqn:E.
  - (* no entity of that name: one is created *)
    set (new := {| node_id := fresh_id g; labels := [Entity];
                   node_name := VStr x |}).
    exists (fresh_id g), {| nodes := nodes g ++ [new]; relationships := relationships g |}.
    assert (forall y, entities_named y {| nodes := nodes g ++ [new];
                                          relationships := relationships g |}
                      = entities_named y g ++ (if str_eqb x y then [new] else []))
      as Named.
    { intros y. unfold entities_named; simpl. rewrite filter_app. simpl.
      unfold new at 1. rewrite new_entity_named.
      destruct (str_eqb x y); reflexivity. }
    split; [reflexivity|]. split; [|split; [|split; [|split]]].
    + split; [|split]; simpl.
      * rewrite map_app. apply NoDup_app; [exact Nid | repeat constructor; intros [] |].
        intros a Ia [<-|[]]. apply in_map_iff in Ia. destruct Ia as (m & Em & Im).
        pose proof (fresh_id_above g m Im). simpl in Em. lia.
      * intros y. rewrite Named. rewrite length_app.
        destruct (str_eqb x y) eqn:Exy; simpl.
        -- apply str_eqb_eq in Exy; subst y. rewrite E. simpl. lia.
        -- specialize (Uniq y). lia.
      * exact Nrel.
    + rewrite Named, E, str_eqb_refl. reflexivity.
    + reflexivity.
    + intros y j Hy. rewrite Named.
      destruct (str_eqb x y) eqn:Exy.
      * apply str_eqb_eq in Exy; subst y. rewrite E in Hy. discriminate.
      * rewrite app_nil_r. exact Hy.
    + intros C; congruence.
  - (* the entity exists *)
    exists (node_id n), g. split; [reflexivity|].
    split; [repeat split; assumption|].
    split; [rewrite E; reflexivity|].
    split; [reflexivity|]. split; [auto | reflexivity].
  - exfalso. specialize (Uniq x). rewrite E in Uniq. simpl in Uniq. lia.
Qed.

Lemma merge_relationship_spec (t : str) (g : graph) (i1 i2 : nat) :
  wf_graph g ->
  let r := {| rel_start := i1; rel_type := t; rel_end := i2 |} in
  let g' := merge_relationship t g (i1, i2) in
  wf_graph g'
  /\ nodes g' = nodes g
  /\ In r (relationships g')
  /\ (In r (relationships g) -> g' = g).
Proof.
  intros (Nid & Uniq & Nrel). cbv zeta. unfold merge_relationship; simpl.
  destruct (existsb _ (relationships g)) eqn:E.
  - apply (existsb_eqb rel_eqb rel_eqb_eq) in E.
    repeat split; assumption || reflexivity.
  - assert (~ In {| rel_start := i1; rel_type := t; rel_end := i2 |}
              (relationships g)) as NI.
    { intros I. apply (existsb_eqb rel_eqb rel_eqb_eq) in I. congruence. }
    split; [|split; [reflexivity | split]].
    + split; [exact Nid | split; [exact Uniq|]]. simpl.
      apply NoDup_app; [exact Nrel | repeat constructor; intros [] |].
      intros a Ia [<-|[]]. exact (NI Ia).
    + simpl. apply in_or_app; right; left; reflexivity.
    + intros I; contradiction.
Qed.

(** One pair through the three [MERGE] clauses, when each entity clause
    binds one node. *)
Lemma merge_pair_single (t : str) (g g1 g2 : graph) (x y : str) (i1 i2 : nat) :
  merge_entity x g = ([i1], g1) ->
  merge_entity y g1 = ([i2], g2) ->
  merge_pair t g (x, y) = merge_relationship t g2 (i1, i2).
Proof.
  intros E1 E2. unfold merge_pair. cbn [fst snd]. rewrite E1.
  cbn [fold_left fst snd app]. rewrite E2. reflexivity.
Qed.

Lemma merge_pair_spec (t : str) (g : graph) (x y : str) :
  wf_graph g ->
  let g' := merge_pair t g (x, y) in
  wf_graph g'
  /\ exists i1 i2,
       map node_id (entities_named x g') = [i1]
       /\ map node_id (entities_named y g') = [i2]
       /\ In {| rel_start := i1; rel_type := t; rel_end := i2 |} (relationships g').
Proof.
  intros W. cbv zeta.
  destruct (merge_entity_spec x g W) as (i1 & g1 & E1 & W1 & N1 & _ & _ & _).
  destruct (merge_entity_spec y g1 W1) as (i2 & g2 & E2 & W2 & N2 & _ & Keep & _).
  rewrite (merge_pair_single t g g1 g2 x y i1 i2 E1 E2).
  destruct (merge_relationship_spec t g2 i1 i2 W2) as (W3 & Nodes & I & _).
  split; [exact W3|]. exists i1, i2.
  unfold entities_named in *. rewrite Nodes.
  split; [apply Keep, N1 | split; [exact N2 | exact I]].
Qed.

Lemma merge_pair_again (t : str) (g : graph) (x y : str) (i1 i2 : nat) :
  wf_graph g ->
  map node_id (entities_named x g) = [i1] ->
  map node_id (entities_named y g) = [i2] ->
  In {| rel_start := i1; rel_type := t; rel_end := i2 |} (relationships g) ->
  merge_pair t g (x, y) = g.
Proof.
  intros W N1 N2 I.
  destruct (merge_entity_spec x g W) as (j1 & g1 & E1 & _ & M1 & _ & _ & Same1).
  assert (g1 = g) as ->.
  { apply Same1. intros C. rewrite C in N1. discriminate. }
  assert (j1 = i1) as -> by congruence.
  destruct (merge_entity_spec y g W) as (j2 & g2 & E2 & _ & M2 & _ & _ & Same2).
  assert (g2 = g) as ->.
  { apply Same2. intros C. rewrite C in N2. discriminate. }
  assert (j2 = i2) as -> by congruence.
  rewrite (merge_pair_single t g g g x y i1 i2 E1 E2).
  apply (merge_relationship_spec t g i1 i2 W), I.
Qed.

Lemma merge_pairs_wf (t : str) (pairs : list (str * str)) (g : graph) :
  wf_graph g -> wf_graph (merge_pairs t pairs g).
Proof.
  unfold merge_pairs. revert g; induction pairs as [|[x y] pairs IH]; intros g W;
    simpl; [exact W|].
  apply IH. apply (merge_pair_spec t g x y W).
Qed.

(** [add_triples] keeps the invariants of the data model. *)
Lemma add_triples_wf (ue : char -> str) (triples : list triple) (d : db) :
  wf_graph (graph_of d) -> wf_graph (graph_of (add_triples ue triples d)).
Proof.
  unfold add_triples. generalize (grouped_triples ue triples) as groups.
  intros groups; revert d; induction groups as [|[t pairs] groups IH];
    intros d W; simpl; [exact W|].
  apply IH. simpl. apply merge_pairs_wf, W.
Qed.

Lemma filter_absent {A} (f : A -> bool) (a : A) (l : list A) :
  ~ In a l -> (forall b, f b = true -> b = a) -> filter f l = [].
Proof.
  intros N F. induction l as [|b l IH]; [reflexivity|]. simpl.
  destruct (f b) eqn:Fb.
  - apply F in Fb; subst b. exfalso; apply N; left; reflexivity.
  - apply IH. intros C; apply N; right; exact C.
Qed.

Lemma filter_single {A} (f : A -> bool) (a : A) (l : list A) :
  NoDup l -> In a l -> (forall b, f b = true <-> b = a) -> filter f l = [a].
Proof.
  intros N I F. induction N as [|b l Nb Nl IH]; [destruct I|]. simpl.
  destruct (f b) eqn:Fb.
  - apply F in Fb; subst b. f_equal.
    apply (filter_absent f a l Nb). intros b Hb; apply F, Hb.
  - destruct I as [->|I]; [|exact (IH I)].
    assert (f a = true) by (apply F; reflexivity). congruence.
Qed.

Lemma existsb_single_id (l : list node) (i k : nat) :
  map node_id l = [i] ->
  existsb (fun n => Nat.eqb (node_id n) k) l = Nat.eqb i k.
Proof.
  destruct l as [|n [|n' l]]; try discriminate.
  simpl. intros E; injection E as ->. apply orb_false_r.
Qed.

Lemma single_edge_between (t x y : str) (g : graph) (i1 i2 : nat) :
  wf_graph g ->
  map node_id (entities_named x g) = [i1] ->
  map node_id (entities_named y g) = [i2] ->
  In {| rel_start := i1; rel_type := t; rel_end := i2 |} (relationships g) ->
  edges_between t x y g = [{| rel_start := i1; rel_type := t; rel_end := i2 |}].
Proof.
  intros (_ & _ & Nrel) N1 N2 I. unfold edges_between.
  apply filter_single; [exact Nrel | exact I |].
  intros [s ty e]. simpl.
  rewrite (existsb_single_id _ i1 s N1), (existsb_single_id _ i2 e N2).
  rewrite !andb_true_iff, !Nat.eqb_eq, str_eqb_eq. split.
  - intros [[-> ->] ->]; reflexivity.
  - intros E; injection E; auto.
Qed.

Lemma add_one_triple (ue : char -> str) (e1 rel e2 : str) (d : db) :
  sanitized_rel ue rel <> [] ->
  graph_of (add_triples ue [(e1, rel, e2)] d)
  = merge_pair (sanitized_rel ue rel) (graph_of d) (e1, e2).
Proof.
  intros N. unfold add_triples, grouped_triples. simpl fold_left at 2.
  apply truthy_nonempty in N. rewrite N. reflexivity.
Qed.

Lemma single_length {A B} (f : A -> B) (l : list A) (b : B) :
  map f l = [b] -> List.length l = 1.
Proof. intros E. rewrite <- (length_map f), E. reflexivity. Qed.

Lemma add_dropped_triple (ue : char -> str) (e1 rel e2 : str) (d : db) :
  sanitized_rel ue rel = [] -> add_triples ue [(e1, rel, e2)] d = d.
Proof.
  intros E. unfold add_triples, grouped_triples. cbn [fold_left].
  rewrite E. reflexivity.
Qed.

(** C2 (as amended): on a graph that keeps the uniqueness invariants (the
    empty graph does, and [add_triples] keeps them), the second of two calls
    with one triple changes nothing in the graph.  When the label of the
    triple sanitizes to a non-empty type, the graph then holds one [Entity]
    node of each of its names and one relationship of the sanitized type
    from the subject to the object.  When the label sanitizes to the empty
    string, the triple is dropped: each call leaves the database as it was,
    with no node, no relationship and no write more, and so on any graph,
    with or without the invariants. *)
Theorem add_triples_twice_is_idempotent
    (upper_ext : char -> str) (e1 rel e2 : str) (d : db) :
  wf_graph (graph_of d) ->
  let once := add_triples upper_ext [(e1, rel, e2)] d in
  let twice := add_triples upper_ext [(e1, rel, e2)] once in
  graph_of twice = graph_of once
  /\ wf_graph (graph_of twice)
  /\ match sanitized_rel upper_ext rel with
     | [] => once = d /\ twice = d
     | _ :: _ =>
         List.length (entities_named e1 (graph_of twice)) = 1
         /\ List.length (entities_named e2 (graph_of twice)) = 1
         /\ List.length
              (edges_between (sanitized_rel upper_ext rel) e1 e2
                 (graph_of twice)) = 1
     end
  /\ (forall d0 : db,
        sanitized_rel upper_ext rel = [] ->
        add_triples upper_ext [(e1, rel, e2)] d0 = d0).
Proof.
  intros W. cbv zeta.
  assert (forall P Q R S : Prop, P /\ Q /\ R -> S -> P /\ Q /\ R /\ S) as C
      by tauto.
  apply C; clear C; [|intros d0; apply add_dropped_triple].
  destruct (sanitized_rel upper_ext rel) as [|c t] eqn:E.
  { rewrite !(add_dropped_triple upper_ext e1 rel e2 d E).
    repeat split; try reflexivity; apply W. }
  assert (sanitized_rel upper_ext rel <> []) as N by (rewrite E; discriminate).
  rewrite <- E.
  pose proof (merge_pair_spec (sanitized_rel upper_ext rel) (graph_of d) e1 e2 W)
    as (W1 & i1 & i2 & N1 & N2 & I).
  rewrite <- (add_one_triple upper_ext e1 rel e2 d N) in W1, N1, N2, I.
  assert (graph_of (add_triples upper_ext [(e1, rel, e2)]
                      (add_triples upper_ext [(e1, rel, e2)] d))
          = graph_of (add_triples upper_ext [(e1, rel, e2)] d)) as Same.
  { rewrite (add_one_triple upper_ext e1 rel e2 _ N).
    apply (merge_pair_again _ _ e1 e2 i1 i2 W1 N1 N2 I). }
  rewrite Same.
  split; [reflexivity|]. split; [exact W1|].
  split; [exact (single_length _ _ _ N1)|].
  split; [exact (single_length _ _ _ N2)|].
  rewrite (single_edge_between _ e1 e2 _ i1 i2 W1 N1 N2 I). reflexivity.
Qed.

(** Without the invariants the upsert does not repair the graph: two
    entities of one name stay two, and each gets its relationship. *)
Lemma add_triples_keeps_twins (ue : char -> str) :
  let twice :=
    add_triples ue [(lit "A", lit "founded", lit "B")]
      (add_triples ue [(lit "A", lit "founded", lit "B")] twin_db) in
  List.length (entities_named (lit "A") (graph_of twice)) = 2
  /\ List.length
       (edges_between (lit "FOUNDED") (lit "A") (lit "B") (graph_of twice)) = 2.
Proof. split; reflexivity. Qed.

Lemma empty_graph_wf : wf_graph empty_graph.
Proof.
  split; [constructor | split; [intros x; simpl; lia | constructor]].
Qed.

(** The triple [(A, founded, B)], twice, on the empty database. *)
Lemma add_triples_twice_is_idempotent_witness :
  let twice :=
    add_triples no_ext [(lit "A", lit "founded", lit "B")]
      (add_triples no_ext [(lit "A", lit "founded", lit "B")] empty_db) in
  List.length (entities_named (lit "A") (graph_of twice)) = 1
  /\ List.length (entities_named (lit "B") (graph_of twice)) = 1
  /\ List.length
       (edges_between (lit "FOUNDED") (lit "A") (lit "B") (graph_of twice)) = 1.
Proof.
  exact (proj1 (proj2 (proj2 (add_triples_twice_is_idempotent no_ext
                                (lit "A") (lit "founded") (lit "B") empty_db
                                empty_graph_wf)))).
Defined.

(** C2 (as stated) fails for a triple whose label has no character of the
    word class: it is dropped, and after two calls the graph holds no entity
    named after its subject. *)
Lemma add_triples_drops_dotted_triple :
  (forall upper_ext : char -> str,
      graph_of
        (add_triples upper_ext [(lit "A", lit "...", lit "B")]
           (add_triples upper_ext [(lit "A", lit "...", lit "B")] empty_db))
      = empty_graph)
  /\ List.length (entities_named (lit "A") empty_graph) = 0
  /\ List.length (edges_between (lit "") (lit "A") (lit "B") empty_graph) = 0.
Proof.
  split; [intros; reflexivity|]. split; reflexivity.
Qed.

(** ** More on strings: [strip], [split] and [join] *)

Lemma lstrip_by_fixed (p : char -> bool) (s : str) :
  (forall c r, s = c :: r -> p c = false) -> lstrip_by p s = s.
Proof.
  destruct s as [|c r]; intros H; [reflexivity|]. simpl.
  rewrite (H c r eq_refl). reflexivity.
Qed.

Lemma rstrip_by_fixed (p : char -> bool) (s : str) :
  (forall init c, s = init ++ [c] -> p c = false) -> rstrip_by p s = s.
Proof.
  intros H. unfold rstrip_by. rewrite lstrip_by_fixed; [apply rev_involutive|].
  intros c r E. apply (H (rev r) c).
  rewrite <- (rev_involutive s), E. reflexivity.
Qed.

Lemma strip_by_fixed (p : char -> bool) (s : str) :
  (forall c r, s = c :: r -> p c = false) ->
  (forall init c, s = init ++ [c] -> p c = false) ->
  strip_by p s = s.
Proof.
  intros H1 H2. unfold strip_by. rewrite (lstrip_by_fixed p s H1).
  apply rstrip_by_fixed, H2.
Qed.

Lemma strip_by_idem (p : char -> bool) (s : str) :
  strip_by p (strip_by p s) = strip_by p s.
Proof.
  destruct (strip_by_ends p s) as [H1 H2]. apply strip_by_fixed; assumption.
Qed.

Lemma lstrip_by_incl (p : char -> bool) (s : str) (c : char) :
  In c (lstrip_by p s) -> In c s.
Proof.
  destruct (lstrip_by_suffix p s) as [pre E]. intros I.
  rewrite E. apply in_or_app; right; exact I.
Qed.

Lemma strip_by_incl (p : char -> bool) (s : str) (c : char) :
  In c (strip_by p s) -> In c s.
Proof.
  unfold strip_by, rstrip_by. intros I.
  apply in_rev, lstrip_by_incl, in_rev, lstrip_by_incl in I. exact I.
Qed.

Lemma join_cons (sep p : str) (rest : list str) :
  rest <> [] -> join sep (p :: rest) = p ++ sep ++ join sep rest.
Proof. destruct rest; [congruence | reflexivity]. Qed.

Lemma startswith_skipn (r p : str) :
  startswith r p = true -> p ++ skipn (List.length p) r = r.
Proof.
  revert r; induction p as [|y p IH]; intros r P; [reflexivity|].
  destruct r as [|z r]; simpl in P; [discriminate|].
  apply andb_true_iff in P. destruct P as [Ez P].
  apply N.eqb_eq in Ez. subst z. simpl. f_equal. apply IH, P.
Qed.

(** Splitting then joining gives the string back; with [skip] characters
    to pass over, what is left of it. *)
Lemma join_split_from (sep s : str) (skip : nat) :
  sep <> [] ->
  join sep (fst (split_from sep skip s) :: snd (split_from sep skip s))
  = skipn skip s.
Proof.
  intros Ne. revert skip; induction s as [|c r IH]; intros skip.
  - destruct skip; reflexivity.
  - destruct skip as [|k]; cbn [split_from].
    + destruct (startswith (c :: r) sep) eqn:P.
      * specialize (IH (List.length sep - 1)).
        destruct (split_from sep (List.length sep - 1) r) as [a l].
        cbn [fst snd] in *. rewrite join_cons by discriminate. rewrite IH.
        destruct sep as [|x sep']; [congruence|].
        simpl in P. apply andb_true_iff in P. destruct P as [Ex P].
        apply N.eqb_eq in Ex. subst x.
        cbn [List.length]. rewrite Nat.sub_succ, Nat.sub_0_r.
        cbn [app skipn]. f_equal. apply startswith_skipn, P.
      * specialize (IH 0). destruct (split_from sep 0 r) as [a l].
        cbn [fst snd] in *. simpl skipn in *. rewrite <- IH.
        destruct l; reflexivity.
    + rewrite IH. reflexivity.
Qed.

Lemma join_split (sep s : str) : sep <> [] -> join sep (split s sep) = s.
Proof.
  intros Ne. unfold split. pose proof (join_split_from sep s 0 Ne) as H.
  destruct (split_from sep 0 s) as [a l]. exact H.
Qed.

Lemma split_from_char_app (c : char) (a rest : str) :
  ~ In c a ->
  split_from [c] 0 (a ++ c :: rest)
  = (a, fst (split_from [c] 0 rest) :: snd (split_from [c] 0 rest)).
Proof.
  induction a as [|x a IH]; intros N.
  - cbn [app split_from startswith]. rewrite N.eqb_refl, startswith_nil.
    cbn [andb List.length Nat.sub].
    destruct (split_from [c] 0 rest); reflexivity.
  - cbn [app split_from startswith].
    assert (N.eqb x c = false) as ->.
    { apply N.eqb_neq. intros ->. apply N. left; reflexivity. }
    cbn [andb]. rewrite IH; [reflexivity|]. intros I; apply N; right; exact I.
Qed.

(** Joining lines that hold no separator, then splitting, gives the lines
    back. *)
Lemma split_join_char (c : char) (parts : list str) :
  parts <> [] -> Forall (fun p => ~ In c p) parts ->
  split (join [c] parts) [c] = parts.
Proof.
  induction parts as [|p rest IH]; intros Ne F; [congruence|].
  inversion F as [|? ? Np Frest]; subst.
  destruct rest as [|q rest].
  - simpl. apply split_absent, Np.
  - rewrite join_cons by discriminate. unfold split in *.
    change ([c] ++ join [c] (q :: rest)) with (c :: join [c] (q :: rest)).
    rewrite (split_from_char_app c p _ Np).
    specialize (IH ltac:(discriminate) Frest).
    destruct (split_from [c] 0 (join [c] (q :: rest))) as [a l].
    cbn [fst snd]. rewrite IH. reflexivity.
Qed.

(** No part of a split at a character holds that character. *)
Lemma split_char_parts (c : char) (s : str) :
  Forall (fun p => ~ In c p) (split s [c]).
Proof.
  unfold split.
  assert (~ In c (fst (split_from [c] 0 s))
          /\ Forall (fun p => ~ In c p) (snd (split_from [c] 0 s))) as [A B].
  { induction s as [|x r [IHa IHl]]; [split; [intros [] | constructor]|].
    cbn [split_from startswith]. rewrite startswith_nil, andb_true_r.
    cbn [List.length Nat.sub].
    destruct (N.eqb x c) eqn:E.
    - destruct (split_from [c] 0 r) as [a l]. cbn [fst snd] in *.
      split; [intros [] | constructor; assumption].
    - destruct (split_from [c] 0 r) as [a l]. cbn [fst snd] in *.
      split; [|exact IHl]. intros [->|I]; [|exact (IHa I)].
      rewrite N.eqb_refl in E. discriminate. }
  destruct (split_from [c] 0 s) as [a l]. constructor; assumption.
Qed.

(** ** The groups of [add_triples] *)

Lemma dict_lookup_append_at {V} (d : dict (list V)) (k t : str) (v : V) :
  dict_lookup (append_at d k v) t
  = if str_eqb k t
    then Some (match dict_lookup d k with Some vs => vs | None => [] end ++ [v])
    else dict_lookup d t.
Proof.
  induction d as [|[k' vs] d IH]; cbn [append_at dict_lookup].
  - destruct (str_eqb k t); reflexivity.
  - destruct (str_eqb k' k) eqn:E; cbn [dict_lookup].
    + apply str_eqb_eq in E; subst k'.
      destruct (str_eqb k t); reflexivity.
    + rewrite IH. destruct (str_eqb k t) eqn:Ekt.
      * apply str_eqb_eq in Ekt; subst t. rewrite E. reflexivity.
      * reflexivity.
Qed.

Lemma dict_lookup_In {V} (d : dict V) (k : str) (v : V) :
  NoDup (map fst d) -> (In (k, v) d <-> dict_lookup d k = Some v).
Proof.
  induction d as [|[k' v'] d IH]; intros N; simpl.
  - split; [intros [] | discriminate].
  - inversion N as [|? ? Nk Nd]; subst. destruct (str_eqb k' k) eqn:E.
    + apply str_eqb_eq in E; subst k'. split.
      * intros [Eq|I]; [congruence|].
        exfalso; apply Nk. exact (in_map fst _ _ I).
      * intros Eq; left; congruence.
    + apply str_eqb_neq in E. rewrite <- (IH Nd). split.
      * intros [Eq|I]; [congruence | exact I].
      * intros I; right; exact I.
Qed.

Lemma pairs_of_type_snoc (ue : char -> str) (t : str) (seen : list triple)
    (e1 rel e2 : str) :
  pairs_of_type ue t (seen ++ [(e1, rel, e2)])
  = pairs_of_type ue t seen
    ++ (if str_eqb (sanitized_rel ue rel) t then [(e1, e2)] else []).
Proof.
  unfold pairs_of_type. rewrite filter_app, map_app. simpl.
  destruct (str_eqb (sanitized_rel ue rel) t); reflexivity.
Qed.

Lemma group_step_lookup (ue : char -> str) (acc : dict (list (str * str)))
    (seen : list triple) (x : triple) :
  (forall t, dict_lookup acc t = group_of ue t seen) ->
  forall t, dict_lookup (group_step ue acc x) t = group_of ue t (seen ++ [x]).
Proof.
  intros H t. destruct x as [[e1 rel] e2]. unfold group_step, group_of.
  rewrite pairs_of_type_snoc.
  destruct (sanitized_rel ue rel) as [|c s] eqn:S; cbn [truthy].
  - rewrite H. unfold group_of. destruct t as [|c t]; cbn [str_eqb truthy].
    + destruct (pairs_of_type ue [] seen); reflexivity.
    + rewrite app_nil_r. reflexivity.
  - rewrite dict_lookup_append_at. destruct (str_eqb (c :: s) t) eqn:E.
    + apply str_eqb_eq in E; subst t. rewrite H. unfold group_of. cbn [truthy].
      destruct (pairs_of_type ue (c :: s) seen); reflexivity.
    + rewrite app_nil_r. apply H.
Qed.

Lemma grouping_lookup (ue : char -> str) (ts : list triple)
    (acc : dict (list (str * str))) (seen : list triple) :
  (forall t, dict_lookup acc t = group_of ue t seen) ->
  forall t, dict_lookup (fold_left (group_step ue) ts acc) t
            = group_of ue t (seen ++ ts).
Proof.
  revert acc seen; induction ts as [|x ts IH]; intros acc seen H t; simpl.
  - rewrite app_nil_r. apply H.
  - replace (seen ++ x :: ts) with ((seen ++ [x]) ++ ts)
      by (rewrite <- app_assoc; reflexivity).
    apply IH. apply group_step_lookup, H.
Qed.

Lemma grouped_triples_lookup (ue : char -> str) (ts : list triple) (t : str) :
  dict_lookup (grouped_triples ue ts) t = group_of ue t ts.
Proof.
  rewrite grouped_triples_fold.
  apply (grouping_lookup ue ts [] []). intros t'. reflexivity.
Qed.

Lemma grouped_triples_NoDup (ue : char -> str) (ts : list triple) :
  NoDup (map fst (grouped_triples ue ts)).
Proof. rewrite grouped_triples_fold. apply grouping_keys_NoDup. constructor. Qed.

Lemma group_of_some (ue : char -> str) (t : str) (ts : list triple)
    (pairs : list (str * str)) :
  group_of ue t ts = Some pairs
  <-> t <> [] /\ pairs <> [] /\ pairs = pairs_of_type ue t ts.
Proof.
  unfold group_of. destruct (pairs_of_type ue t ts) as [|p ps] eqn:P.
  - split; [discriminate | intros (_ & N & E); congruence].
  - destruct t as [|c t]; cbn [truthy].
    + split; [discriminate | intros (N & _); congruence].
    + split.
      * intros E; injection E as <-. repeat split; discriminate.
      * intros (_ & _ & ->). reflexivity.
Qed.

(** A group of the first loop: a non-empty type with the pairs of the
    triples of that type. *)
Lemma grouped_triples_In (ue : char -> str) (ts : list triple) (t : str)
    (pairs : list (str * str)) :
  In (t, pairs) (grouped_triples ue ts)
  <-> t <> [] /\ pairs <> [] /\ pairs = pairs_of_type ue t ts.
Proof.
  rewrite (dict_lookup_In _ t pairs (grouped_triples_NoDup ue ts)).
  rewrite grouped_triples_lookup. apply group_of_some.
Qed.

Lemma pairs_of_type_In (ue : char -> str) (t : str) (ts : list triple)
    (p : str * str) :
  In p (pairs_of_type ue t ts)
  <-> exists rel, In (fst p, rel, snd p) ts /\ sanitized_rel ue rel = t.
Proof.
  unfold pairs_of_type. rewrite in_map_iff. split.
  - intros ([[e1 rel] e2] & <- & I). apply filter_In in I. destruct I as [I E].
    apply str_eqb_eq in E. exists rel. split; assumption.
  - intros (rel & I & E). exists (fst p, rel, snd p).
    split; [destruct p; reflexivity|].
    apply filter_In. split; [exact I | apply str_eqb_eq, E].
Qed.

Lemma new_writes_add_triples (ue : char -> str) (ts : list triple) (d : db) :
  new_writes d (add_triples ue ts d)
  = map (fun it => MergePairs (fst it) (snd it)) (grouped_triples ue ts).
Proof.
  unfold new_writes.
  rewrite (writes_journal _ {| graph_of := graph_of d; journal := _ |}
             (add_triples_journal ue ts d)).
  rewrite writes_app.
  replace {| graph_of := graph_of d; journal := journal d |} with d
    by (destruct d; reflexivity).
  rewrite skipn_app, skipn_all, Nat.sub_diag. reflexivity.
Qed.

Lemma merge_pairs_In (groups : dict (list (str * str))) (t : str)
    (pairs : list (str * str)) :
  In (MergePairs t pairs) (map (fun it => MergePairs (fst it) (snd it)) groups)
  <-> In (t, pairs) groups.
Proof.
  rewrite in_map_iff. split.
  - intros ([t' ps] & E & I). injection E as -> ->. exact I.
  - intros I. exists (t, pairs). split; [reflexivity | exact I].
Qed.

(** X1: the write of a relation type carries the pairs of exactly the input
    triples whose label sanitizes to that type, in the order of the input,
    duplicates included; no triple of a non-empty type is lost and none is
    made up. *)
Theorem add_triples_groups_every_triple
    (upper_ext : char -> str) (triples : list triple) (d : db) (t : str)
    (pairs : list (str * str)) :
  (In (MergePairs t pairs) (new_writes d (add_triples upper_ext triples d))
   <-> t <> [] /\ pairs <> [] /\ pairs = pairs_of_type upper_ext t triples)
  /\ (forall p,
        In p (pairs_of_type upper_ext t triples)
        <-> exists rel,
              In (fst p, rel, snd p) triples /\ sanitized_rel upper_ext rel = t)
  /\ dict_lookup (grouped_triples upper_ext triples) t
     = group_of upper_ext t triples.
Proof.
  split; [|split].
  - rewrite new_writes_add_triples, merge_pairs_In. apply grouped_triples_In.
  - intros p. apply pairs_of_type_In.
  - apply grouped_triples_lookup.
Qed.

Lemma type_chars_no_backtick (t : str) :
  Forall (fun c => is_type_char c = true) t -> ~ In 96%N t.
Proof.
  intros F I. rewrite Forall_forall in F. specialize (F _ I). discriminate F.
Qed.

(** The type of a group is not empty and is made of the characters of a
    sanitized type. *)
Lemma group_type_chars (ue : char -> str) (ts : list triple) (t : str)
    (pairs : list (str * str)) :
  In (t, pairs) (grouped_triples ue ts) ->
  t <> [] /\ Forall (fun c => is_type_char c = true) t.
Proof.
  intros I. apply grouped_triples_In in I. destruct I as (Nt & Np & ->).
  split; [exact Nt|].
  destruct (pairs_of_type ue t ts) as [|p ps] eqn:P; [congruence|].
  assert (In p (pairs_of_type ue t ts)) as Ip by (rewrite P; left; reflexivity).
  apply pairs_of_type_In in Ip. destruct Ip as (rel & _ & E).
  rewrite <- E, sanitized_rel_by_char. apply sanitize_space_alphabet.
Qed.

(** X2: every statement [add_triples] issues is the upsert of a relation
    type that is not empty and is made of [A-Z], [0-9] and the underscore:
    the type that the method puts between backticks in the text of the
    statement never holds a backtick. *)
Theorem add_triples_interpolates_safe_types
    (upper_ext : char -> str) (triples : list triple) (d : db) :
  Forall
    (fun s =>
       match s with
       | MergePairs t pairs =>
           t <> [] /\ Forall (fun c => is_type_char c = true) t /\ ~ In 96%N t
       | _ => False
       end)
    (new_writes d (add_triples upper_ext triples d)).
Proof.
  rewrite new_writes_add_triples. apply Forall_forall. intros s I.
  apply in_map_iff in I. destruct I as ([t pairs] & <- & I). cbn [fst snd].
  destruct (group_type_chars upper_ext triples t pairs I) as [Nt F].
  split; [exact Nt|]. split; [exact F | apply type_chars_no_backtick, F].
Qed.

(** ** [add_triples] only adds *)

Lemma grows_refl (P : str -> Prop) (g : graph) : grows P g g.
Proof. exists [], []. rewrite !app_nil_r. repeat split; constructor. Qed.

Lemma grows_trans (P : str -> Prop) (g1 g2 g3 : graph) :
  grows P g1 g2 -> grows P g2 g3 -> grows P g1 g3.
Proof.
  intros (n1 & r1 & En1 & Er1 & Fn1 & Fr1) (n2 & r2 & En2 & Er2 & Fn2 & Fr2).
  exists (n1 ++ n2), (r1 ++ r2).
  rewrite En2, En1, Er2, Er1, !app_assoc.
  repeat split; try reflexivity; apply Forall_app; split; assumption.
Qed.

Lemma grows_weaken (P Q : str -> Prop) (g g' : graph) :
  (forall t, P t -> Q t) -> grows P g g' -> grows Q g g'.
Proof.
  intros PQ (ns & rs & En & Er & Fn & Fr). exists ns, rs.
  repeat split; try assumption.
  apply (Forall_impl _ (fun r => PQ (rel_type r))), Fr.
Qed.

Lemma merge_entity_grows (P : str -> Prop) (x : str) (g : graph) :
  grows P g (snd (merge_entity x g)).
Proof.
  unfold merge_entity. destruct (filter (is_entity_named x) (nodes g)).
  - cbn [snd].
    exists [{| node_id := fresh_id g; labels := [Entity]; node_name := VStr x |}], [].
    cbn [nodes relationships]. split; [reflexivity|].
    split; [symmetry; apply app_nil_r|].
    split; [|constructor]. repeat constructor. exists x; reflexivity.
  - apply grows_refl.
Qed.

Lemma merge_relationship_grows (t : str) (g : graph) (ends : nat * nat) :
  grows (eq t) g (merge_relationship t g ends).
Proof.
  unfold merge_relationship. destruct (existsb _ (relationships g)).
  - apply grows_refl.
  - exists [], [{| rel_start := fst ends; rel_type := t; rel_end := snd ends |}].
    cbn [nodes relationships]. rewrite app_nil_r.
    repeat split; repeat constructor.
Qed.

Lemma merge_relationships_grow (t : str) (rows : list (nat * nat)) (g g2 : graph) :
  grows (eq t) g g2 -> grows (eq t) g (fold_left (merge_relationship t) rows g2).
Proof.
  revert g2; induction rows as [|r rows IH]; intros g2 G; simpl; [exact G|].
  apply IH. apply (grows_trans _ _ _ _ G), merge_relationship_grows.
Qed.

Lemma merge_targets_grow (P : str -> Prop) (y : str) (b1 : list nat)
    (g : graph) (acc : list (nat * nat) * graph) :
  grows P g (snd acc) ->
  grows P g
    (snd (fold_left
            (fun acc i1 =>
               let (b2, g') := merge_entity y (snd acc) in
               (fst acc ++ map (fun i2 => (i1, i2)) b2, g'))
            b1 acc)).
Proof.
  revert acc; induction b1 as [|i b1 IH]; intros acc G; simpl; [exact G|].
  apply IH. pose proof (merge_entity_grows P y (snd acc)) as M.
  destruct (merge_entity y (snd acc)) as [b2 g']. cbn [snd] in *.
  exact (grows_trans _ _ _ _ G M).
Qed.

(** The graph after the first [MERGE] of a pair, from which the rest of the
    statement only adds. *)
Lemma merge_pair_from_first (t : str) (g : graph) (pair : str * str) :
  grows (eq t) (snd (merge_entity (fst pair) g)) (merge_pair t g pair).
Proof.
  unfold merge_pair. destruct (merge_entity (fst pair) g) as [b1 g1]. cbn [snd].
  pose proof (merge_targets_grow (eq t) (snd pair) b1 g1 ([], g1)
                (grows_refl _ g1)) as G.
  destruct (fold_left _ b1 ([], g1)) as [rows g2]. cbn [snd] in G.
  apply merge_relationships_grow, G.
Qed.

Lemma merge_pair_grows (t : str) (g : graph) (pair : str * str) :
  grows (eq t) g (merge_pair t g pair).
Proof.
  apply (grows_trans _ _ _ _ (merge_entity_grows _ (fst pair) g)),
    merge_pair_from_first.
Qed.

Lemma merge_pairs_grow (t : str) (pairs : list (str * str)) (g : graph) :
  grows (eq t) g (merge_pairs t pairs g).
Proof.
  unfold merge_pairs. revert g; induction pairs as [|p pairs IH]; intros g;
    simpl; [apply grows_refl|].
  apply (grows_trans _ _ _ _ (merge_pair_grows t g p)), IH.
Qed.

Lemma groups_grow (groups : dict (list (str * str))) (d : db) :
  grows (fun t => In t (map fst groups)) (graph_of d)
    (graph_of
       (fold_left
          (fun d' (item : str * list (str * str)) =>
             execute_write (MergePairs (fst item) (snd item)) d')
          groups d)).
Proof.
  revert d; induction groups as [|[t pairs] groups IH]; intros d; simpl;
    [apply grows_refl|].
  apply (grows_trans _ _ (graph_of (execute_write (MergePairs t pairs) d))).
  - apply (grows_weaken (eq t)); [intros ? <-; left; reflexivity|].
    apply merge_pairs_grow.
  - apply (grows_weaken (fun t' => In t' (map fst groups)));
      [intros ? I; right; exact I | apply IH].
Qed.

Lemma written_type_keys (ue : char -> str) (ts : list triple) (t : str) :
  In t (map fst (grouped_triples ue ts)) <-> written_type ue ts t.
Proof.
  rewrite grouped_triples_fold, grouping_keys_In. unfold written_type. simpl.
  tauto.
Qed.

Lemma add_triples_grows (ue : char -> str) (ts : list triple) (d : db) :
  grows (written_type ue ts) (graph_of d) (graph_of (add_triples ue ts d)).
Proof.
  refine (grows_weaken _ _ _ _ _ (groups_grow (grouped_triples ue ts) d)).
  intros t. apply written_type_keys.
Qed.

(** X3: [add_triples] never removes or changes a node or a relationship: the
    graph afterwards is the graph before with nodes and relationships added
    at the end; every new node carries the one label [Entity] and a string
    for a name, every new relationship has the non-empty sanitized type of
    one of the triples.  This holds on any graph, also one that does not
    keep the uniqueness invariants. *)
Theorem add_triples_only_adds
    (upper_ext : char -> str) (triples : list triple) (d : db) :
  grows (written_type upper_ext triples) (graph_of d)
    (graph_of (add_triples upper_ext triples d)).
Proof.
  apply (grows_weaken (fun t => In t (map fst (grouped_triples upper_ext triples)))).
  - intros t. apply written_type_keys.
  - apply groups_grow.
Qed.

(** ** Adding again what is there *)

Lemma grows_In_rel (P : str -> Prop) (g g' : graph) (r : relationship) :
  grows P g g' -> In r (relationships g) -> In r (relationships g').
Proof.
  intros (ns & rs & _ & Er & _) I. rewrite Er. apply in_or_app; left; exact I.
Qed.

Lemma merge_pair_holds (t : str) (g : graph) (x y : str) :
  wf_graph g ->
  wf_graph (merge_pair t g (x, y))
  /\ holds t (merge_pair t g (x, y)) (x, y)
  /\ (forall t' q, holds t' g q -> holds t' (merge_pair t g (x, y)) q).
Proof.
  intros W.
  destruct (merge_entity_spec x g W) as (i1 & g1 & E1 & W1 & N1 & R1 & Keep1 & _).
  destruct (merge_entity_spec y g1 W1) as (i2 & g2 & E2 & W2 & N2 & R2 & Keep2 & _).
  rewrite (merge_pair_single t g g1 g2 x y i1 i2 E1 E2).
  destruct (merge_relationship_spec t g2 i1 i2 W2) as (W3 & Nodes & I & _).
  split; [exact W3|]. split.
  - exists i1, i2. unfold entities_named in *. rewrite Nodes. cbn [fst snd].
    split; [apply Keep2, N1 | split; [exact N2 | exact I]].
  - intros t' q (j1 & j2 & M1 & M2 & Ir). exists j1, j2.
    unfold entities_named in *. rewrite Nodes.
    split; [apply Keep2, Keep1, M1|]. split; [apply Keep2, Keep1, M2|].
    apply (grows_In_rel _ _ _ _ (merge_relationship_grows t g2 (i1, i2))).
    rewrite R2, R1. exact Ir.
Qed.

Lemma merge_pairs_hold (t : str) (pairs : list (str * str)) (g : graph) :
  wf_graph g ->
  wf_graph (merge_pairs t pairs g)
  /\ (forall p, In p pairs -> holds t (merge_pairs t pairs g) p)
  /\ (forall t' q, holds t' g q -> holds t' (merge_pairs t pairs g) q).
Proof.
  unfold merge_pairs. revert g; induction pairs as [|[x y] pairs IH]; intros g W.
  - simpl. split; [exact W|]. split; [intros p [] | auto].
  - destruct (merge_pair_holds t g x y W) as (W1 & H1 & K1).
    destruct (IH _ W1) as (W2 & H2 & K2). cbn [fold_left].
    split; [exact W2|]. split.
    + intros p [<-|I]; [apply K2, H1 | apply H2, I].
    + intros t' q H. apply K2, K1, H.
Qed.

Lemma groups_hold (groups : dict (list (str * str))) (d : db) :
  wf_graph (graph_of d) ->
  let d' :=
    fold_left
      (fun d' (item : str * list (str * str)) =>
         execute_write (MergePairs (fst item) (snd item)) d')
      groups d in
  wf_graph (graph_of d')
  /\ (forall t pairs p, In (t, pairs) groups -> In p pairs ->
                        holds t (graph_of d') p)
  /\ (forall t' q, holds t' (graph_of d) q -> holds t' (graph_of d') q).
Proof.
  cbv zeta. revert d; induction groups as [|[t pairs] groups IH]; intros d W.
  - simpl. split; [exact W|]. split; [intros ? ? ? [] | auto].
  - cbn [fold_left fst snd].
    destruct (merge_pairs_hold t pairs (graph_of d) W) as (W1 & H1 & K1).
    specialize (IH (execute_write (MergePairs t pairs) d) W1).
    destruct IH as (W2 & H2 & K2).
    split; [exact W2|]. split.
    + intros t' ps p [E|I] Ip.
      * injection E as <- <-. apply K2. cbn [execute_write graph_of].
        apply H1, Ip.
      * exact (H2 t' ps p I Ip).
    + intros t' q H. apply K2. cbn [execute_write graph_of]. apply K1, H.
Qed.

Lemma merge_pairs_again (t : str) (pairs : list (str * str)) (g : graph) :
  wf_graph g -> (forall p, In p pairs -> holds t g p) ->
  merge_pairs t pairs g = g.
Proof.
  intros W. unfold merge_pairs. induction pairs as [|[x y] pairs IH]; intros H;
    [reflexivity|]. cbn [fold_left].
  destruct (H (x, y) (or_introl eq_refl)) as (i1 & i2 & N1 & N2 & I).
  rewrite (merge_pair_again t g x y i1 i2 W N1 N2 I).
  apply IH. intros p Ip. apply H. right; exact Ip.
Qed.

Lemma groups_again (groups : dict (list (str * str))) (d : db) :
  wf_graph (graph_of d) ->
  (forall t pairs p, In (t, pairs) groups -> In p pairs -> holds t (graph_of d) p) ->
  graph_of
    (fold_left
       (fun d' (item : str * list (str * str)) =>
          execute_write (MergePairs (fst item) (snd item)) d')
       groups d)
  = graph_of d.
Proof.
  revert d; induction groups as [|[t pairs] groups IH]; intros d W H;
    [reflexivity|]. cbn [fold_left fst snd].
  assert (graph_of (execute_write (MergePairs t pairs) d) = graph_of d) as E.
  { cbn [execute_write graph_of]. apply (merge_pairs_again t pairs _ W).
    intros p Ip. exact (H t pairs p (or_introl eq_refl) Ip). }
  rewrite IH; [exact E | rewrite E; exact W |].
  intros t' ps p I Ip. rewrite E. exact (H t' ps p (or_intror I) Ip).
Qed.

(** X4: on a graph that keeps the uniqueness invariants, adding triples that
    were all part of an earlier call, in any order and any number of times,
    changes nothing in the graph: a batch that is ingested again is absorbed
    as a whole. *)
Theorem add_triples_absorbs_known_triples
    (upper_ext : char -> str) (first again : list triple) (d : db) :
  wf_graph (graph_of d) ->
  (forall x, In x again -> In x first) ->
  graph_of (add_triples upper_ext again (add_triples upper_ext first d))
  = graph_of (add_triples upper_ext first d).
Proof.
  intros W Sub.
  destruct (groups_hold (grouped_triples upper_ext first) d W) as (W1 & H1 & _).
  fold (add_triples upper_ext first d) in W1, H1.
  unfold add_triples at 1. apply groups_again; [exact W1|].
  intros t pairs p I Ip.
  apply grouped_triples_In in I. destruct I as (Nt & _ & ->).
  apply pairs_of_type_In in Ip. destruct Ip as (rel & Ix & E).
  apply (H1 t (pairs_of_type upper_ext t first)).
  - apply grouped_triples_In. split; [exact Nt|]. split; [|reflexivity].
    assert (In p (pairs_of_type upper_ext t first)) as Ip.
    { apply pairs_of_type_In. exists rel. split; [apply Sub, Ix | exact E]. }
    intros C. rewrite C in Ip. destruct Ip.
  - apply pairs_of_type_In. exists rel. split; [apply Sub, Ix | exact E].
Qed.

(** The triples of the grouping example, then two of them again in the
    other order. *)
Lemma add_triples_absorbs_known_triples_witness :
  graph_of
    (add_triples no_ext
       [(lit "C", lit "founded", lit "D"); (lit "A", lit "Founded", lit "B")]
       (add_triples no_ext founded_triples empty_db))
  = graph_of (add_triples no_ext founded_triples empty_db).
Proof.
  apply (add_triples_absorbs_known_triples no_ext founded_triples
           [(lit "C", lit "founded", lit "D"); (lit "A", lit "Founded", lit "B")]
           empty_db empty_graph_wf).
  intros x [<-|[<-|[]]]; simpl; tauto.
Defined.

(** ** The schema and the existence check after [add_triples] *)

Lemma distinct_In (x : str) (l : list str) : In x (distinct l) <-> In x l.
Proof.
  induction l as [|y l IH]; simpl; [tauto|].
  rewrite filter_In, IH, negb_true_iff, str_eqb_neq.
  destruct (list_eq_dec N.eq_dec y x) as [->|Ne]; [tauto|]. tauto.
Qed.

Lemma distinct_NoDup (l : list str) : NoDup (distinct l).
Proof.
  induction l as [|y l IH]; simpl; constructor.
  - rewrite filter_In, negb_true_iff, str_eqb_neq. tauto.
  - apply NoDup_filter, IH.
Qed.

Lemma kept_written (ue : char -> str) (ts : list triple) :
  (exists x, In x ts /\ kept ue x = true) <-> exists t, written_type ue ts t.
Proof.
  unfold kept, written_type. split.
  - intros ([[e1 rel] e2] & I & K). cbn [fst snd] in K.
    exists (sanitized_rel ue rel). split; [apply truthy_nonempty, K|].
    exists e1, rel, e2. tauto.
  - intros (t & Nt & e1 & rel & e2 & I & E). exists (e1, rel, e2).
    split; [exact I|]. cbn [fst snd]. rewrite E. apply truthy_nonempty, Nt.
Qed.

(** A type of the triples has, after [add_triples], a pair whose fact holds. *)
Lemma written_type_holds (ue : char -> str) (ts : list triple) (d : db) (t : str) :
  wf_graph (graph_of d) -> written_type ue ts t ->
  exists p, holds t (graph_of (add_triples ue ts d)) p.
Proof.
  intros W Wt.
  destruct (groups_hold (grouped_triples ue ts) d W) as (_ & H & _).
  fold (add_triples ue ts d) in H.
  destruct Wt as (Nt & e1 & rel & e2 & I & E).
  exists (e1, e2). apply (H t (pairs_of_type ue t ts)).
  - apply grouped_triples_In. split; [exact Nt|]. split; [|reflexivity].
    assert (In (e1, e2) (pairs_of_type ue t ts)) as Ip.
    { apply pairs_of_type_In. exists rel. tauto. }
    intros C. rewrite C in Ip. destruct Ip.
  - apply pairs_of_type_In. exists rel. tauto.
Qed.

Lemma no_group_no_change (ue : char -> str) (ts : list triple) (d : db) :
  (forall t, ~ written_type ue ts t) -> add_triples ue ts d = d.
Proof.
  intros N. unfold add_triples.
  destruct (grouped_triples ue ts) as [|[t pairs] groups] eqn:G; [reflexivity|].
  exfalso. apply (N t). apply written_type_keys. rewrite G. left; reflexivity.
Qed.

(** X5: the schema that [get_schema] reads after [add_triples] lists, each
    once, the relationship types that were there before and the non-empty
    sanitized types of the triples, and nothing else; its node labels are
    those of before, with [Entity] as soon as one triple is kept. *)
Theorem get_schema_after_add_triples
    (upper_ext : char -> str) (triples : list triple) (d : db) :
  wf_graph (graph_of d) ->
  let before := fst (get_schema d) in
  let after := fst (get_schema (add_triples upper_ext triples d)) in
  (forall t,
      In t (relationship_types after)
      <-> In t (relationship_types before) \/ written_type upper_ext triples t)
  /\ (forall l,
        In l (node_labels after)
        <-> In l (node_labels before)
            \/ (l = Entity /\ exists x, In x triples /\ kept upper_ext x = true))
  /\ NoDup (relationship_types after)
  /\ NoDup (node_labels after).
Proof.
  intros W. cbv zeta. unfold get_schema. cbn [fst relationship_types node_labels].
  cbn [logged graph_of].
  pose proof (add_triples_grows upper_ext triples d)
    as (ns & rs & En & Er & Fn & Fr).
  unfold db_relationship_types, db_labels.
  split; [|split; [|split; apply distinct_NoDup]].
  - intros t. rewrite !distinct_In, !in_map_iff, Er. split.
    + intros (r & <- & I). apply in_app_or in I. destruct I as [I|I].
      * left. exists r. tauto.
      * right. exact (proj1 (Forall_forall _ _) Fr r I).
    + intros [(r & <- & I)|Wt].
      * exists r. split; [reflexivity | apply in_or_app; left; exact I].
      * destruct (written_type_holds upper_ext triples d t W Wt)
          as (p & i1 & i2 & _ & _ & I).
        rewrite Er in I. eexists. split; [|exact I]. reflexivity.
  - intros l. rewrite !distinct_In, !in_flat_map, En. split.
    + intros (n & I & Il). apply in_app_or in I. destruct I as [I|I].
      * left. exists n. tauto.
      * right. destruct (proj1 (Forall_forall _ _) Fn n I) as (L & _).
        rewrite L in Il. destruct Il as [<-|[]]. split; [reflexivity|].
        apply kept_written.
        destruct (grouped_triples upper_ext triples) as [|[t pairs] groups] eqn:G.
        -- exfalso. unfold add_triples in En. rewrite G in En. simpl in En.
           rewrite <- (app_nil_r (nodes (graph_of d))) in En at 1.
           apply app_inv_head in En. subst ns. destruct I.
        -- exists t. apply written_type_keys. rewrite G. left; reflexivity.
    + intros [(n & I & Il)|(-> & K)].
      * exists n. split; [apply in_or_app; left; exact I | exact Il].
      * apply kept_written in K. destruct K as (t & Wt).
        destruct (written_type_holds upper_ext triples d t W Wt)
          as (p & i1 & i2 & N1 & _ & _).
        rewrite <- En.
        destruct (entities_named (fst p) (graph_of (add_triples upper_ext triples d)))
          as [|n l'] eqn:Ne; [discriminate|].
        assert (In n (entities_named (fst p)
                        (graph_of (add_triples upper_ext triples d)))) as In_n
            by (rewrite Ne; left; reflexivity).
        apply filter_In in In_n. destruct In_n as [In_n Named].
        exists n. split; [exact In_n|].
        unfold is_entity_named in Named. apply andb_true_iff in Named.
        destruct Named as [L _]. apply existsb_str_eqb in L. exact L.
Qed.

Lemma get_schema_after_add_triples_witness :
  relationship_types
    (fst (get_schema (add_triples no_ext founded_triples empty_db)))
  = [lit "FOUNDED"]
  /\ forall t,
       In t (relationship_types
               (fst (get_schema (add_triples no_ext founded_triples empty_db))))
       <-> In t (relationship_types (fst (get_schema empty_db)))
           \/ written_type no_ext founded_triples t.
Proof.
  split; [reflexivity|].
  exact (proj1 (get_schema_after_add_triples no_ext founded_triples empty_db
                  empty_graph_wf)).
Defined.

Lemma check_if_graph_exists_nodes (g : graph) :
  Maintenance.check_if_graph_exists g = true <-> nodes g <> [].
Proof.
  unfold Maintenance.check_if_graph_exists. destruct (nodes g); simpl.
  - split; [discriminate | congruence].
  - split; [discriminate | reflexivity].
Qed.

Lemma merge_entity_nodes (x : str) (g : graph) :
  nodes (snd (merge_entity x g)) <> [].
Proof.
  unfold merge_entity.
  destruct (filter (is_entity_named x) (nodes g)) as [|n l] eqn:F; cbn [snd nodes].
  - intros C. apply app_eq_nil in C. destruct C as [_ C]. discriminate.
  - intros C. rewrite C in F. discriminate.
Qed.

Lemma grows_nodes (P : str -> Prop) (g g' : graph) :
  grows P g g' -> nodes g <> [] -> nodes g' <> [].
Proof.
  intros (ns & rs & En & _) N C. rewrite En in C.
  apply app_eq_nil in C. destruct C as [C _]. exact (N C).
Qed.

Lemma add_triples_nodes (ue : char -> str) (ts : list triple) (d : db) (t : str) :
  written_type ue ts t -> nodes (graph_of (add_triples ue ts d)) <> [].
Proof.
  intros Wt. unfold add_triples.
  destruct (grouped_triples ue ts) as [|[t' pairs] groups] eqn:G.
  - apply written_type_keys in Wt. rewrite G in Wt. destruct Wt.
  - assert (In (t', pairs) (grouped_triples ue ts)) as I
        by (rewrite G; left; reflexivity).
    apply grouped_triples_In in I. destruct I as (_ & Np & _).
    destruct pairs as [|p ps]; [congruence|].
    cbn [fold_left fst snd].
    apply (grows_nodes _ _ _ (groups_grow groups _)).
    cbn [execute_write graph_of]. unfold merge_pairs. cbn [fold_left].
    apply (grows_nodes _ _ _ (merge_pairs_grow t' ps _)).
    apply (grows_nodes _ _ _ (merge_pair_from_first t' (graph_of d) p)).
    apply merge_entity_nodes.
Qed.

(** X6: [check_if_graph_exists] answers [True] after [add_triples] exactly
    when it did before or one of the triples is kept (its label sanitizes to
    a non-empty type); after [clear_database] it answers [False], and the
    cleared graph keeps the uniqueness invariants. *)
Theorem check_if_graph_exists_after_add_triples
    (upper_ext : char -> str) (triples : list triple) (d : db) :
  Maintenance.check_if_graph_exists (graph_of (add_triples upper_ext triples d))
  = Maintenance.check_if_graph_exists (graph_of d)
    || existsb (kept upper_ext) triples
  /\ Maintenance.check_if_graph_exists (Maintenance.clear_database (graph_of d))
     = false
  /\ wf_graph (Maintenance.clear_database (graph_of d)).
Proof.
  split; [|split; [reflexivity | exact empty_graph_wf]].
  destruct (existsb (kept upper_ext) triples) eqn:K.
  - rewrite orb_true_r. apply check_if_graph_exists_nodes.
    apply existsb_exists in K. destruct (proj1 (kept_written _ _) K) as (t & Wt).
    exact (add_triples_nodes upper_ext triples d t Wt).
  - rewrite orb_false_r, no_group_no_change; [reflexivity|].
    intros t Wt.
    destruct (proj2 (kept_written upper_ext triples) (ex_intro _ t Wt))
      as (x & I & Kx).
    assert (existsb (kept upper_ext) triples = true) as C
        by (apply existsb_exists; exists x; tauto).
    congruence.
Qed.

(** ** What [generate_cypher] hands back *)

Lemma startswith_split (s p : str) :
  startswith s p = true -> exists rest, s = p ++ rest.
Proof.
  intros H. exists (skipn (List.length p) s). symmetry. apply startswith_skipn, H.
Qed.

Lemma contains_split (s sub : str) :
  contains s sub = true -> exists a b, s = a ++ sub ++ b.
Proof.
  induction s as [|c s IH]; intros H.
  - destruct sub; [exists [], []; reflexivity | discriminate].
  - change (contains (c :: s) sub)
      with (startswith (c :: s) sub || contains s sub) in H.
    apply orb_true_iff in H; destruct H as [H|H].
    + destruct (startswith_split (c :: s) sub H) as [b E]. exists [], b; exact E.
    + destruct (IH H) as (a & b & ->). exists (c :: a), b; reflexivity.
Qed.

(** A string without [sub] has no piece with [sub]. *)
Lemma contains_piece (x y z sub : str) :
  contains (x ++ y ++ z) sub = false -> contains y sub = false.
Proof.
  intros H. destruct (contains y sub) eqn:C; [|reflexivity].
  destruct (contains_split y sub C) as (a & b & ->).
  replace (x ++ (a ++ sub ++ b) ++ z) with ((x ++ a) ++ sub ++ (b ++ z)) in H
    by (rewrite <- !app_assoc; reflexivity).
  rewrite contains_app in H. discriminate.
Qed.

Lemma strip_by_piece (p : char -> bool) (s : str) :
  exists pre suf, s = pre ++ strip_by p s ++ suf.
Proof.
  unfold strip_by. destruct (lstrip_by_suffix p s) as [pre E].
  destruct (rstrip_by_prefix p (lstrip_by p s)) as [suf F].
  exists pre, suf. rewrite <- F. exact E.
Qed.

Lemma strip_by_keeps_absent (p : char -> bool) (s sub : str) :
  contains s sub = false -> contains (strip_by p s) sub = false.
Proof.
  intros H. destruct (strip_by_piece p s) as (pre & suf & E).
  rewrite E in H. exact (contains_piece _ _ _ _ H).
Qed.

Lemma startswith_app_l (s x p : str) :
  startswith s p = true -> startswith (s ++ x) p = true.
Proof.
  intros H. destruct (startswith_split s p H) as [rest ->].
  rewrite <- app_assoc. apply startswith_app.
Qed.

Lemma join_prefix (sep a : str) (l : list str) :
  exists rest, join sep (a :: l) = a ++ rest.
Proof.
  destruct l as [|b l].
  - exists []. simpl. symmetry; apply app_nil_r.
  - exists (sep ++ join sep (b :: l)). reflexivity.
Qed.

(** No part of a split holds the separator. *)
Lemma split_from_parts (sep s : str) (skip : nat) :
  sep <> [] ->
  contains (fst (split_from sep skip s)) sep = false
  /\ Forall (fun p => contains p sep = false) (snd (split_from sep skip s)).
Proof.
  intros Ne. assert (contains [] sep = false) as Nil.
  { destruct sep; [congruence | reflexivity]. }
  revert skip; induction s as [|c r IH]; intros skip.
  - destruct skip; split; try exact Nil; constructor.
  - destruct skip as [|k]; cbn [split_from]; [|apply IH].
    destruct (startswith (c :: r) sep) eqn:P.
    + destruct (IH (List.length sep - 1)) as [A L].
      destruct (split_from sep (List.length sep - 1) r) as [a l].
      cbn [fst snd] in *. split; [exact Nil | constructor; assumption].
    + destruct (IH 0) as [A L].
      pose proof (join_split_from sep r 0 Ne) as J.
      destruct (split_from sep 0 r) as [a l]. cbn [fst snd] in *.
      split; [|exact L].
      change (contains (c :: a) sep)
        with (startswith (c :: a) sep || contains a sep).
      rewrite A, orb_false_r.
      destruct (startswith (c :: a) sep) eqn:Q; [|reflexivity].
      destruct (join_prefix sep a l) as [rest E].
      rewrite E in J. simpl in J. subst r.
      apply (startswith_app_l (c :: a) rest) in Q. simpl in Q, P. congruence.
Qed.

Lemma split_parts (sep s : str) :
  sep <> [] -> Forall (fun p => contains p sep = false) (split s sep).
Proof.
  intros Ne. unfold split. destruct (split_from_parts sep s 0 Ne) as [A L].
  destruct (split_from sep 0 s). constructor; assumption.
Qed.

Lemma extract_query_shape (answer cq : str) :
  extract_query answer = Ok cq ->
  strip cq = cq /\ contains cq fence = false.
Proof.
  unfold extract_query. destruct (contains (strip answer) fence) eqn:C.
  - unfold index.
    destruct (nth_error (split (strip answer) fence) 1) as [seg|] eqn:N;
      [|discriminate].
    intros E; injection E as <-. split; [apply strip_by_idem|].
    apply strip_by_keeps_absent, strip_by_keeps_absent.
    apply nth_error_In in N.
    exact (proj1 (Forall_forall _ _)
             (split_parts fence (strip answer) ltac:(discriminate)) seg N).
  - intros E; injection E as <-. split; [apply strip_by_idem | exact C].
Qed.

Lemma check_read_only_ok (ue : char -> str) (s cq : str) :
  check_read_only ue s = Ok cq ->
  cq = s /\ forall op, In op write_ops -> ~ occurs_ignoring_case op s.
Proof.
  unfold check_read_only.
  destruct (existsb (fun op => contains (upper ue s) op) write_ops) eqn:X;
    [discriminate|].
  intros E; injection E as <-. split; [reflexivity|]. intros op I O.
  assert (existsb (fun op => contains (upper ue s) op) write_ops = true) as Y.
  { apply existsb_exists. exists op. split; [exact I | apply occurs_upper; assumption]. }
  congruence.
Qed.

Lemma reads_logged (s : statement) (d : db) : reads (logged Read s d) = reads d ++ [s].
Proof. unfold reads, logged; simpl. rewrite filter_app, map_app. reflexivity. Qed.

Lemma writes_logged_read (s : statement) (d : db) :
  writes (logged Read s d) = writes d.
Proof.
  unfold writes, logged; simpl. rewrite filter_app, map_app. apply app_nil_r.
Qed.

(** X7: whatever the model does, [generate_cypher] leaves the graph as it
    is, writes nothing and issues the two reads of the schema.  When it
    returns a query, it shows nothing, and the query is the candidate taken
    from the model's answer, in which none of [CREATE], [SET], [DELETE],
    [MERGE] occurs in any mix of cases, which has no white space at either
    end and holds no code fence.  When it returns [None], it has shown one
    error, with the text of the exception of the [try]. *)
Theorem generate_cypher_outcome
    (upper_ext : char -> str) (question : str) (m : model) (d : db) :
  let '(res, shown, d') := generate_cypher upper_ext question m d in
  graph_of d' = graph_of d
  /\ writes d' = writes d
  /\ reads d' = reads d ++ [CallLabels; CallRelationshipTypes]
  /\ match res with
     | Some cypher_query =>
         shown = []
         /\ (exists answer,
               m (CypherPrompt (fst (get_schema d)) question) = Ok answer
               /\ extract_query answer = Ok cypher_query)
         /\ (forall op, In op write_ops ->
                        ~ occurs_ignoring_case op cypher_query)
         /\ strip cypher_query = cypher_query
         /\ contains cypher_query fence = false
     | None =>
         exists e,
           generate_cypher_try upper_ext (fst (get_schema d)) question m
           = Raise e
           /\ shown
              = [StError (lit "Error generating Cypher query: " ++ exn_str e)]
     end.
Proof.
  unfold generate_cypher.
  assert (graph_of (snd (get_schema d)) = graph_of d
          /\ writes (snd (get_schema d)) = writes d
          /\ reads (snd (get_schema d))
             = reads d ++ [CallLabels; CallRelationshipTypes]) as (Fg & Fw & Fr).
  { unfold get_schema; cbn [snd]. split; [reflexivity|]. split.
    - rewrite !writes_logged_read. reflexivity.
    - rewrite !reads_logged, <- app_assoc. reflexivity. }
  destruct (get_schema d) as [s d'] eqn:G. cbn [fst snd] in *.
  destruct (generate_cypher_try upper_ext s question m) as [cq|e] eqn:T.
  - repeat (split; [assumption|]). split; [reflexivity|].
    unfold generate_cypher_try in T.
    destruct (m (CypherPrompt s question)) as [answer|] eqn:A; [|discriminate].
    destruct (extract_query answer) as [cand|] eqn:X; [|discriminate].
    destruct (check_read_only_ok upper_ext cand cq T) as [-> No].
    destruct (extract_query_shape answer cand X) as [St Nf].
    split; [exists answer; split; [reflexivity | exact X]|].
    split; [exact No|]. split; assumption.
  - repeat (split; [assumption|]). exists e. split; reflexivity.
Qed.

(** ** The model that [visualize_subgraph] renders *)

Lemma entity_label_once (l : list str) :
  l = [] \/ l = [Entity] -> set_add str_eqb Entity l = [Entity].
Proof. intros [->| ->]; reflexivity. Qed.

Lemma visit_node_sound (st : vis) (n : value) :
  value_truthy n = true -> vis_sound st -> vis_sound (visit_node st n).
Proof.
  intros T (He & Nl & Hl & Hn & Ht). unfold visit_node.
  destruct (existsb (value_eqb n) (node_ids st)) eqn:E;
    [exact (conj He (conj Nl (conj Hl (conj Hn Ht))))|].
  unfold vis_sound. cbn [vnodes vedges node_ids edge_ids vnode_labels edge_labels].
  split; [|split; [exact Nl | split; [exact Hl | split]]].
  - intros e I. destruct (He e I) as (A & B & C).
    rewrite !(set_add_In value_eqb value_eqb_eq). tauto.
  - rewrite entity_label_once.
    + destruct (vnodes st); reflexivity.
    + rewrite Hn. destruct (vnodes st); tauto.
  - unfold set_add. rewrite E. apply Forall_app. split; [exact Ht|].
    repeat constructor. exact T.
Qed.

Lemma skipped_false (r : row) :
  skipped r = false ->
  value_truthy (row_src r) = true /\ value_truthy (row_tgt r) = true.
Proof.
  unfold skipped. intros S. apply orb_false_iff in S.
  rewrite !negb_false_iff in S. exact S.
Qed.

Lemma visit_row_sound (st : vis) (r : row) : vis_sound st -> vis_sound (visit_row st r).
Proof.
  intros H. rewrite visit_row_unfold. destruct (skipped r) eqn:S; [exact H|].
  destruct (skipped_false r S) as [Ts Tt].
  assert (vis_sound (with_ends st r)) as H1.
  { unfold with_ends; simpl. apply visit_node_sound; [exact Tt|].
    apply visit_node_sound; [exact Ts | exact H]. }
  cbv zeta. destruct (existsb _ (edge_ids (with_ends st r))); [exact H1|].
  destruct H1 as (He & Nl & Hl & Hn & Ht). unfold vis_sound.
  cbn [vnodes vedges node_ids edge_ids vnode_labels edge_labels].
  split; [|split; [|split; [|split; assumption]]].
  - intros e I. apply in_app_or in I. destruct I as [I|[<-|[]]].
    + destruct (He e I) as (A & B & C).
      rewrite (set_add_In value_eqb value_eqb_eq). tauto.
    + cbn [ed_source ed_target ed_label edge_of_row].
      rewrite (set_add_In value_eqb value_eqb_eq), !with_ends_ids. tauto.
  - apply set_add_NoDup; [apply value_eqb_eq | exact Nl].
  - intros l I. apply (set_add_In value_eqb value_eqb_eq) in I.
    destruct I as [I| ->].
    + destruct (Hl l I) as (e & Ie & El). exists e.
      split; [apply in_or_app; left; exact Ie | exact El].
    + exists (edge_of_row r).
      split; [apply in_or_app; right; left; reflexivity | reflexivity].
Qed.

Lemma build_sound (rows : list row) : vis_sound (build rows).
Proof.
  unfold build.
  assert (vis_sound vis_init) as H0.
  { split; [intros e []|]. split; [constructor|]. split; [intros l []|].
    split; [reflexivity | constructor]. }
  revert H0. generalize vis_init as st.
  induction rows as [|r rows IH]; intros st H; simpl; [exact H|].
  apply IH, visit_row_sound, H.
Qed.

Lemma truthy_string (v : value) :
  value_truthy v = true -> exists s, v = VStr s /\ s <> [].
Proof.
  destruct v as [|s]; simpl; [discriminate|]. intros T. exists s.
  split; [reflexivity | apply truthy_nonempty, T].
Qed.

(** X8: the model built from any rows is a graph the renderer can draw:
    every edge joins two nodes of the model and carries their names, its
    label is one of the edge styles, the edge styles hold each label of an
    edge once and nothing else, the node style is [Entity] alone, there as
    soon as a node is, and every node is named by a non-empty string. *)
Theorem build_gives_a_closed_graph (raw_data : list row) :
  let st := build raw_data in
  Forall
    (fun e =>
       In (ed_source e) (map nd_id (vnodes st))
       /\ In (ed_target e) (map nd_id (vnodes st))
       /\ In (ed_label e) (edge_labels st)
       /\ ed_source_name e = ed_source e
       /\ ed_destination_name e = ed_target e)
    (vedges st)
  /\ NoDup (edge_labels st)
  /\ Forall (fun l => exists e, In e (vedges st) /\ ed_label e = l)
       (edge_labels st)
  /\ vnode_labels st = match vnodes st with [] => [] | _ :: _ => [Entity] end
  /\ Forall (fun n => exists s, nd_id n = VStr s /\ s <> []) (vnodes st).
Proof.
  cbv zeta.
  destruct (build_sound raw_data) as (He & Nl & Hl & Hn & Ht).
  destruct (loop_ok raw_data vis_init vis_init_ok) as (Hids & _).
  fold (build raw_data) in Hids.
  split; [|split; [exact Nl | split; [|split; [exact Hn|]]]].
  - apply Forall_forall. intros e I. rewrite Hids.
    destruct (He e I) as (A & B & C). repeat (split; [assumption|]).
    destruct (loop_edges raw_data vis_init e I) as [[]|(r & _ & _ & ->)].
    split; reflexivity.
  - apply Forall_forall. exact Hl.
  - rewrite <- Hids in Ht. rewrite Forall_map in Ht.
    apply (Forall_impl _ (fun n => truthy_string (nd_id n))), Ht.
Qed.

Lemma visit_node_size (st : vis) (n : value) :
  List.length (vnodes (visit_node st n)) <= S (List.length (vnodes st)).
Proof.
  unfold visit_node. destruct (existsb (value_eqb n) (node_ids st)); simpl.
  - lia.
  - rewrite length_app. simpl. lia.
Qed.

Lemma visit_row_size (st : vis) (r : row) :
  List.length (vnodes (visit_row st r)) <= 2 + List.length (vnodes st)
  /\ List.length (vedges (visit_row st r)) <= 1 + List.length (vedges st).
Proof.
  rewrite visit_row_unfold. destruct (skipped r); [lia|].
  assert (List.length (vnodes (with_ends st r)) <= 2 + List.length (vnodes st)) as N.
  { unfold with_ends; simpl.
    pose proof (visit_node_size (visit_node st (row_src r)) (row_tgt r)).
    pose proof (visit_node_size st (row_src r)). lia. }
  destruct (with_ends_edges st r) as [Ev _]. cbv zeta.
  destruct (existsb _ (edge_ids (with_ends st r))); simpl.
  - rewrite Ev. lia.
  - rewrite length_app, Ev. simpl. lia.
Qed.

Lemma build_size (rows : list row) :
  List.length (vnodes (build rows)) <= 2 * List.length rows
  /\ List.length (vedges (build rows)) <= List.length rows.
Proof.
  unfold build.
  assert (forall st,
             List.length (vnodes (fold_left visit_row rows st))
             <= 2 * List.length rows + List.length (vnodes st)
             /\ List.length (vedges (fold_left visit_row rows st))
                <= List.length rows + List.length (vedges st)) as G.
  { induction rows as [|r rows IH]; intros st; simpl; [lia|].
    destruct (IH (visit_row st r)) as [A B].
    destruct (visit_row_size st r) as [C D]. lia. }
  destruct (G vis_init) as [A B]. simpl in A, B. lia.
Qed.

Lemma visualize_renderings (raw_data : list row) :
  renderings (visualize raw_data)
  = match raw_data with
    | [] => []
    | _ :: _ =>
        [{| el_nodes := vnodes (build raw_data);
            el_edges := vedges (build raw_data) |}]
    end.
Proof. destruct raw_data; reflexivity. Qed.

Lemma visualize_bounded (raw_data : list row) :
  List.length raw_data <= 25 ->
  Forall (fun e => List.length (el_nodes e) <= 50 /\ List.length (el_edges e) <= 25)
    (renderings (visualize raw_data)).
Proof.
  intros L. rewrite visualize_renderings. destruct raw_data as [|r l];
    constructor; [|constructor].
  destruct (build_size (r :: l)) as [A B]. cbn [el_nodes el_edges]. lia.
Qed.

Lemma dbutils_rows (toLower : str -> str) (query_text : str) (m : model) (d : db)
    (rows : list row) :
  fst (DBUtils.search_graph toLower query_text m d) = Ok rows ->
  List.length rows <= 25.
Proof.
  unfold DBUtils.search_graph.
  destruct (m (EntityPrompt query_text)) as [entity_string|e]; [|discriminate].
  destruct (DBUtils.entities_of entity_string); cbn [fst];
    intros E; injection E as <-; [simpl; lia|].
  rewrite match_neighbours_length. apply Nat.le_min_l.
Qed.

(** X9: what [visualize_subgraph] hands to the renderer is bounded, in both
    files and on any graph: at most one rendering per call, with at most 50
    nodes and at most 25 edges; and in [DBUtils.py] nothing is shown when the
    model raises. *)
Theorem visualize_subgraph_is_bounded
    (nlp : str -> GraphDb.doc) (toLower : str -> str) (query_text : str)
    (m : model) (d : db) :
  let bounded (shown : list ui) :=
    List.length (renderings shown) <= 1
    /\ Forall
         (fun e => List.length (el_nodes e) <= 50 /\ List.length (el_edges e) <= 25)
         (renderings shown) in
  bounded (fst (GraphDb.visualize_subgraph nlp toLower query_text d))
  /\ match fst (DBUtils.visualize_subgraph toLower query_text m d) with
     | Ok shown => bounded shown
     | Raise e => m (EntityPrompt query_text) = Raise e
     end.
Proof.
  cbv zeta. split.
  - unfold GraphDb.visualize_subgraph.
    pose proof (graph_db_rows nlp toLower query_text d) as L.
    destruct (GraphDb.search_graph nlp toLower query_text d) as [rows d'].
    cbn [fst] in *. split.
    + rewrite visualize_renderings. destruct rows; simpl; lia.
    + apply visualize_bounded. rewrite L.
      destruct (GraphDb.entities_of (nlp query_text)); [lia | apply Nat.le_min_l].
  - unfold DBUtils.visualize_subgraph.
    pose proof (dbutils_rows toLower query_text m d) as L.
    destruct (DBUtils.search_graph toLower query_text m d) as [[rows|e] d'] eqn:S;
      cbn [fst] in *.
    + split.
      * rewrite visualize_renderings. destruct rows; simpl; lia.
      * apply visualize_bounded, L. reflexivity.
    + unfold DBUtils.search_graph in S.
      destruct (m (EntityPrompt query_text)) as [entity_string|e0];
        [|injection S as <- _; reflexivity].
      destruct (DBUtils.entities_of entity_string); discriminate.
Qed.

(** ** The rows and the candidate names of [search_graph] *)

Lemma firstn_incl {A} (n : nat) (l : list A) (x : A) : In x (firstn n l) -> In x l.
Proof.
  intros I. rewrite <- (firstn_skipn n l). apply in_or_app; left; exact I.
Qed.

Lemma match_rows_anchored (toLower : str -> str) (g : graph) (es : list str)
    (r : row) :
  In r (match_rows toLower g es) -> anchored toLower g es r.
Proof.
  unfold match_rows. intros I.
  apply in_flat_map in I. destruct I as (e & Ie & I).
  apply in_flat_map in I. destruct I as (x & Ix & I).
  destruct (has_label Entity x && name_contains toLower x e) eqn:C; [|destruct I].
  apply andb_true_iff in C. destruct C as [L C].
  unfold name_contains in C. destruct (node_name x) as [|n] eqn:Nx; [discriminate|].
  apply in_map_iff in I. destruct I as ([t y] & <- & I).
  unfold neighbours in I. apply in_flat_map in I. destruct I as (rel & Irel & I).
  assert (forall i, In (t, y) (map (fun m => (rel_type rel, m)) (named g i)) ->
                    rel_type rel = t /\ In y (nodes g) /\ node_id y = i) as Nm.
  { intros i J. apply in_map_iff in J. destruct J as (m & E & J).
    injection E as <- <-. apply filter_In in J. destruct J as [J K].
    apply Nat.eqb_eq in K. tauto. }
  exists n, t, (node_name y), x, rel, y. unfold result_row. rewrite Nx.
  cbn [fst snd]. split; [reflexivity|].
  split; [exists e; tauto|].
  apply in_app_or in I. destruct I as [I|I].
  - destruct (Nat.eqb (rel_start rel) (node_id x)) eqn:S; [|destruct I].
    apply Nat.eqb_eq in S. destruct (Nm _ I) as (Et & Iy & Ey).
    repeat (split; [assumption || reflexivity|]). left. split; congruence.
  - destruct (Nat.eqb (rel_end rel) (node_id x)
              && negb (Nat.eqb (rel_start rel) (rel_end rel))) eqn:S;
      [|destruct I].
    apply andb_true_iff in S. destruct S as [S _]. apply Nat.eqb_eq in S.
    destruct (Nm _ I) as (Et & Iy & Ey).
    repeat (split; [assumption || reflexivity|]). right. split; congruence.
Qed.

Lemma anchored_columns (toLower : str -> str) (g : graph) (es : list str)
    (r : row) :
  anchored toLower g es r ->
  exists n t, row_src r = VStr n /\ row_rel r = VStr t
              /\ (skipped r = true <-> n = [] \/ value_truthy (row_tgt r) = false).
Proof.
  intros (n & t & m & x & rel & y & -> & _). exists n, t.
  split; [reflexivity|]. split; [reflexivity|].
  unfold skipped. change (row_src _) with (VStr n). change (row_tgt _) with m.
  rewrite orb_true_iff, !negb_true_iff. cbn [value_truthy].
  destruct n; simpl; split; intros [H|H]; auto; try discriminate; congruence.
Qed.

(** X10: every row that [search_graph] returns, in both files, has its three
    columns filled from the graph: [node] is the name of an [Entity] node
    that contains one of the candidate names once both went through
    [toLower], [relationship] is the type of a relationship at that node, in
    either direction, and [target] is the name of the node at its other
    end.  The default [RELATED_TO] of [visualize_subgraph] is therefore
    never used on these rows, and such a row is skipped there only when the
    matched name is the empty string or the neighbour has no name. *)
Theorem search_graph_rows_come_from_the_graph
    (nlp : str -> GraphDb.doc) (toLower : str -> str) (query_text : str)
    (m : model) (d : db) :
  let from_graph (es : list str) (r : row) :=
    anchored toLower (graph_of d) es r
    /\ exists n t,
         row_src r = VStr n /\ row_rel r = VStr t
         /\ (skipped r = true <-> n = [] \/ value_truthy (row_tgt r) = false) in
  Forall (from_graph (GraphDb.entities_of (nlp query_text)))
    (fst (GraphDb.search_graph nlp toLower query_text d))
  /\ match m (EntityPrompt query_text),
           fst (DBUtils.search_graph toLower query_text m d) with
     | Ok entity_string, Ok rows =>
         Forall (from_graph (DBUtils.entities_of entity_string)) rows
     | Raise e, Raise e' => e = e'
     | _, _ => False
     end.
Proof.
  cbv zeta.
  assert (forall es, Forall
                       (fun r => anchored toLower (graph_of d) es r
                                 /\ exists n t,
                                      row_src r = VStr n /\ row_rel r = VStr t
                                      /\ (skipped r = true
                                          <-> n = [] \/ value_truthy (row_tgt r) = false))
                       (match_neighbours toLower (graph_of d) es)) as G.
  { intros es. apply Forall_forall. intros r I.
    apply firstn_incl, match_rows_anchored in I.
    split; [exact I | exact (anchored_columns _ _ _ _ I)]. }
  split.
  - unfold GraphDb.search_graph.
    destruct (GraphDb.entities_of (nlp query_text)) as [|e es]; cbn [fst];
      [constructor | apply G].
  - unfold DBUtils.search_graph.
    destruct (m (EntityPrompt query_text)) as [entity_string|e]; [|reflexivity].
    destruct (DBUtils.entities_of entity_string) as [|e es]; cbn [fst];
      [constructor | apply G].
Qed.

Lemma strip_after_space (e : str) :
  strip e = e -> strip (32%N :: e) = e.
Proof.
  intros E. unfold strip, strip_by in *. cbn [lstrip_by].
  change (isspace 32%N) with true. cbn iota. exact E.
Qed.

Lemma join_head_char (sep p : str) (c : char) (l : list str) :
  join sep ((c :: p) :: l) = c :: join sep (p :: l).
Proof. destruct l; reflexivity. Qed.

Lemma join_comma_space (e : str) (es : list str) :
  join (lit ", ") (e :: es) = join [44%N] (e :: map (cons 32%N) es).
Proof.
  revert e; induction es as [|x es IH]; intros e; [reflexivity|].
  cbn [map]. rewrite !(join_cons _ e) by discriminate.
  rewrite join_head_char, IH. reflexivity.
Qed.

Lemma entities_of_parts (parts : list str) :
  Forall clean_name parts ->
  map strip (filter (fun e => truthy (strip e)) (map (cons 32%N) parts)) = parts.
Proof.
  induction parts as [|e parts IH]; intros F; [reflexivity|].
  inversion F as [|? ? (Ne & _ & St) F']; subst. cbn [map filter].
  rewrite (strip_after_space e St).
  destruct e; [congruence|]. cbn [truthy map]. rewrite (strip_after_space _ St).
  f_equal. apply IH, F'.
Qed.

(** X11: the names that [search_graph] of [DBUtils.py] takes from the model's
    answer are never empty, hold no comma and have no white space at either
    end; and an answer that is a list of such names joined by a comma and a
    space gives exactly these names back, in order, repetitions included. *)
Theorem entities_of_comma_separated_list (entity_string : str) (names : list str) :
  Forall clean_name (DBUtils.entities_of entity_string)
  /\ (Forall clean_name names ->
      DBUtils.entities_of (join (lit ", ") names) = names).
Proof.
  split.
  - unfold DBUtils.entities_of. apply Forall_forall. intros e I.
    apply in_map_iff in I. destruct I as (p & <- & I).
    apply filter_In in I. destruct I as [I T].
    split; [apply truthy_nonempty, T|]. split.
    + intros C. apply strip_by_incl in C.
      exact (proj1 (Forall_forall _ _) (split_char_parts 44%N entity_string) p I C).
    + apply strip_by_idem.
  - intros F. unfold DBUtils.entities_of. destruct names as [|e es]; [reflexivity|].
    rewrite join_comma_space. change (lit ",") with [44%N].
    inversion F as [|? ? (Ne & Nc & St) F']; subst.
    rewrite split_join_char; [|discriminate|].
    + cbn [filter map]. rewrite St. destruct e; [congruence|]. cbn [truthy map].
      rewrite St. f_equal. apply entities_of_parts, F'.
    + constructor; [exact Nc|]. apply Forall_map.
      refine (Forall_impl _ _ F').
      intros a (_ & Na & _) [C|C]; [discriminate | exact (Na C)].
Qed.

Lemma entities_of_comma_separated_list_witness :
  DBUtils.entities_of (join (lit ", ") [lit "John Doe"; lit "XYZ Corp"])
  = [lit "John Doe"; lit "XYZ Corp"].
Proof.
  apply (proj2 (entities_of_comma_separated_list [] [lit "John Doe"; lit "XYZ Corp"])).
  repeat constructor; try discriminate;
    intros C; repeat (destruct C as [C|C]; [discriminate|]); destruct C.
Defined.

Lemma fold_set_add_cond {A} (c : A -> bool) (f : A -> str) (l : list A)
    (init : list str) :
  (NoDup init ->
   NoDup (fold_left (fun s x => if c x then set_add str_eqb (f x) s else s) l init))
  /\ (forall e,
        In e (fold_left (fun s x => if c x then set_add str_eqb (f x) s else s) l init)
        <-> In e init \/ exists x, In x l /\ c x = true /\ e = f x).
Proof.
  revert init; induction l as [|x l IH]; intros init; simpl.
  - split; [auto|]. intros e. split; [tauto | intros [I|(_ & [] & _)]; exact I].
  - destruct (IH (if c x then set_add str_eqb (f x) init else init)) as [N M].
    split.
    + intros Ni. apply N. destruct (c x); [apply set_add_str_NoDup|]; exact Ni.
    + intros e. rewrite M. destruct (c x) eqn:C.
      * rewrite set_add_str_In. split.
        -- intros [[I| ->]|(y & I & K)]; [tauto | | ].
           ++ right. exists x. tauto.
           ++ right. exists y. tauto.
        -- intros [I|(y & [<-|I] & K & ->)]; [tauto | tauto |].
           right. exists y. tauto.
      * split.
        -- intros [I|(y & I & K)]; [tauto|]. right. exists y. tauto.
        -- intros [I|(y & [<-|I] & K & E)]; [tauto | congruence |].
           right. exists y. tauto.
Qed.

(** X12: the candidate names that [search_graph] of [graph_db.py] sends to the
    store hold no name twice; they are the stripped texts of the entities of
    the document and of the proper nouns that lie outside every entity, and
    no others: a proper noun inside an entity is not added on its own. *)
Theorem entities_of_document_are_distinct (dc : GraphDb.doc) :
  NoDup (GraphDb.entities_of dc)
  /\ forall e,
       In e (GraphDb.entities_of dc)
       <-> (exists ent, In ent (GraphDb.ents dc)
                        /\ e = strip (GraphDb.span_text ent))
           \/ (exists tok, In tok (GraphDb.tokens dc)
                           /\ lone_proper_noun dc tok = true
                           /\ e = strip (GraphDb.token_text tok)).
Proof.
  unfold GraphDb.entities_of.
  pose proof (fold_set_add_cond (fun _ : GraphDb.span => true)
                (fun ent => strip (GraphDb.span_text ent)) (GraphDb.ents dc) [])
    as [N1 M1].
  cbv beta iota in N1, M1.
  pose proof (fold_set_add_cond (lone_proper_noun dc)
                (fun tok => strip (GraphDb.token_text tok)) (GraphDb.tokens dc)
                (fold_left
                   (fun s ent => set_add str_eqb (strip (GraphDb.span_text ent)) s)
                   (GraphDb.ents dc) []))
    as [N2 M2].
  unfold lone_proper_noun in N2, M2 at 1. split.
  - apply N2, N1. constructor.
  - intros e. rewrite M2, M1. split.
    + intros [[[]|(ent & I & _ & E)]|(tok & I & K & E)].
      * left. exists ent. tauto.
      * right. exists tok. tauto.
    + intros [(ent & I & E)|(tok & I & K & E)].
      * left. right. exists ent. tauto.
      * right. exists tok. tauto.
Qed.

(** ** Lines of triples, there and back *)

Lemma clean_field_fixed (e : str) : clean_field e -> PdfProcessor.field e = e.
Proof.
  intros (_ & _ & _ & H & L). unfold PdfProcessor.field, strip_chars, strip.
  rewrite (strip_by_fixed isspace e).
  - apply strip_by_fixed.
    + intros c r E. specialize (H c r E). unfold edge_char in H.
      apply orb_false_iff in H. exact (proj2 H).
    + intros init c E. specialize (L init c E). unfold edge_char in L.
      apply orb_false_iff in L. exact (proj2 L).
  - intros c r E. specialize (H c r E). unfold edge_char in H.
    apply orb_false_iff in H. exact (proj1 H).
  - intros init c E. specialize (L init c E). unfold edge_char in L.
    apply orb_false_iff in L. exact (proj1 L).
Qed.

Lemma line_of_clean (t : triple) :
  clean_triple t -> PdfProcessor.line_triple (line_of t) = Some t.
Proof.
  destruct t as [[e1 rel] e2]. intros (C1 & C2 & C3). cbn [fst snd] in *.
  unfold PdfProcessor.line_triple, line_of. cbn [fst snd].
  change (lit "|") with [124%N].
  change (e1 ++ [124%N] ++ rel ++ [124%N] ++ e2)
    with (join [124%N] [e1; rel; e2]).
  rewrite split_join_char; [|discriminate|].
  - rewrite !clean_field_fixed by assumption.
    destruct C1 as (N1 & _), C2 as (N2 & _), C3 as (N3 & _).
    apply truthy_nonempty in N1, N2, N3. rewrite N1, N2, N3. reflexivity.
  - destruct C1 as (_ & P1 & _), C2 as (_ & P2 & _), C3 as (_ & P3 & _).
    repeat constructor; assumption.
Qed.

Lemma line_of_no_break (t : triple) : clean_triple t -> ~ In nl (line_of t).
Proof.
  destruct t as [[e1 rel] e2].
  intros ((_ & _ & B1 & _) & (_ & _ & B2 & _) & (_ & _ & B3 & _)).
  unfold line_of. cbn [fst snd] in *. rewrite !in_app_iff.
  intros [I|[I|[I|[I|I]]]]; try contradiction;
    destruct I as [I|[]]; discriminate I.
Qed.

Lemma line_of_ends (t : triple) :
  clean_triple t ->
  (forall c r, line_of t = c :: r -> isspace c = false)
  /\ (forall init c, line_of t = init ++ [c] -> isspace c = false).
Proof.
  destruct t as [[e1 rel] e2].
  intros ((N1 & _ & _ & H1 & _) & _ & (N3 & _ & _ & _ & L3)).
  unfold line_of. cbn [fst snd] in *. split.
  - intros c r E. destruct e1 as [|c1 e1]; [congruence|].
    injection E as <- _. specialize (H1 c1 e1 eq_refl).
    unfold edge_char in H1. apply orb_false_iff in H1. tauto.
  - intros init c E. destruct (exists_last N3) as (i3 & c3 & ->).
    rewrite !app_assoc in E. apply app_inj_tail in E. destruct E as [_ <-].
    specialize (L3 i3 c3 eq_refl).
    unfold edge_char in L3. apply orb_false_iff in L3. tauto.
Qed.

Lemma join_ends (P : char -> Prop) (sep : str) (parts : list str) :
  Forall (fun p => (forall c r, p = c :: r -> P c)
                   /\ (forall init c, p = init ++ [c] -> P c)
                   /\ p <> []) parts ->
  (forall c r, join sep parts = c :: r -> P c)
  /\ (forall init c, join sep parts = init ++ [c] -> P c).
Proof.
  induction parts as [|p parts IH]; intros F.
  - split; [discriminate|]. intros init c E. destruct init; discriminate.
  - inversion F as [|? ? (H & L & Ne) F']; subst.
    destruct parts as [|q parts]; [split; assumption|].
    rewrite join_cons by discriminate. destruct (IH F') as [_ IL]. split.
    + intros c r E. destruct p as [|c1 p]; [congruence|].
      injection E as <- _. exact (H c1 p eq_refl).
    + intros init c E. inversion F' as [|? ? (_ & _ & Nq) _]; subst.
      assert (join sep (q :: parts) <> []) as Nj.
      { destruct (join_prefix sep q parts) as [rest ->].
        destruct q; [congruence | discriminate]. }
      destruct (exists_last Nj) as (j & cj & Ej).
      rewrite Ej, !app_assoc in E. apply app_inj_tail in E. destruct E as [_ <-].
      exact (IL j cj Ej).
Qed.

(** X13: writing triples as lines and reading them gives the triples back:
    for triples whose three fields are not empty, hold no pipe and no line
    break and have no white space and no quote at either end, the text of
    their lines [subject|relation|object], one per line, parses to exactly
    these triples, in order. *)
Theorem triples_of_text_reads_its_lines (triples : list triple) :
  Forall clean_triple triples ->
  PdfProcessor.triples_of_text (join [nl] (map line_of triples)) = triples.
Proof.
  intros F. unfold PdfProcessor.triples_of_text.
  rewrite triples_of_text_flat_map. cbn [app].
  assert (strip (join [nl] (map line_of triples)) = join [nl] (map line_of triples))
    as ->.
  { destruct (join_ends (fun c => isspace c = false) [nl] (map line_of triples))
      as [H L].
    - apply Forall_map. refine (Forall_impl _ _ F). intros t C.
      destruct (line_of_ends t C) as [A B]. split; [exact A|]. split; [exact B|].
      destruct t as [[e1 rel] e2]. destruct C as ((N1 & _) & _).
      unfold line_of. cbn [fst snd] in *. destruct e1; [congruence | discriminate].
    - apply strip_by_fixed; assumption. }
  destruct triples as [|t ts]; [reflexivity|].
  rewrite split_join_char; [|discriminate|].
  - clear -F. induction F as [|x l C F IH]; [reflexivity|].
    cbn [map flat_map]. unfold line_triples at 1.
    rewrite (line_of_clean x C). cbn [app]. f_equal. exact IH.
  - apply Forall_map. refine (Forall_impl _ _ F). apply line_of_no_break.
Qed.

Lemma triples_of_text_reads_its_lines_witness :
  PdfProcessor.triples_of_text
    (join [nl] (map line_of [(lit "John Doe", lit "IS_A", lit "Director");
                             (lit "XYZ Corp", lit "IMPOSED_FINE_ON", lit "ABC Ltd")]))
  = [(lit "John Doe", lit "IS_A", lit "Director");
     (lit "XYZ Corp", lit "IMPOSED_FINE_ON", lit "ABC Ltd")].
Proof.
  apply triples_of_text_reads_its_lines.
  assert (forall s : str,
             s <> [] -> forallb (fun c => negb (N.eqb c 124) && negb (N.eqb c 10)) s = true ->
             edge_char (hd 0%N s) = false -> edge_char (last s 0%N) = false ->
             clean_field s) as K.
  { intros s Ne All Hd Ls. rewrite forallb_forall in All.
    split; [exact Ne|]. split; [|split; [|split]].
    - intros I. specialize (All _ I). discriminate All.
    - intros I. specialize (All _ I). discriminate All.
    - intros c r ->. exact Hd.
    - intros init c ->. rewrite last_last in Ls. exact Ls. }
  repeat constructor; cbn [fst snd]; apply K; try reflexivity; discriminate.
Defined.

(** ** What ingestion writes *)

Lemma field_bare (part : str) :
  PdfProcessor.field part <> [] -> bare_name (PdfProcessor.field part).
Proof.
  intros Ne. split; [exact Ne|]. unfold PdfProcessor.field, strip_chars.
  apply (strip_by_ends (fun c => mem c PdfProcessor.quote_chars)).
Qed.

Lemma parsed_fields (text : str) (e1 rel e2 : str) :
  In (e1, rel, e2) (PdfProcessor.triples_of_text text) ->
  bare_name e1 /\ bare_name rel /\ bare_name e2.
Proof.
  unfold PdfProcessor.triples_of_text. rewrite triples_of_text_flat_map.
  cbn [app]. intros I. apply in_flat_map in I. destruct I as (line & _ & I).
  unfold line_triples in I.
  destruct (PdfProcessor.line_triple line) as [t|] eqn:L; [|destruct I].
  destruct I as [->|[]].
  apply line_triple_some in L.
  destruct L as (p0 & p1 & p2 & _ & E & N0 & N1 & N2). injection E as -> -> ->.
  repeat split; try assumption; apply field_bare; assumption.
Qed.

(** X14: the end of [process_pdf_and_store], in both files.  When no line
    of the answer yields a triple, the one thing shown is the warning, and
    the database is left as it was.  Otherwise the one thing shown is the
    toast with the number of triples, and every statement issued is the
    upsert of a non-empty type made of [A-Z], [0-9] and the underscore, for
    pairs of names that are not empty and have no quote at either end; the
    graph only grows.  The two files do the same to the database and differ
    in the texts: in [pdfProcessor.py] the warning has 24 spaces between
    [any] and [structured], and the toast 18 spaces after the number. *)
Theorem store_triples_writes_clean_upserts
    (upper_ext : char -> str) (f : PdfProcessor.file) (text : str) (d : db) :
  let '(shown, d') := PdfProcessor.store_triples upper_ext f text d in
  let triples := PdfProcessor.triples_of_text text in
  (match triples with
   | [] => shown = [PdfProcessor.St (StWarning (PdfProcessor.no_data f))]
           /\ d' = d
   | _ :: _ =>
       shown
       = [PdfProcessor.StToast (PdfProcessor.storing f (List.length triples))]
   end)
  /\ Forall clean_upsert (new_writes d d')
  /\ grows (written_type upper_ext triples) (graph_of d) (graph_of d')
  /\ snd (PdfProcessor.store_triples upper_ext PdfProcessor.pdf_processor_py
            text d)
     = snd (PdfProcessor.store_triples upper_ext PdfProcessor.pdfProcessor_py
              text d)
  /\ PdfProcessor.no_data PdfProcessor.pdf_processor_py
     = lit "Could not extract any structured data from the document."
  /\ PdfProcessor.no_data PdfProcessor.pdfProcessor_py
     = lit "Could not extract any                        structured data from the document."
  /\ PdfProcessor.storing PdfProcessor.pdf_processor_py 12
     = lit "Step 3: Storing 12 relationships in the knowledge graph."
  /\ PdfProcessor.storing PdfProcessor.pdfProcessor_py 12
     = lit "Step 3: Storing 12                  relationships in the knowledge graph.".
Proof.
  unfold PdfProcessor.store_triples.
  pose proof (parsed_fields text) as Bare.
  destruct (PdfProcessor.triples_of_text text) as [|t ts] eqn:T; cbv zeta.
  - split; [split; reflexivity|]. split; [|split; [apply grows_refl|]].
    + unfold new_writes. rewrite skipn_all. constructor.
    + repeat split; reflexivity.
  - split; [reflexivity|]. split; [|split; [apply add_triples_grows|]].
    + apply Forall_forall. intros s I. rewrite new_writes_add_triples in I.
      apply in_map_iff in I. destruct I as ([ty pairs] & <- & I).
      cbn [fst snd clean_upsert] in *.
      destruct (group_type_chars upper_ext (t :: ts) ty pairs I) as (Nt & Ft).
      split; [exact Nt|]. split; [exact Ft|].
      apply grouped_triples_In in I. destruct I as (_ & _ & ->).
      apply Forall_forall. intros p Ip. apply pairs_of_type_In in Ip.
      destruct Ip as (rel & Ix & _). destruct (Bare _ _ _ Ix) as (B1 & _ & B3).
      split; assumption.
    + repeat split; reflexivity.
Qed.

(** ** The choice of the provider *)

Lemma same_letter_lower (c o : char) :
  is_ascii_upper o = true ->
  (same_letter c o <-> ascii_lower c = ascii_lower o).
Proof.
  unfold same_letter, ascii_lower, is_ascii_upper.
  intros U. rewrite U. apply andb_true_iff in U. rewrite !N.leb_le in U.
  destruct ((65 <=? c) && (c <=? 90))%N eqn:C.
  - apply andb_true_iff in C. rewrite !N.leb_le in C. split; [|lia].
    intros [->| ->]; lia.
  - split; [|tauto]. intros [->| ->]; [|reflexivity].
    exfalso. apply andb_false_iff in C. rewrite !N.leb_gt in C. lia.
Qed.

Lemma same_word_lower (w op : str) :
  Forall (fun o => is_ascii_upper o = true) op ->
  (Forall2 same_letter w op <-> map ascii_lower w = map ascii_lower op).
Proof.
  intros U. revert w; induction U as [|o op Uo U IH]; intros w.
  - split.
    + intros F; inversion F; reflexivity.
    + destruct w; [constructor | discriminate].
  - destruct w as [|c w]; [split; [intros F; inversion F | discriminate]|].
    cbn [map]. split.
    + intros F. inversion F as [|? ? ? ? S F']; subst.
      f_equal; [apply same_letter_lower; assumption | apply IH, F'].
    + intros E. injection E as Ec Ew.
      constructor; [apply same_letter_lower; assumption | apply IH, Ew].
Qed.

(** On a 7-bit string, searching the lower-cased string for a lower-case
    word is searching the string for the word in any mix of cases. *)
Lemma contains_lower (lower_ext : str -> str) (p op : str) :
  is_7bit p = true ->
  Forall (fun o => is_ascii_upper o = true) op ->
  (contains (lower lower_ext p) (map ascii_lower op) = true
   <-> occurs_ignoring_case op p).
Proof.
  intros B U. unfold lower. rewrite B. split.
  - intros C. destruct (contains_split _ _ C) as (a & b & E).
    apply map_eq_app in E. destruct E as (pa & rest & -> & _ & E).
    apply map_eq_app in E. destruct E as (w & pb & -> & Ew & _).
    exists pa, w, pb. split; [reflexivity | apply same_word_lower; assumption].
  - intros (pa & w & pb & -> & F). rewrite !map_app.
    rewrite (proj1 (same_word_lower w op U) F). apply contains_app.
Qed.

Lemma contains_lower_false (lower_ext : str -> str) (p op : str) :
  is_7bit p = true ->
  Forall (fun o => is_ascii_upper o = true) op ->
  ~ occurs_ignoring_case op p ->
  contains (lower lower_ext p) (map ascii_lower op) = false.
Proof.
  intros B U N. apply not_true_iff_false. intros C. apply N.
  apply (contains_lower lower_ext p op B U), C.
Qed.

Lemma provider_words_upper :
  Forall (Forall (fun o => is_ascii_upper o = true))
    [lit "GEMINI"; lit "GPT"; lit "OPENAI"; lit "CLAUDE"].
Proof. repeat constructor. Qed.

(** X15: [ModelWrapper] of [llmWrapper.py] picks the provider by looking for
    [gemini], then [gpt], then [claude] in the name, in any mix of upper and
    lower case (the name is lower-cased when the wrapper is made).  The
    first word found decides; the answer of Gemini is handed on as it is,
    that of the two others stripped of surrounding white space; a name with
    none of the three words raises a [ValueError] that quotes the
    lower-cased name, whatever the providers would have answered. *)
Theorem llm_wrapper_picks_first_provider_named
    (lower_ext : str -> str) (gemini openai anthropic : str -> result str)
    (name prompt : str) :
  is_7bit name = true ->
  let out :=
    LlmWrapper.generate gemini openai anthropic
      (LlmWrapper.init lower_ext name) prompt in
  let named (word : str) := occurs_ignoring_case word name in
  (named (lit "GEMINI") -> out = gemini prompt)
  /\ (~ named (lit "GEMINI") -> named (lit "GPT") ->
      out = LlmWrapper.stripped (openai prompt))
  /\ (~ named (lit "GEMINI") -> ~ named (lit "GPT") -> named (lit "CLAUDE") ->
      out = LlmWrapper.stripped (anthropic prompt))
  /\ (~ named (lit "GEMINI") -> ~ named (lit "GPT") -> ~ named (lit "CLAUDE") ->
      out = Raise (ValueError (lit "Unsupported provider: "
                               ++ map ascii_lower name)))
  /\ (~ named (lit "GEMINI") -> forall s, out = Ok s -> strip s = s).
Proof.
  intros B. cbv zeta.
  pose proof provider_words_upper as W.
  inversion W as [|? ? Ug W1]; subst. inversion W1 as [|? ? Up W2]; subst.
  inversion W2 as [|? ? Uo W3]; subst. inversion W3 as [|? ? Uc _]; subst.
  unfold LlmWrapper.generate, LlmWrapper.init. cbn [LlmWrapper.provider].
  change (lit "gemini") with (map ascii_lower (lit "GEMINI")).
  change (lit "gpt") with (map ascii_lower (lit "GPT")).
  change (lit "claude") with (map ascii_lower (lit "CLAUDE")).
  assert (lower lower_ext name = map ascii_lower name) as L
      by (unfold lower; rewrite B; reflexivity).
  split; [|split; [|split; [|split]]].
  - intros G. rewrite (proj2 (contains_lower lower_ext name _ B Ug) G). reflexivity.
  - intros G P. rewrite (contains_lower_false lower_ext name _ B Ug G).
    rewrite (proj2 (contains_lower lower_ext name _ B Up) P). reflexivity.
  - intros G P C. rewrite (contains_lower_false lower_ext name _ B Ug G).
    rewrite (contains_lower_false lower_ext name _ B Up P).
    rewrite (proj2 (contains_lower lower_ext name _ B Uc) C). reflexivity.
  - intros G P C. rewrite (contains_lower_false lower_ext name _ B Ug G).
    rewrite (contains_lower_false lower_ext name _ B Up P).
    rewrite (contains_lower_false lower_ext name _ B Uc C), L. reflexivity.
  - intros G s. rewrite (contains_lower_false lower_ext name _ B Ug G).
    destruct (contains _ (map ascii_lower (lit "GPT"))).
    + destruct (openai prompt); [|discriminate]. cbn [LlmWrapper.stripped].
      intros E; injection E as <-. apply strip_by_idem.
    + destruct (contains _ (map ascii_lower (lit "CLAUDE"))); [|discriminate].
      destruct (anthropic prompt); [|discriminate]. cbn [LlmWrapper.stripped].
      intros E; injection E as <-. apply strip_by_idem.
Qed.

Lemma llm_wrapper_picks_first_provider_named_witness :
  LlmWrapper.generate (fun _ => Ok (lit " g ")) (fun _ => Ok (lit " o "))
    (fun _ => Ok (lit " c "))
    (LlmWrapper.init (fun s => s) (lit "my-GPT-4o")) (lit "hello")
  = LlmWrapper.stripped (Ok (lit " o ")).
Proof.
  refine (proj1 (proj2 (llm_wrapper_picks_first_provider_named (fun s => s)
                          (fun _ => Ok (lit " g ")) (fun _ => Ok (lit " o "))
                          (fun _ => Ok (lit " c ")) (lit "my-GPT-4o") (lit "hello")
                          eq_refl)) _ _).
  - intros (pa & w & pb & E & F).
    apply (same_word_lower w (lit "GEMINI")) in F; [|repeat constructor].
    assert (contains (map ascii_lower (lit "my-GPT-4o")) (map ascii_lower (lit "GEMINI"))
            = true) as C.
    { rewrite E, !map_app, F. apply contains_app. }
    vm_compute in C. discriminate C.
  - exists (lit "my-"), (lit "GPT"), (lit "-4o"). split; [reflexivity|].
    repeat constructor; left; reflexivity.
Defined.

(** X16: [ModelWrapper] of [app.py] does the same with the words [gemini],
    [openai] and [claude]; each of the three options that the select box of
    the query settings offers names its own provider, so that no choice of
    the user can raise the error of the unsupported provider. *)
Theorem app_wrapper_supports_every_option
    (lower_ext : str -> str) (gemini openai anthropic : str -> result str)
    (name prompt : str) :
  is_7bit name = true ->
  let out (n : str) :=
    App.generate gemini openai anthropic (App.init lower_ext n) prompt in
  let named (word : str) := occurs_ignoring_case word name in
  (named (lit "GEMINI") -> out name = gemini prompt)
  /\ (~ named (lit "GEMINI") -> named (lit "OPENAI") ->
      out name = App.stripped (openai prompt))
  /\ (~ named (lit "GEMINI") -> ~ named (lit "OPENAI") -> named (lit "CLAUDE") ->
      out name = App.stripped (anthropic prompt))
  /\ (~ named (lit "GEMINI") -> ~ named (lit "OPENAI") -> ~ named (lit "CLAUDE") ->
      out name = Raise (ValueError (lit "Unsupported provider: "
                                    ++ map ascii_lower name)))
  /\ map out App.model_options
     = [gemini prompt; App.stripped (openai prompt);
        App.stripped (anthropic prompt)].
Proof.
  intros B. cbv zeta.
  pose proof provider_words_upper as W.
  inversion W as [|? ? Ug W1]; subst. inversion W1 as [|? ? Up W2]; subst.
  inversion W2 as [|? ? Uo W3]; subst. inversion W3 as [|? ? Uc _]; subst.
  unfold App.generate, App.init. cbn [App.provider].
  change (lit "gemini") with (map ascii_lower (lit "GEMINI")).
  change (lit "openai") with (map ascii_lower (lit "OPENAI")).
  change (lit "claude") with (map ascii_lower (lit "CLAUDE")).
  assert (lower lower_ext name = map ascii_lower name) as L
      by (unfold lower; rewrite B; reflexivity).
  split; [|split; [|split; [|split]]].
  - intros G. rewrite (proj2 (contains_lower lower_ext name _ B Ug) G). reflexivity.
  - intros G P. rewrite (contains_lower_false lower_ext name _ B Ug G).
    rewrite (proj2 (contains_lower lower_ext name _ B Uo) P). reflexivity.
  - intros G P C. rewrite (contains_lower_false lower_ext name _ B Ug G).
    rewrite (contains_lower_false lower_ext name _ B Uo P).
    rewrite (proj2 (contains_lower lower_ext name _ B Uc) C). reflexivity.
  - intros G P C. rewrite (contains_lower_false lower_ext name _ B Ug G).
    rewrite (contains_lower_false lower_ext name _ B Uo P).
    rewrite (contains_lower_false lower_ext name _ B Uc C), L. reflexivity.
  - reflexivity.
Qed.

Lemma app_wrapper_supports_every_option_witness :
  App.generate (fun _ => Ok (lit " g ")) (fun _ => Ok (lit " o "))
    (fun _ => Ok (lit " c "))
    (App.init (fun s => s) (lit "Google Gemini 2.5 Pro")) (lit "hello")
  = Ok (lit " g ").
Proof.
  refine (proj1 (app_wrapper_supports_every_option (fun s => s)
                   (fun _ => Ok (lit " g ")) (fun _ => Ok (lit " o "))
                   (fun _ => Ok (lit " c ")) (lit "Google Gemini 2.5 Pro")
                   (lit "hello") eq_refl) _).
  exists (lit "Google "), (lit "Gemini"), (lit " 2.5 Pro"). split; [reflexivity|].
  repeat constructor; (left; reflexivity) || (right; reflexivity).
Defined.

(** ** The chat: [render_chat_interface] *)

Import AppUi ChatFacts.

Lemma get_schema_read_only (d : db) : read_only d (snd (get_schema d)).
Proof.
  unfold get_schema, read_only; cbn [snd]. split; [reflexivity|].
  rewrite !writes_logged_read. reflexivity.
Qed.

Lemma generate_cypher_read_only (ue : char -> str) (question : str) (m : model)
    (d : db) :
  read_only d (snd (generate_cypher ue question m d)).
Proof.
  unfold generate_cypher. pose proof (get_schema_read_only d) as R.
  destruct (get_schema d) as [s d1]. cbn [snd] in R.
  destruct (generate_cypher_try ue s question m); exact R.
Qed.

Lemma generate_cypher_let_through (ue : char -> str) (question : str)
    (m : model) (d : db) (q : str) :
  fst (fst (generate_cypher ue question m d)) = Some q ->
  truthy q = true -> let_through q.
Proof.
  unfold generate_cypher. destruct (get_schema d) as [s d1].
  destruct (generate_cypher_try ue s question m) as [cq|e] eqn:T;
    cbn [fst]; [|discriminate].
  intros E; injection E as ->. intros Tq.
  unfold generate_cypher_try in T.
  destruct (m (CypherPrompt s question)) as [answer|]; [|discriminate].
  destruct (extract_query answer) as [cand|] eqn:X; [|discriminate].
  destruct (check_read_only_ok ue cand q T) as [-> No].
  destruct (extract_query_shape answer cand X) as [St Nf].
  repeat split; assumption.
Qed.

Lemma dbutils_visualize_read_only (toLower : str -> str) (query_text : str)
    (m : model) (d : db) :
  read_only d (snd (DBUtils.visualize_subgraph toLower query_text m d)).
Proof.
  unfold DBUtils.visualize_subgraph, DBUtils.search_graph.
  destruct (m (EntityPrompt query_text)) as [entity_string|e];
    [|split; reflexivity].
  destruct (DBUtils.entities_of entity_string); cbn [snd];
    [split; reflexivity|].
  split; [reflexivity | apply writes_logged_read].
Qed.

Lemma read_only_trans (a b c : db) : read_only a b -> read_only b c -> read_only a c.
Proof. unfold read_only. intros [A B] [C D]. split; congruence. Qed.

Lemma read_only_refl (d : db) : read_only d d.
Proof. split; reflexivity. Qed.

Section ChatLemmas.
Variable upper_ext : char -> str.
Variable toLower : str -> str.
Variable str_of_row : row -> str.

Lemma answer_try_runs_what_is_let_through
    (run1 run2 : str -> db -> result (list row) * db) (question : str)
    (m : chat_model) (d : db) :
  (forall q d0, let_through q -> run1 q d0 = run2 q d0) ->
  answer_try upper_ext toLower run1 str_of_row question m d
  = answer_try upper_ext toLower run2 str_of_row question m d.
Proof.
  intros H. unfold answer_try.
  pose proof (generate_cypher_let_through upper_ext question
                (fun p => m (Structured p)) d) as L.
  destruct (generate_cypher upper_ext question (fun p => m (Structured p)) d)
    as [[cq shown1] d1]. cbn [fst] in L.
  destruct cq as [q|]; [|reflexivity].
  destruct (truthy q) eqn:Tq; [|reflexivity].
  rewrite (H q d1 (L q eq_refl Tq)). reflexivity.
Qed.

Lemma answer_try_read_only (run : str -> db -> result (list row) * db)
    (question : str) (m : chat_model) (d : db) :
  (forall q d0, let_through q -> read_only d0 (snd (run q d0))) ->
  read_only d (snd (answer_try upper_ext toLower run str_of_row question m d)).
Proof.
  intros H. unfold answer_try.
  pose proof (generate_cypher_let_through upper_ext question
                (fun p => m (Structured p)) d) as L.
  pose proof (generate_cypher_read_only upper_ext question
                (fun p => m (Structured p)) d) as R.
  destruct (generate_cypher upper_ext question (fun p => m (Structured p)) d)
    as [[cq shown1] d1]. cbn [fst snd] in L, R.
  destruct cq as [q|]; [|exact R].
  destruct (truthy q) eqn:Tq; [|exact R].
  pose proof (H q d1 (L q eq_refl Tq)) as R2.
  destruct (run q d1) as [[rows|e] d2]; cbn [snd] in R2 |- *;
    pose proof (read_only_trans _ _ _ R R2) as R12; [|exact R12].
  destruct rows as [|r rows]; [exact R12|].
  destruct (m (SystemPrompt _ question)) as [response_text|e]; [|exact R12].
  pose proof (dbutils_visualize_read_only toLower question
                (fun p => m (Structured p)) d2) as R3.
  destruct (DBUtils.visualize_subgraph toLower question
              (fun p => m (Structured p)) d2) as [[drawn|e] d3];
    cbn [snd] in R3 |- *; exact (read_only_trans _ _ _ R12 R3).
Qed.

Lemma displayed_last_error (t : str) (l : list shown) :
  displayed t (l ++ [Ui (StError t)]).
Proof. left. apply in_or_app; right; left; reflexivity. Qed.

Lemma displayed_last_warning (t : str) (l : list shown) :
  displayed t (l ++ [Ui (StWarning t)]).
Proof. right; left. apply in_or_app; right; left; reflexivity. Qed.

Lemma answer_displayed (run : str -> db -> result (list row) * db)
    (question : str) (m : chat_model) (d : db) :
  displayed (fst (fst (answer upper_ext toLower run str_of_row question m d)))
    (snd (fst (answer upper_ext toLower run str_of_row question m d))).
Proof.
  unfold answer, answer_try.
  destruct (generate_cypher upper_ext question (fun p => m (Structured p)) d)
    as [[cq shown1] d1].
  destruct cq as [q|]; [|cbn [fst snd]; apply displayed_last_error].
  destruct (truthy q); [|cbn [fst snd]; apply displayed_last_error].
  destruct (run q d1) as [[rows|e] d2];
    [|cbn [fst snd]; apply displayed_last_error].
  destruct rows as [|r rows]; [cbn [fst snd]; apply displayed_last_warning|].
  destruct (m (SystemPrompt _ question)) as [response_text|e];
    [|cbn [fst snd]; apply displayed_last_error].
  destruct (DBUtils.visualize_subgraph toLower question
              (fun p => m (Structured p)) d2) as [[drawn|e] d3];
    cbn [fst snd]; [|apply displayed_last_error].
  right; right. apply in_or_app; left. apply in_or_app; right.
  left; reflexivity.
Qed.

(** The body of [if user_input]. *)
Lemma respond_records (run : str -> db -> result (list row) * db)
    (model_choice question : str) (m : chat_model) (st : session_state)
    (d : db) :
  let '(st', sh, d') :=
    respond upper_ext toLower run str_of_row model_choice question m st d in
  graph_built st' = graph_built st
  /\ user_input st' = user_input st
  /\ exists reply rest,
      messages st'
      = messages st
        ++ [{| role := lit "user"; content := question |};
            {| role := lit "assistant"; content := reply |}]
      /\ sh = [StChatMessage (lit "user"); StMarkdown question;
               StChatMessage (lit "assistant")] ++ rest
      /\ displayed reply rest
      /\ (graph_built st = Some true ->
          exists tried,
            rest = StSpinner (lit "Querying graph with " ++ model_choice
                              ++ lit "...")
                   :: StToast generating_query :: tried)
      /\ (graph_built st <> Some true ->
          reply = graph_is_empty
          /\ rest = [Ui (StWarning graph_is_empty)]
          /\ d' = d).
Proof.
  unfold respond. cbn [append_message graph_built].
  assert (forall reply,
             messages (append_message (lit "assistant") reply
                         (append_message (lit "user") question st))
             = messages st
               ++ [{| role := lit "user"; content := question |};
                   {| role := lit "assistant"; content := reply |}]) as M.
  { intros reply. cbn [append_message messages]. rewrite <- app_assoc.
    reflexivity. }
  destruct (graph_built st) as [[|]|] eqn:G.
  2,3: split; [exact G|]; split; [reflexivity|];
    exists graph_is_empty, [Ui (StWarning graph_is_empty)];
    (split; [apply M|]); (split; [reflexivity|]);
    (split; [apply (displayed_last_warning _ [])|]);
    (split; [intros T; discriminate T|]); intros _; repeat split.
  pose proof (answer_displayed run question m d) as D.
  assert (exists tried,
             snd (fst (answer upper_ext toLower run str_of_row question m d))
             = StToast generating_query :: tried) as Tr.
  { unfold answer, answer_try.
    destruct (generate_cypher upper_ext question (fun p => m (Structured p)) d)
      as [[cq shown1] d1].
    destruct cq as [q|]; [|cbn [fst snd]; eexists; reflexivity].
    destruct (truthy q); [|cbn [fst snd]; eexists; reflexivity].
    destruct (run q d1) as [[rows|e] d2]; [|cbn [fst snd]; eexists; reflexivity].
    destruct rows as [|r rows]; [cbn [fst snd]; eexists; reflexivity|].
    destruct (m (SystemPrompt _ question)) as [response_text|e];
      [|cbn [fst snd]; eexists; reflexivity].
    destruct (DBUtils.visualize_subgraph toLower question
                (fun p => m (Structured p)) d2) as [[drawn|e] d3];
      cbn [fst snd]; eexists; reflexivity. }
  destruct (answer upper_ext toLower run str_of_row question m d)
    as [[reply sh] d']. cbn [fst snd] in D, Tr. destruct Tr as [tried ->].
  split; [exact G|]. split; [reflexivity|].
  exists reply, (StSpinner (lit "Querying graph with " ++ model_choice
                            ++ lit "...")
                 :: StToast generating_query :: tried).
  split; [apply M|]. split; [reflexivity|]. split.
  { destruct D as [D|[D|D]]; [left | right; left | right; right];
      right; exact D. }
  split; [intros _; exists tried; reflexivity|].
  intros N. exfalso. apply N. reflexivity.
Qed.
End ChatLemmas.

Lemma touchy_let_through (q : str) (d : db) :
  let_through q -> (Ok [], d) = touchy q d.
Proof.
  intros (_ & _ & _ & No). unfold touchy.
  destruct (contains q (lit "DELETE")) eqn:C; [|reflexivity].
  exfalso. apply (No (lit "DELETE")); [right; right; left; reflexivity|].
  destruct (contains_split q _ C) as (a & b & ->).
  exists a, (lit "DELETE"), b. split; [reflexivity|].
  repeat constructor; left; reflexivity.
Qed.

(** A query is let through when the check of the code passes it. *)
Lemma let_through_checked (ue : char -> str) (q : str) :
  truthy q = true -> extract_query q = Ok q -> check_read_only ue q = Ok q ->
  let_through q.
Proof.
  intros T X C. destruct (extract_query_shape q q X) as [S F].
  destruct (check_read_only_ok ue q q C) as [_ No].
  repeat split; assumption.
Qed.

(** X17: one run of [render_chat_interface], as the list of its calls on
    [st] that display something, the input widget apart.  The history is
    shown first, each message in its chat message.  Without an input, typed
    or clicked, nothing else is shown, and nothing is recorded or read.  With one, the
    typed text coming first, exactly two messages are appended to the
    history, the question of the user and one reply of the assistant,
    whatever the model and the store do, exceptions included; after the
    history come the question in the chat message of the user and the chat
    message of the assistant, and the recorded reply is among what is shown
    there, as an error, a warning or markdown.  A clicked question is taken
    out of the session state exactly when it is the one used.  When
    [graph_built] is true the assistant starts with the spinner that names
    the model and the first toast; otherwise the reply is the fixed warning,
    nothing else is shown, and the database is left as it was. *)
Theorem render_chat_interface_records_the_turn
    (upper_ext : char -> str) (toLower : str -> str)
    (execute_read : str -> db -> result (list row) * db)
    (str_of_row : row -> str) (model_choice : str) (chat_input : option str)
    (m : chat_model) (st : session_state) (d : db) :
  let '(st', sh, d') :=
    render_chat_interface upper_ext toLower execute_read str_of_row
      model_choice chat_input m st d in
  let typed := match chat_input with Some p => truthy p | None => false end in
  let clicked :=
    match user_input st with Some q => truthy q | None => false end in
  let history := display_messages (messages st) in
  graph_built st' = graph_built st
  /\ (typed = false -> clicked = false ->
      st' = st /\ sh = history /\ d' = d)
  /\ (typed = true \/ clicked = true ->
      exists question reply rest,
        truthy question = true
        /\ (if typed
            then chat_input = Some question /\ user_input st' = user_input st
            else user_input st = Some question /\ user_input st' = None)
        /\ messages st'
           = messages st
             ++ [{| role := lit "user"; content := question |};
                 {| role := lit "assistant"; content := reply |}]
        /\ sh = history
                ++ [StChatMessage (lit "user"); StMarkdown question;
                    StChatMessage (lit "assistant")] ++ rest
        /\ displayed reply rest
        /\ (graph_built st = Some true ->
            exists tried,
              rest = StSpinner (lit "Querying graph with " ++ model_choice
                                ++ lit "...")
                     :: StToast generating_query :: tried)
        /\ (graph_built st <> Some true ->
            reply = graph_is_empty
            /\ rest = [Ui (StWarning graph_is_empty)]
            /\ d' = d)).
Proof.
  unfold render_chat_interface.
  assert (forall question (st1 : session_state) (typed : bool),
             truthy question = true ->
             graph_built st1 = graph_built st ->
             messages st1 = messages st ->
             (if typed
              then chat_input = Some question /\ user_input st1 = user_input st
              else user_input st = Some question /\ user_input st1 = None) ->
             let '(st', sh, d') :=
               let '(st', sh, d') :=
                 respond upper_ext toLower execute_read str_of_row
                   model_choice question m st1 d in
               (st', display_messages (messages st) ++ sh, d') in
             graph_built st' = graph_built st
             /\ exists question reply rest,
                 truthy question = true
                 /\ (if typed
                     then chat_input = Some question
                          /\ user_input st' = user_input st
                     else user_input st = Some question
                          /\ user_input st' = None)
                 /\ messages st'
                    = messages st
                      ++ [{| role := lit "user"; content := question |};
                          {| role := lit "assistant"; content := reply |}]
                 /\ sh = display_messages (messages st)
                         ++ [StChatMessage (lit "user"); StMarkdown question;
                             StChatMessage (lit "assistant")] ++ rest
                 /\ displayed reply rest
                 /\ (graph_built st = Some true ->
                     exists tried,
                       rest = StSpinner (lit "Querying graph with "
                                         ++ model_choice ++ lit "...")
                              :: StToast generating_query :: tried)
                 /\ (graph_built st <> Some true ->
                     reply = graph_is_empty
                     /\ rest = [Ui (StWarning graph_is_empty)]
                     /\ d' = d)) as Turn.
  { intros question st1 typed Tq Gb Ms Inp.
    pose proof (respond_records upper_ext toLower str_of_row execute_read
                  model_choice question m st1 d) as R.
    destruct (respond upper_ext toLower execute_read str_of_row model_choice
                question m st1 d) as [[st' sh] d'].
    destruct R as (Gb' & Ui' & reply & rest & Mr & -> & Dp & Gt & Ge).
    rewrite Gb in Gb', Gt, Ge. rewrite Ms in Mr.
    split; [exact Gb'|]. exists question, reply, rest.
    split; [exact Tq|]. split.
    { destruct typed; destruct Inp as [I1 I2]; (split; [exact I1|]);
        rewrite Ui'; exact I2. }
    repeat split; assumption || reflexivity || apply Ge; assumption. }
  assert (forall (typed : bool) (out : session_state * list shown * db),
             typed = false ->
             out
             = match
                 (match user_input st with
                  | Some q =>
                      if truthy q
                      then (Some q,
                            {| messages := messages st; user_input := None;
                               graph_built := graph_built st |})
                      else (None, st)
                  | None => (None, st)
                  end)
               with
               | (None, st1) => (st1, display_messages (messages st), d)
               | (Some question, st1) =>
                   let '(st', sh, d') :=
                     respond upper_ext toLower execute_read str_of_row
                       model_choice question m st1 d in
                   (st', display_messages (messages st) ++ sh, d')
               end ->
             let '(st', sh, d') := out in
             let clicked :=
               match user_input st with
               | Some q => truthy q
               | None => false
               end in
             graph_built st' = graph_built st
             /\ (typed = false -> clicked = false ->
                 st' = st /\ sh = display_messages (messages st) /\ d' = d)
             /\ (typed = true \/ clicked = true ->
                 exists question reply rest,
                   truthy question = true
                   /\ (if typed
                       then chat_input = Some question
                            /\ user_input st' = user_input st
                       else user_input st = Some question
                            /\ user_input st' = None)
                   /\ messages st'
                      = messages st
                        ++ [{| role := lit "user"; content := question |};
                            {| role := lit "assistant"; content := reply |}]
                   /\ sh = display_messages (messages st)
                           ++ [StChatMessage (lit "user"); StMarkdown question;
                               StChatMessage (lit "assistant")] ++ rest
                   /\ displayed reply rest
                   /\ (graph_built st = Some true ->
                       exists tried,
                         rest = StSpinner (lit "Querying graph with "
                                           ++ model_choice ++ lit "...")
                                :: StToast generating_query :: tried)
                   /\ (graph_built st <> Some true ->
                       reply = graph_is_empty
                       /\ rest = [Ui (StWarning graph_is_empty)]
                       /\ d' = d))) as Clicked.
  { intros typed out -> ->.
    destruct (user_input st) as [q|] eqn:U.
    - destruct (truthy q) eqn:Tq.
      + pose proof (Turn q {| messages := messages st; user_input := None;
                              graph_built := graph_built st |} false
                      Tq eq_refl eq_refl (conj eq_refl eq_refl)) as T.
        destruct (respond upper_ext toLower execute_read str_of_row
                    model_choice q m _ d) as [[st' sh] d'].
        destruct T as (Gb & T).
        split; [exact Gb|]. split; [intros _ F; discriminate|].
        intros _. exact T.
      + split; [reflexivity|]. split; [intros _ _; repeat split|].
        intros [F|F]; discriminate.
    - split; [reflexivity|]. split; [intros _ _; repeat split|].
      intros [F|F]; discriminate. }
  unfold pick_input.
  destruct chat_input as [p|]; [|exact (Clicked false _ eq_refl eq_refl)].
  destruct (truthy p) eqn:Tp; [|exact (Clicked false _ eq_refl eq_refl)].
  pose proof (Turn p st true Tp eq_refl eq_refl (conj eq_refl eq_refl)) as T.
  destruct (respond upper_ext toLower execute_read str_of_row model_choice
              p m st d) as [[st' sh] d'].
  destruct T as (Gb & T).
  split; [exact Gb|]. split; [intros F; discriminate|].
  intros _. exact T.
Qed.

(** X18: of the queries that the model writes, the chat hands to the store
    only those in which none of [CREATE], [SET], [DELETE] and [MERGE]
    occurs.  Two stores that answer alike every query that is not empty, is
    stripped, holds no code fence and none of these four words in any mix of
    cases give the same run of the chat: the same session state, the same
    things shown and the same database.  The check goes no further than the
    four words: a query with [REMOVE] is among those that come through. *)
Theorem render_chat_interface_runs_read_queries_only
    (upper_ext : char -> str) (toLower : str -> str)
    (run1 run2 : str -> db -> result (list row) * db)
    (str_of_row : row -> str) (model_choice : str) (chat_input : option str)
    (m : chat_model) (st : session_state) (d : db) :
  (forall q d0, let_through q -> run1 q d0 = run2 q d0) ->
  render_chat_interface upper_ext toLower run1 str_of_row model_choice
    chat_input m st d
  = render_chat_interface upper_ext toLower run2 str_of_row model_choice
      chat_input m st d
  /\ let_through (lit "MATCH (n) REMOVE n.name").
Proof.
  intros H. split.
  - unfold render_chat_interface, respond, answer.
    destruct (pick_input chat_input st) as [[question|] st1]; [|reflexivity].
    rewrite (answer_try_runs_what_is_let_through upper_ext toLower str_of_row
               run1 run2 question m d H).
    reflexivity.
  - apply (let_through_checked (fun c => [c])); reflexivity.
Qed.

Lemma render_chat_interface_runs_read_queries_only_witness :
  let m (p : chat_prompt) := Ok (lit "MATCH (n) DETACH DELETE n") in
  let st := {| messages := []; user_input := None; graph_built := Some true |} in
  let d := {| graph_of := graph_of empty_db; journal := [] |} in
  render_chat_interface (fun c => [c]) (fun s => s) (fun q d0 => (Ok [], d0))
    (fun _ => []) (lit "OpenAI GPT-4.1") (Some (lit "Who founded B?")) m st d
  = render_chat_interface (fun c => [c]) (fun s => s) touchy
      (fun _ => []) (lit "OpenAI GPT-4.1") (Some (lit "Who founded B?")) m st d.
Proof.
  cbv zeta.
  apply (render_chat_interface_runs_read_queries_only (fun c => [c])
           (fun s => s) (fun q d0 => (Ok [], d0)) touchy).
  intros q d0. apply touchy_let_through.
Defined.

(** X19: a run of the chat writes nothing: when the read transaction of the
    store leaves the graph as it is on the queries that come through, the
    whole run leaves the graph as it is and issues no write transaction,
    through the generation of the query, its execution, the search and the
    drawing. *)
Theorem render_chat_interface_is_read_only
    (upper_ext : char -> str) (toLower : str -> str)
    (execute_read : str -> db -> result (list row) * db)
    (str_of_row : row -> str) (model_choice : str) (chat_input : option str)
    (m : chat_model) (st : session_state) (d : db) :
  (forall q d0, let_through q -> read_only d0 (snd (execute_read q d0))) ->
  read_only d
    (snd (render_chat_interface upper_ext toLower execute_read str_of_row
            model_choice chat_input m st d)).
Proof.
  intros H. unfold render_chat_interface, respond.
  destruct (pick_input chat_input st) as [[question|] st1];
    [|apply read_only_refl].
  pose proof (answer_try_read_only upper_ext toLower str_of_row execute_read
                question m d H) as R.
  unfold answer.
  destruct (answer_try upper_ext toLower execute_read str_of_row question m d)
    as [[[text|e] sh] d']; cbn [snd] in R;
    destruct (graph_built (append_message (lit "user") question st1))
      as [[|]|]; cbn [snd]; exact R || apply read_only_refl.
Qed.

Lemma render_chat_interface_is_read_only_witness :
  let m (p : chat_prompt) :=
    match p with
    | Structured (CypherPrompt _ _) => Ok (lit "MATCH (n) RETURN n.name")
    | Structured (EntityPrompt _) => Ok (lit "B")
    | SystemPrompt _ _ => Ok (lit "A founded B.")
    end in
  let st := {| messages := []; user_input := None; graph_built := Some true |} in
  let d := {| graph_of := graph_of empty_db; journal := [] |} in
  read_only d
    (snd (render_chat_interface (fun c => [c]) (fun s => s)
            (fun q d0 => (Ok [], d0)) (fun _ => []) (lit "OpenAI GPT-4.1")
            (Some (lit "Who founded B?")) m st d)).
Proof.
  cbv zeta.
  apply (render_chat_interface_is_read_only (fun c => [c]) (fun s => s)
           (fun q d0 => (Ok [], d0))).
  intros q d0 _. apply read_only_refl.
Defined.
